(** * We3Vision backend: derived fields, access control and request guards

    A shallow embedding of the pure logic of the Express/Mongoose backend
    (models/Blog.js, models/job.js, middleware/auth.js, routes/blog.js,
    routes/job.js, routes/media.js), followed by the properties proved
    about it.

    JavaScript strings are sequences of UTF-16 code units; they are
    modelled as lists of [N].  The HTTP framework, the document store, the
    token library and the file system are collaborators of the code: they
    appear as section variables or as explicit store values. *)

From Stdlib Require Import ZArith NArith List Bool Lia String Ascii.
From Stdlib Require Import DecimalString DecimalN.
Import ListNotations.

(* ================================================================== *)
(** ** JavaScript strings *)

Definition code := N.
Definition jsstring := list code.

(** An ASCII literal of the source, as a JavaScript string. *)
Definition lit (s : string) : jsstring :=
  map N_of_ascii (list_ascii_of_string s).

Definition jsstring_eqb (a b : jsstring) : bool :=
  if list_eq_dec N.eq_dec a b then true else false.

Definition hyphen : code := 45%N.

Module Chars.
Local Open Scope N_scope.

Definition between (lo hi c : code) : bool := (lo <=? c) && (c <=? hi).

Definition isLower (c : code) : bool := between 97 122 c.
Definition isUpper (c : code) : bool := between 65 90 c.
Definition isDigit (c : code) : bool := between 48 57 c.
Definition isHyphen (c : code) : bool := c =? hyphen.
Definition isAscii (c : code) : bool := c <? 128.

(** The class [\s] of a JavaScript regular expression, which is also the
    white space that [Number] trims from a string: WhiteSpace and
    LineTerminator of ECMAScript. *)
Definition isWhiteSpace (c : code) : bool :=
  between 9 13 c || (c =? 32) || (c =? 160) || (c =? 5760)
  || between 8192 8202 c || (c =? 8232) || (c =? 8233) || (c =? 8239)
  || (c =? 8287) || (c =? 12288) || (c =? 65279).

(** [String.prototype.toLowerCase] on a code unit of the ASCII range. *)
Definition asciiLower (c : code) : code := if isUpper c then c + 32 else c.
End Chars.
Import Chars.

(* ================================================================== *)
(** ** Regular-expression replacements used by the slug pipeline *)

(** [s.replace(/[^a-z0-9\s-]/g, '')]: every code unit outside the class is
    removed. *)
Definition keepChar (c : code) : bool :=
  isLower c || isDigit c || isWhiteSpace c || isHyphen c.

Definition stripOthers (s : jsstring) : jsstring := filter keepChar s.

(** [s.replace(/P+/g, r)] for a one-character class [P]: the scan replaces
    each maximal run of [P] by the single unit [r].  [inrun] records that
    the previous unit belonged to the run being replaced. *)
Fixpoint collapseFrom (p : code -> bool) (r : code) (inrun : bool)
         (s : jsstring) : jsstring :=
  match s with
  | [] => []
  | c :: s' =>
      if p c then
        if inrun then collapseFrom p r true s'
        else r :: collapseFrom p r true s'
      else c :: collapseFrom p r false s'
  end.

Definition collapseRuns (p : code -> bool) (r : code) (s : jsstring) :=
  collapseFrom p r false s.

Fixpoint dropWhile (p : code -> bool) (s : jsstring) : jsstring :=
  match s with
  | [] => []
  | c :: s' => if p c then dropWhile p s' else s
  end.

Fixpoint dropWhileEnd (p : code -> bool) (s : jsstring) : jsstring :=
  match s with
  | [] => []
  | c :: s' =>
      match dropWhileEnd p s' with
      | [] => if p c then [] else [c]
      | t => c :: t
      end
  end.

(** [s.replace(/^-+|-+$/g, '')]: the first alternative matches the run of
    hyphens at index 0, the second the run that ends the input. *)
Definition trimHyphens (s : jsstring) : jsstring :=
  dropWhileEnd isHyphen (dropWhile isHyphen s).

(** [String.prototype.trim], which is also the trimming that [Number]
    applies to a string and the [trim: true] option of a schema path. *)
Definition trim (s : jsstring) : jsstring :=
  dropWhileEnd isWhiteSpace (dropWhile isWhiteSpace s).

(* ================================================================== *)
(** ** Slug generation (models/Blog.js and models/job.js) *)

Section Slug.

(** [String.prototype.toLowerCase].  Its Unicode case tables belong to the
    runtime; the development only relies on its behaviour on ASCII. *)
Variable toLowerCase : jsstring -> jsstring.

(** The chain of calls shared by both models:
    [title.toLowerCase().replace(/[^a-z0-9\s-]/g, '').replace(/\s+/g, '-')
          .replace(/-+/g, '-').replace(/^-+|-+$/g, '')]. *)
Definition normalize (title : jsstring) : jsstring :=
  trimHyphens
    (collapseRuns isHyphen hyphen
       (collapseRuns isWhiteSpace hyphen
          (stripOthers (toLowerCase title)))).

(** The fields of a Blog document that the hook reads and writes.  A
    missing title or slug is [None]; [titleModified] is
    [this.isModified('title')]. *)
Record blogDoc := {
  blog_title : option jsstring;
  blog_slug : option jsstring;
  blog_titleModified : bool
}.

Definition truthyStr (o : option jsstring) : bool :=
  match o with
  | Some (_ :: _) => true
  | _ => false
  end.

(** [blogSchema.pre('validate', ...)]. *)
Definition blog_pre_validate (d : blogDoc) : blogDoc :=
  match blog_title d with
  | Some t =>
      if truthyStr (blog_title d)
         && (blog_titleModified d || negb (truthyStr (blog_slug d)))
      then {| blog_title := blog_title d;
              blog_slug := Some (normalize t);
              blog_titleModified := blog_titleModified d |}
      else d
  | None => d
  end.

(** [let baseSlug = ...; if (!baseSlug) baseSlug = 'job';] of the Job
    hook. *)
Definition job_baseSlug (title : jsstring) : jsstring :=
  match normalize title with
  | [] => lit "job"
  | s => s
  end.

End Slug.

(** [toLowerCase] restricted to what every runtime agrees on for ASCII
    input; used to evaluate the pipeline on ASCII titles. *)
Definition asciiLowerCase (s : jsstring) : jsstring := map asciiLower s.

(** The shape of a slug: lower-case letters, digits and hyphens, no two
    hyphens in a row, no hyphen at either end. *)
Definition slugChar (c : code) : bool := isLower c || isDigit c || isHyphen c.

Fixpoint noDoubleHyphen (s : jsstring) : Prop :=
  match s with
  | a :: (b :: _) as t => ~ (a = hyphen /\ b = hyphen) /\ noDoubleHyphen t
  | _ => True
  end.

Definition startsWithHyphen (s : jsstring) : Prop := exists t, s = hyphen :: t.
Definition endsWithHyphen (s : jsstring) : Prop := exists t, s = t ++ [hyphen].

Record slug_shape (s : jsstring) : Prop := {
  shape_chars : Forall (fun c => slugChar c = true) s;
  shape_single : noDoubleHyphen s;
  shape_head : ~ startsWithHyphen s;
  shape_last : ~ endsWithHyphen s
}.

(* ================================================================== *)
(** ** JavaScript numbers

    A Number is an IEEE 754 binary64 value.  Finite values are kept as
    [m * 2^e] with integers [m] and [e], so that the arithmetic of the
    salary formatter (a division by a constant, comparisons with
    constants, [toFixed] and the conversion to a string) is computed
    exactly as the runtime computes it.  The two zeros are not told
    apart: the formatter cannot observe the sign of a zero. *)

Module JSNumber.
Local Open Scope Z_scope.

Inductive number :=
| NaN
| Inf (negative : bool)
| Fin (m e : Z).

Definition zero : number := Fin 0 0.

(** Number of low zero bits of a positive integer. *)
Definition lowZeros (m : Z) : Z := Z.log2 (Z.land m (- m)).

(** The representation of [m * 2^e] with [m] odd, or [Fin 0 0]. *)
Definition canon (m e : Z) : number :=
  if m =? 0 then zero
  else let t := lowZeros (Z.abs m) in Fin (m / 2 ^ t) (e + t).

(** [floor (log2 (a / q))] for positive [a] and [q]. *)
Definition ilog2_ratio (a q : Z) : Z :=
  let l := Z.log2 a - Z.log2 q in
  if (if 0 <=? l then q * 2 ^ l <=? a else q <=? a * 2 ^ (- l))
  then l else l - 1.

(** [n / d] rounded to the nearest integer, ties to even. *)
Definition div_half_even (n d : Z) : Z :=
  let q := n / d in
  let r := n mod d in
  if 2 * r <? d then q
  else if d <? 2 * r then q + 1
  else if Z.even q then q else q + 1.

(** The binary64 value nearest to [p / q] ([q] positive): 53 bits of
    precision, least exponent -1074, overflow to infinity. *)
Definition round_q (p q : Z) : number :=
  if p =? 0 then zero
  else
    let a := Z.abs p in
    let e := Z.max (ilog2_ratio a q - 52) (-1074) in
    let M := if 0 <=? e then div_half_even a (q * 2 ^ e)
             else div_half_even (a * 2 ^ (- e)) q in
    if (971 <? e) || ((e =? 971) && (2 ^ 53 <=? M)) then Inf (p <? 0)
    else canon (Z.sgn p * M) e.

Definition ofZ (z : Z) : number := round_q z 1.

(** A finite value as a fraction [(p, q)], [q] a power of two. *)
Definition fraction (m e : Z) : Z * Z :=
  if 0 <=? e then (m * 2 ^ e, 1) else (m, 2 ^ (- e)).

Definition isNaN (x : number) : bool :=
  match x with NaN => true | _ => false end.

(** [x >= c] for an integer constant [c]. *)
Definition geZ (x : number) (c : Z) : bool :=
  match x with
  | NaN => false
  | Inf neg => negb neg
  | Fin m e => let (p, q) := fraction m e in c * q <=? p
  end.

(** [x / c] for a positive integer constant [c]. *)
Definition divZ (x : number) (c : Z) : number :=
  match x with
  | NaN => NaN
  | Inf neg => Inf neg
  | Fin m e => let (p, q) := fraction m e in round_q p (q * c)
  end.

(** [!x] is true for zero and NaN only. *)
Definition truthy (x : number) : bool :=
  match x with
  | NaN => false
  | Inf _ => true
  | Fin m _ => negb (m =? 0)
  end.

(** *** Decimal digits *)

Definition decimalN (n : N) : jsstring :=
  lit (NilEmpty.string_of_uint (N.to_uint n)).

Definition decimalZ (z : Z) : jsstring :=
  match z with
  | Zneg p => hyphen :: decimalN (Npos p)
  | _ => decimalN (Z.to_N z)
  end.

Definition zeros (k : nat) : jsstring := repeat 48%N k.

(** *** Number::toString, radix 10 *)

(** [p / q >= 10^n], for positive [p] and [q]. *)
Definition gePow10 (p q n : Z) : bool :=
  if 0 <=? n then q * 10 ^ n <=? p else q <=? p * 10 ^ (- n).

Fixpoint firstAbove (fuel : nat) (p q n : Z) : Z :=
  match fuel with
  | O => n
  | S fuel' => if gePow10 p q n then firstAbove fuel' p q (n + 1) else n
  end.

(** The integer [n] with [10^(n-1) <= p/q < 10^n]. *)
Definition magnitude10 (p q : Z) : Z :=
  let l := Z.log2 p - Z.log2 q in
  firstAbove 8 p q ((l - 1) * 30103 / 100000 - 2).

(** [s * 10^j] as a Number. *)
Definition scaled (s j : Z) : number :=
  if 0 <=? j then round_q (s * 10 ^ j) 1 else round_q s (10 ^ (- j)).

Definition number_eqb (x y : number) : bool :=
  match x, y with
  | NaN, NaN => true
  | Inf a, Inf b => Bool.eqb a b
  | Fin m e, Fin m' e' => (m =? m') && (e =? e')
  | _, _ => false
  end.

(** The digits [s] of length [k] that denote [x = p/q] at magnitude [n],
    if [k] digits are enough: [s * 10^(n-k)] must round to [x]; of two
    candidates the nearer to [x] is taken, the even one on a tie. *)
Definition digitsAt (x : number) (p q n k : Z) : option Z :=
  let j := n - k in
  let lo := if 0 <=? j then p / (q * 10 ^ j) else (p * 10 ^ (- j)) / q in
  let hi := lo + 1 in
  let okLo := (10 ^ (k - 1) <=? lo) && number_eqb (scaled lo j) x in
  let okHi := number_eqb (scaled hi j) x in
  (* twice the distance from [x] to [lo], against the digit step *)
  let (dl, step) :=
    if 0 <=? j then (2 * (p - lo * q * 10 ^ j), q * 10 ^ j)
    else (2 * (p * 10 ^ (- j) - lo * q), q) in
  match okLo, okHi with
  | true, false => Some lo
  | false, true => Some hi
  | true, true =>
      if dl <? step then Some lo
      else if step <? dl then Some hi
      else if Z.even lo then Some lo else Some hi
  | false, false => None
  end.

Fixpoint shortest (fuel : nat) (x : number) (p q n k : Z) : Z * Z :=
  match fuel with
  | O => (0, k)
  | S fuel' =>
      match digitsAt x p q n k with
      | Some s => (s, k)
      | None => shortest fuel' x p q n (k + 1)
      end
  end.

(** The layout rules of Number::toString for digits [ds] (of length [k])
    and magnitude [n]. *)
Definition layout (ds : jsstring) (n : Z) : jsstring :=
  let k := Z.of_nat (List.length ds) in
  if (k <=? n) && (n <=? 21) then ds ++ zeros (Z.to_nat (n - k))
  else if (0 <? n) && (n <=? 21) then
    firstn (Z.to_nat n) ds ++ lit "." ++ skipn (Z.to_nat n) ds
  else if (-6 <? n) && (n <=? 0) then
    lit "0." ++ zeros (Z.to_nat (- n)) ++ ds
  else
    let ex := (if 0 <? n - 1 then lit "+" else lit "-")
                ++ decimalZ (Z.abs (n - 1)) in
    match ds with
    | [d] => [d] ++ lit "e" ++ ex
    | d :: rest => [d] ++ lit "." ++ rest ++ lit "e" ++ ex
    | [] => []
    end.

Definition toStringPos (m e : Z) : jsstring :=
  let (p, q) := fraction m e in
  let n := magnitude10 p q in
  let (s, k) := shortest 17 (canon m e) p q n 1 in
  if s =? 10 ^ k then layout (lit "1") (n + 1)
  else layout (decimalZ s) n.

Definition toString (x : number) : jsstring :=
  match x with
  | NaN => lit "NaN"
  | Inf neg => if neg then lit "-Infinity" else lit "Infinity"
  | Fin m e =>
      if m =? 0 then lit "0"
      else if m <? 0 then hyphen :: toStringPos (- m) e
      else toStringPos m e
  end.

(** *** Number.prototype.toFixed *)

Definition toFixed (x : number) (f : nat) : jsstring :=
  match x with
  | Fin m e =>
      let (p, q) := fraction (Z.abs m) e in
      if q * 10 ^ 21 <=? p then toString x
      else
        let n := (2 * p * 10 ^ Z.of_nat f + q) / (2 * q) in
        let ds := decimalZ n in
        let ds := zeros (S f - List.length ds) ++ ds in
        let k := List.length ds in
        let body :=
          match f with
          | O => ds
          | _ => firstn (k - f) ds ++ lit "." ++ skipn (k - f) ds
          end in
        if m <? 0 then hyphen :: body else body
  | _ => toString x
  end.

End JSNumber.

(* ================================================================== *)
(** ** Values of untyped fields, and their conversions *)

Module JSValue.
Import JSNumber.
Local Open Scope Z_scope.

(** The values the untyped code can meet: a member of a request body, the
    argument of [Number(...)], the operand of a truthiness test.  What a
    document holds in a typed path is narrower, see [Job.numericBound]. *)
Inductive value :=
| VUndefined
| VNull
| VBool (b : bool)
| VNum (x : number)
| VStr (s : jsstring).

(** ToBoolean. *)
Definition truthy (v : value) : bool :=
  match v with
  | VUndefined | VNull => false
  | VBool b => b
  | VNum x => JSNumber.truthy x
  | VStr s => match s with [] => false | _ => true end
  end.

(** *** StringToNumber *)

Definition digitVal (base : Z) (c : code) : option Z :=
  let z := Z.of_N c in
  let d := if isDigit c then Some (z - 48)
           else if between 97%N 102%N c then Some (z - 87)
           else if between 65%N 70%N c then Some (z - 55)
           else None in
  match d with
  | Some v => if v <? base then Some v else None
  | None => None
  end.

(** The longest prefix of digits, as digit values, and what follows. *)
Fixpoint takeDigits (base : Z) (s : jsstring) : list Z * jsstring :=
  match s with
  | [] => ([], [])
  | c :: s' =>
      match digitVal base c with
      | Some d => let (ds, r) := takeDigits base s' in (d :: ds, r)
      | None => ([], s)
      end
  end.

Definition valueOf (base : Z) (ds : list Z) : Z :=
  fold_left (fun acc d => acc * base + d) ds 0.

Definition negate (x : number) : number :=
  match x with
  | NaN => NaN
  | Inf neg => Inf (negb neg)
  | Fin m e => Fin (- m) e
  end.

Definition signOf (s : jsstring) : bool * jsstring :=
  match s with
  | 43%N :: r => (false, r)
  | 45%N :: r => (true, r)
  | _ => (false, s)
  end.

(** The rest of a literal after [0x], [0o] or [0b] (either case). *)
Definition afterPrefix (lower upper : code) (s : jsstring)
  : option jsstring :=
  match s with
  | 48%N :: c :: r => if (c =? lower)%N || (c =? upper)%N then Some r else None
  | _ => None
  end.

Definition nonDecimal (base : Z) (s : jsstring) : number :=
  match takeDigits base s with
  | ((_ :: _) as ds, []) => ofZ (valueOf base ds)
  | _ => NaN
  end.

(** ExponentPart, or nothing; [None] when the text is neither. *)
Definition exponentPart (s : jsstring) : option Z :=
  match s with
  | [] => Some 0
  | c :: r =>
      if (c =? 101)%N || (c =? 69)%N then
        let (neg, r') := signOf r in
        match takeDigits 10 r' with
        | ((_ :: _) as ds, []) =>
            Some (if neg then - valueOf 10 ds else valueOf 10 ds)
        | _ => None
        end
      else None
  end.

(** StrDecimalLiteral: a sign, then [Infinity] or digits with an optional
    fraction and exponent. *)
Definition decimalLiteral (s : jsstring) : number :=
  let (neg, r) := signOf s in
  if jsstring_eqb r (lit "Infinity") then Inf neg
  else
    let (ip, r1) := takeDigits 10 r in
    let (fp, r2) := match r1 with
                    | 46%N :: r' => takeDigits 10 r'
                    | _ => ([], r1)
                    end in
    match ip ++ fp, exponentPart r2 with
    | (_ :: _) as ds, Some ex =>
        let v := scaled (valueOf 10 ds) (ex - Z.of_nat (List.length fp)) in
        if neg then negate v else v
    | _, _ => NaN
    end.

Definition StringToNumber (s : jsstring) : number :=
  match trim s with
  | [] => zero
  | t =>
      match afterPrefix 120%N 88%N t, afterPrefix 111%N 79%N t,
            afterPrefix 98%N 66%N t with
      | Some r, _, _ => nonDecimal 16 r
      | None, Some r, _ => nonDecimal 8 r
      | None, None, Some r => nonDecimal 2 r
      | None, None, None => decimalLiteral t
      end
  end.

(** [Number(v)]. *)
Definition ToNumber (v : value) : number :=
  match v with
  | VUndefined => NaN
  | VNull => zero
  | VBool b => if b then ofZ 1 else zero
  | VNum x => x
  | VStr s => StringToNumber s
  end.

End JSValue.

(* ================================================================== *)
(** ** Derived fields of a Job Posting (models/job.js) *)

Module Job.
Import JSNumber JSValue.
Local Open Scope Z_scope.

(** The [salary] object as the getter reads it.  The getter is untyped: it
    tests the bounds for truthiness and passes them through [Number(...)],
    so the bounds are values here.  The schema narrows what a document
    holds in them, see [castNumber] and [numericBound] below. *)
Record salaryRec := {
  sal_min : value;
  sal_max : value;
  sal_currency : jsstring;
  sal_period : jsstring
}.

(** [salary.min] and [salary.max] are declared [type: Number]
    (job.js 58-66).  Assigning a value to such a path casts it: [undefined]
    and [null] are kept, the empty string becomes [null], any other string
    and a boolean go through [Number(...)], and a value that is NaN after
    that is refused ([None]). *)
Definition castNumber (v : value) : option value :=
  match v with
  | VUndefined => Some VUndefined
  | VNull => Some VNull
  | VStr [] => Some VNull
  | _ => let x := ToNumber v in
         if isNaN x then None else Some (VNum x)
  end.

(** What the path holds after the assignment: a refused value leaves it
    unset (and the document invalid, so that it is never saved). *)
Definition setBound (v : value) : value :=
  match castNumber v with
  | Some w => w
  | None => VUndefined
  end.

(** The [salary] object of the document built from the given members. *)
Definition document (input : salaryRec) : salaryRec :=
  {| sal_min := setBound (sal_min input);
     sal_max := setBound (sal_max input);
     sal_currency := sal_currency input;
     sal_period := sal_period input |}.



(** The closure [formatSalary] of the [salaryRange] getter; [period] is
    [this.salary.period]. *)
Definition formatSalary (period : jsstring) (amount : value) : jsstring :=
  let numAmount := ToNumber amount in
  if isNaN numAmount then lit "Invalid"
  else if jsstring_eqb period (lit "yearly") then
    if geZ numAmount 100000 then toFixed (divZ numAmount 100000) 1 ++ lit "L"
    else if geZ numAmount 1000 then toFixed (divZ numAmount 1000) 0 ++ lit "K"
    else toString numAmount
  else if jsstring_eqb period (lit "monthly") then
    if geZ numAmount 100000 then toFixed (divZ numAmount 100000) 1 ++ lit "L"
    else if geZ numAmount 1000 then toFixed (divZ numAmount 1000) 0 ++ lit "K"
    else toString numAmount
  else if jsstring_eqb period (lit "hourly") then
    toString numAmount ++ lit "/hr"
  else toString numAmount.

(** The suffix [ ${currency}/${period}] shared by the three forms. *)
Definition unitSuffix (s : salaryRec) : jsstring :=
  lit " " ++ sal_currency s ++ lit "/" ++ sal_period s.

(** [jobSchema.virtual('salaryRange').get]. *)
Definition salaryRange (salary : option salaryRec) : jsstring :=
  match salary with
  | None => lit "Not specified"
  | Some s =>
      let fmt := formatSalary (sal_period s) in
      if negb (truthy (sal_min s)) && negb (truthy (sal_max s))
      then lit "Not specified"
      else if truthy (sal_min s) && truthy (sal_max s) then
        fmt (sal_min s) ++ lit " - " ++ fmt (sal_max s) ++ unitSuffix s
      else if truthy (sal_min s) then
        fmt (sal_min s) ++ lit "+" ++ unitSuffix s
      else if truthy (sal_max s) then
        lit "Up to " ++ fmt (sal_max s) ++ unitSuffix s
      else lit "Not specified"
  end.

(** [jobSchema.virtual('isOpen').get]: [now] is the time value of
    [new Date()], the deadline is the time value of the stored date, in
    milliseconds. *)
Definition isOpen (isActive : bool) (applicationDeadline : option Z)
           (now : Z) : bool :=
  if negb isActive then false
  else
    match applicationDeadline with
    | Some deadline => if deadline <? now then false else true
    | None => true
    end.

End Job.

(* ================================================================== *)
(** ** HTTP responses and handlers that return early *)

(** A field/value pair of a duplicate-key report ([error.keyValue]). *)
Definition keyValue := (jsstring * jsstring)%type.

(** The JSON envelope sent by [res.status(code).json({...})]: the HTTP
    status, the [status] member ([true] for ['success']), the [message]
    and the [keyValue] members when present.  The [data] payload of a
    success is not represented. *)
Record response := {
  res_code : Z;
  res_success : bool;
  res_message : option jsstring;
  res_keyValue : option keyValue
}.

Definition failure (code : Z) (message : string) : response :=
  {| res_code := code; res_success := false;
     res_message := Some (lit message); res_keyValue := None |}.

Definition success (code : Z) (message : option jsstring) : response :=
  {| res_code := code; res_success := true;
     res_message := message; res_keyValue := None |}.

(** A handler either goes on with a value or has answered the request
    ([return res.status(..).json(..)]). *)
Inductive step (A : Type) : Type :=
| Go (a : A)
| Reply (r : response).
Arguments Go {A} a.
Arguments Reply {A} r.

Definition bind {A B : Type} (c : step A) (k : A -> step B) : step B :=
  match c with
  | Go a => k a
  | Reply r => Reply r
  end.

Notation "x <- c ;; k" := (bind c (fun x => k))
  (at level 61, c at next level, right associativity).
Notation "c ;;; k" := (bind c (fun _ => k))
  (at level 61, right associativity).

(** [if (cond) return reply;] *)
Definition replyIf (cond : bool) (reply : response) : step unit :=
  if cond then Reply reply else Go tt.

(** [if (!x) return reply;] for a value that may be absent. *)
Definition orReply {A : Type} (x : option A) (reply : response) : step A :=
  match x with
  | Some a => Go a
  | None => Reply reply
  end.

(* ================================================================== *)
(** ** Creating documents: slug hooks, the unique index, and the routes *)

(** The error object thrown by the store driver or by a hook, as far as
    the [catch] blocks look at it. *)
Record thrown := {
  err_code : option Z;
  err_name : jsstring;
  err_keyValue : option keyValue
}.

(** The driver's report of a unique-index violation (E11000). *)
Definition duplicateKeyError (field v : jsstring) : thrown :=
  {| err_code := Some 11000%Z;
     err_name := lit "MongoServerError";
     err_keyValue := Some (field, v) |}.

Inductive created (A : Type) : Type :=
| Stored (store : A)
| Threw (e : thrown).
Arguments Stored {A} store.
Arguments Threw {A} e.

(** What Mongoose throws when a schema validator fails. *)
Definition validationError : thrown :=
  {| err_code := None;
     err_name := lit "ValidationError";
     err_keyValue := None |}.

(** The schema of [title] in both models: [required], [trim: true] (applied
    when the path is set) and [maxlength: 100]. *)
Definition titleValid (title : jsstring) : bool :=
  match title with
  | [] => false
  | _ => (List.length title <=? 100)%nat
  end.

Definition code_is (e : thrown) (c : Z) : bool :=
  match err_code e with
  | Some c' => Z.eqb c' c
  | None => false
  end.

(** The [catch] block of [router.post('/')] in routes/blog.js. *)
Definition blog_create_catch (error : thrown) : response :=
  if code_is error 11000 || jsstring_eqb (err_name error) (lit "MongoServerError")
  then {| res_code := 409; res_success := false;
          res_message := Some (lit
            "A blog with this title already exists. Please use a unique title.");
          res_keyValue := err_keyValue error |}
  else failure 500 "Server error".

(** The [catch] block of [router.post('/')] in routes/job.js. *)
Definition job_create_catch (error : thrown) : response :=
  if code_is error 11000
  then failure 400 "A job with this title already exists"
  else failure 500 "Failed to create job".

Section Create.

Variable toLowerCase : jsstring -> jsstring.

(** The fields of a Job document that the hook reads and writes. *)
Record jobDoc := {
  job_title : jsstring;
  job_slug : option jsstring;
  job_titleModified : bool
}.

(** The slug of the Job hook: [`${baseSlug}-${Date.now()}`].  [now] is
    the integral time value returned by [Date.now()], printed in
    decimal. *)
Definition job_slug_at (title : jsstring) (now : Z) : jsstring :=
  job_baseSlug toLowerCase title ++ lit "-" ++ JSNumber.decimalZ now.

(** [jobSchema.pre('save', ...)]. *)
Definition job_pre_save (now : Z) (d : jobDoc) : jobDoc :=
  if negb (truthyStr (job_slug d)) || job_titleModified d
  then {| job_title := job_title d;
          job_slug := Some (job_slug_at (job_title d) now);
          job_titleModified := job_titleModified d |}
  else d.

Definition slugTaken (slug : option jsstring) (slugs : list (option jsstring))
  : bool :=
  existsb (fun s' =>
             match slug, s' with
             | Some a, Some b => jsstring_eqb a b
             | None, None => true
             | _, _ => false
             end) slugs.

(** [Job.create(jobData)] for a request body with the given title and
    otherwise valid fields, run at time [now]: the title is trimmed and
    validated, a new document has every supplied path modified, the save
    hook runs, and the insert is refused by the unique index on [slug]
    when the slug is already there. *)
Definition job_create (store : list jobDoc) (title : jsstring) (now : Z)
  : created (list jobDoc) :=
  let title := trim title in
  if negb (titleValid title) then Threw validationError
  else
    let d := job_pre_save now
               {| job_title := title; job_slug := None;
                  job_titleModified := true |} in
    if slugTaken (job_slug d) (map job_slug store)
    then Threw (duplicateKeyError (lit "slug")
                  (match job_slug d with Some s => s | None => [] end))
    else Stored (store ++ [d]).

(** [router.post('/')] of routes/job.js after validation: the [try]
    block and its [catch]. *)
Definition post_job (store : list jobDoc) (title : jsstring) (now : Z)
  : response * list jobDoc :=
  match job_create store title now with
  | Stored store' => (success 201 None, store')
  | Threw e => (job_create_catch e, store)
  end.

(** [Blog.create(blogData)] for a request body with the given title and
    otherwise valid fields: the validate hook derives the slug, the
    validators check the title and the required slug, and the unique
    index on [slug] refuses a second document with the same one. *)
Definition blog_create (store : list blogDoc) (title : jsstring)
  : created (list blogDoc) :=
  let d := blog_pre_validate toLowerCase
             {| blog_title := Some (trim title); blog_slug := None;
                blog_titleModified := true |} in
  if negb (titleValid (trim title)) || negb (truthyStr (blog_slug d))
  then Threw validationError
  else if slugTaken (blog_slug d) (map blog_slug store)
  then Threw (duplicateKeyError (lit "slug")
                (match blog_slug d with Some s => s | None => [] end))
  else Stored (store ++ [d]).

(** [router.post('/')] of routes/blog.js after validation. *)
Definition post_blog (store : list blogDoc) (title : jsstring)
  : response * list blogDoc :=
  match blog_create store title with
  | Stored store' => (success 201 None, store')
  | Threw e => (blog_create_catch e, store)
  end.

End Create.

(* ================================================================== *)
(** ** Identity resolution (middleware/auth.js) *)

Definition ObjectId := N.

(** A resolved identity: what the routes read from [req.user]. *)
Record user := {
  user_id : ObjectId;
  user_role : jsstring
}.

Fixpoint startsWith (prefix s : jsstring) : bool :=
  match prefix, s with
  | [], _ => true
  | p :: prefix', c :: s' => N.eqb p c && startsWith prefix' s'
  | _ :: _, [] => false
  end.

(** The text up to the first space, and what follows that space if there
    is one. *)
Fixpoint cutAtSpace (s : jsstring) : jsstring * option jsstring :=
  match s with
  | [] => ([], None)
  | c :: s' =>
      if N.eqb c 32 then ([], Some s')
      else let (w, rest) := cutAtSpace s' in (c :: w, rest)
  end.

(** [s.split(' ')[1]]: [undefined] when [s] has no space. *)
Definition secondField (s : jsstring) : option jsstring :=
  match snd (cutAtSpace s) with
  | Some rest => Some (fst (cutAtSpace rest))
  | None => None
  end.

(** The token that both middlewares read from the [Authorization] header,
    when it is there and truthy. *)
Definition bearerToken (authorization : option jsstring) : option jsstring :=
  match authorization with
  | Some h =>
      if startsWith (lit "Bearer") h then
        match secondField h with
        | Some ((_ :: _) as t) => Some t
        | _ => None
        end
      else None
  | None => None
  end.

(** What a middleware does with the request: answer it, or call [next()]
    with [req.user] resolved or not. *)
Inductive passage :=
| Answered (r : response)
| Next (req_user : option user).

Section Auth.

(** The payload of a verified token. *)
Variable payload : Type.

(** [jwt.verify(token, secret)]: [None] when it throws (bad signature,
    expired, malformed). *)
Variable jwt_verify : jsstring -> option payload.

(** [User.findById(decoded.id)]: the outer [None] is a rejected promise,
    the inner one the [null] of a user that does not exist. *)
Variable findById : payload -> option (option user).

Definition unauthorized : response :=
  failure 401 "Not authorized to access this route".

(** [exports.protect]. *)
Definition protect (authorization : option jsstring) : passage :=
  match bearerToken authorization with
  | None => Answered unauthorized
  | Some token =>
      match jwt_verify token with
      | None => Answered unauthorized
      | Some decoded =>
          match findById decoded with
          | None => Answered unauthorized
          | Some found => Next found
          end
      end
  end.

(** [exports.optionalAuth]. *)
Definition optionalAuth (authorization : option jsstring) : passage :=
  match bearerToken authorization with
  | None => Next None
  | Some token =>
      match jwt_verify token with
      | None => Next None
      | Some decoded =>
          match findById decoded with
          | None => Next None
          | Some found => Next found
          end
      end
  end.

(** [exports.authorize(...roles)]. *)
Definition authorize (roles : list jsstring) (req_user : option user)
  : passage :=
  match req_user with
  | None => Answered (failure 403 "User not found")
  | Some u =>
      if existsb (jsstring_eqb (user_role u)) roles then Next req_user
      else Answered
             {| res_code := 403; res_success := false;
                res_message :=
                  Some (lit "User role " ++ user_role u
                          ++ lit " is not authorized to access this route");
                res_keyValue := None |}
  end.

End Auth.
Arguments protect {payload} jwt_verify findById authorization.
Arguments optionalAuth {payload} jwt_verify findById authorization.

(* ================================================================== *)
(** ** Deleting a comment (routes/blog.js) *)

Record commentDoc := {
  comment_id : ObjectId;
  comment_user : option ObjectId;
  comment_text : jsstring
}.

Record blogPost := {
  post_id : ObjectId;
  post_author : option ObjectId;
  post_comments : list commentDoc
}.

Definition hasComment (c : ObjectId) (b : blogPost) : bool :=
  existsb (fun cm => N.eqb (comment_id cm) c) (post_comments b).

(** [Blog.findOne({ _id, 'comments._id': c }, { 'comments.$': 1, author: 1 })]:
    the first post with that id holding such a comment, its [comments]
    projected to the first comment that matches. *)
Definition findBlogWithComment (store : list blogPost) (b c : ObjectId)
  : option blogPost :=
  match find (fun p => N.eqb (post_id p) b && hasComment c p) store with
  | Some p =>
      Some {| post_id := post_id p;
              post_author := post_author p;
              post_comments :=
                match find (fun cm => N.eqb (comment_id cm) c)
                           (post_comments p) with
                | Some cm => [cm]
                | None => []
                end |}
  | None => None
  end.

(** [Blog.updateOne({ _id: b }, { $pull: { comments: { _id: c } } })]: the
    first post with that id loses every comment with that id. *)
Fixpoint pullComment (store : list blogPost) (b c : ObjectId)
  : list blogPost :=
  match store with
  | [] => []
  | p :: rest =>
      if N.eqb (post_id p) b then
        {| post_id := post_id p;
           post_author := post_author p;
           post_comments :=
             filter (fun cm => negb (N.eqb (comment_id cm) c))
                    (post_comments p) |} :: rest
      else p :: pullComment rest b c
  end.

Definition sameId (a : option ObjectId) (b : ObjectId) : bool :=
  match a with
  | Some a' => N.eqb a' b
  | None => false
  end.

Section DeleteComment.

(** [mongoose.Types.ObjectId.isValid(s)] and [new ObjectId(s)] together:
    the identifier that a well-formed string denotes. *)
Variable parseObjectId : jsstring -> option ObjectId.

(** The three checks of the handler, for a resolved caller. *)
Definition isOwner (cm : commentDoc) (u : user) : bool :=
  sameId (comment_user cm) (user_id u).
Definition isAdmin (u : user) : bool :=
  jsstring_eqb (user_role u) (lit "admin").
Definition isBlogAuthor (p : blogPost) (u : user) : bool :=
  sameId (post_author p) (user_id u).

(** The handler of [router.delete('/:id/comment/:commentId')], run after
    [protect] has called [next()].  The result is the response and the
    store after the request.  With [req.user] null the handler throws on
    [req.user.id] and its [catch] answers 500. *)
Definition deleteCommentHandler (req_user : option user)
           (id commentId : jsstring) (store : list blogPost)
  : response * list blogPost :=
  let outcome : step (list blogPost) :=
    ids <- orReply
             (match parseObjectId id, parseObjectId commentId with
              | Some b, Some c => Some (b, c)
              | _, _ => None
              end)
             (failure 400 "Invalid blog or comment id") ;;
    let (blogObjectId, commentObjectId) := (ids : ObjectId * ObjectId) in
    blogWithComment <- orReply
             (findBlogWithComment store blogObjectId commentObjectId)
             (failure 404 "Blog or comment not found") ;;
    comment <- orReply (hd_error (post_comments blogWithComment))
             (failure 404 "Comment not found") ;;
    u <- orReply req_user (failure 500 "Server error") ;;
    replyIf (negb (isOwner comment u) && negb (isAdmin u)
             && negb (isBlogAuthor blogWithComment u))
            (failure 403 "Not authorized to delete this comment") ;;;
    Go (pullComment store blogObjectId commentObjectId)
  in
  match outcome with
  | Go store' => (success 200 None, store')
  | Reply r => (r, store)
  end.

Section Route.
Variable payload : Type.
Variable jwt_verify : jsstring -> option payload.
Variable findById : payload -> option (option user).

(** The route: [protect], then the handler. *)
Definition deleteCommentRoute (authorization : option jsstring)
           (id commentId : jsstring) (store : list blogPost)
  : response * list blogPost :=
  match protect jwt_verify findById authorization with
  | Answered r => (r, store)
  | Next req_user => deleteCommentHandler req_user id commentId store
  end.
End Route.

End DeleteComment.

(* ================================================================== *)
(** ** Deleting an uploaded file by name (routes/media.js) *)

(** [hay.includes(needle)]. *)
Fixpoint includes (needle hay : jsstring) : bool :=
  startsWith needle hay ||
  match hay with
  | [] => false
  | _ :: hay' => includes needle hay'
  end.

(** The class [[A-Za-z0-9_.\- ]]. *)
Definition safeChar (c : code) : bool :=
  isUpper c || isLower c || isDigit c
  || N.eqb c 95 || N.eqb c 46 || N.eqb c 45 || N.eqb c 32.

(** [/^[A-Za-z0-9_.\- ]+$/.test(raw)]. *)
Definition safeName (raw : jsstring) : bool :=
  match raw with
  | [] => false
  | _ => forallb safeChar raw
  end.

Inductive unlinked :=
| Removed
| ENOENT
| Failed.

Section Media.

(** [path.basename]. *)
Variable basename : jsstring -> jsstring.

(** [fs.promises.unlink(path.join(UPLOADS_DIR, filename))], by file
    name. *)
Variable unlink : jsstring -> unlinked.

(** The handler of [router.delete('/:filename')].  The second component
    lists the names handed to the file system. *)
Definition deleteMediaHandler (raw : jsstring) : response * list jsstring :=
  if includes (lit "/") raw || includes (lit "\") raw
     || includes (lit "..") raw
  then (failure 400 "Invalid filename", [])
  else if negb (safeName raw)
  then (failure 400 "Invalid filename", [])
  else
    let filename := basename raw in
    match unlink filename with
    | Removed => (success 200 (Some (lit "File deleted")), [filename])
    | ENOENT => (failure 404 "File not found", [filename])
    | Failed => (failure 500 "Failed to delete media", [filename])
    end.

Section Route.
Variable payload : Type.
Variable jwt_verify : jsstring -> option payload.
Variable findById : payload -> option (option user).

(** The route: [protect], [authorize('admin')], then the handler. *)
Definition deleteMediaRoute (authorization : option jsstring)
           (raw : jsstring) : response * list jsstring :=
  match protect jwt_verify findById authorization with
  | Answered r => (r, [])
  | Next req_user =>
      match authorize [lit "admin"] req_user with
      | Answered r => (r, [])
      | Next _ => deleteMediaHandler raw
      end
  end.
End Route.

End Media.

(* ================================================================== *)
(** ** Request-body clean-up of the Job routes (routes/job.js) *)

(** [s.split(sep)] for a one-unit separator: the pieces between the
    separators, at least one piece, possibly empty ones. *)
Fixpoint splitOn (sep : code) (s : jsstring) : list jsstring :=
  match s with
  | [] => [[]]
  | c :: s' =>
      if N.eqb c sep then [] :: splitOn sep s'
      else
        match splitOn sep s' with
        | w :: ws => (c :: w) :: ws
        | [] => [[c]]
        end
  end.

Definition nonEmpty (s : jsstring) : bool :=
  match s with
  | [] => false
  | _ => true
  end.

(** [value.split(',').map(r => r.trim()).filter(Boolean)], the conversion
    applied to [requirements], [responsibilities], [benefits] and [tags]
    when they arrive as one string. *)
Definition commaList (s : jsstring) : list jsstring :=
  filter nonEmpty (map trim (splitOn 44%N s)).

(** [list.join(',')]: how a client packs a list into one field. *)
Fixpoint joinComma (l : list jsstring) : jsstring :=
  match l with
  | [] => []
  | [a] => a
  | a :: rest => a ++ 44%N :: joinComma rest
  end.

(** The [salary] member of a request body: an object whose [min] and [max]
    may be missing ([None]). *)
Record salaryBody := {
  body_min : option JSValue.value;
  body_max : option JSValue.value;
  body_currency : option jsstring;
  body_period : option jsstring
}.

(** [x === ''] for a member that may be missing. *)
Definition isEmptyStr (v : option JSValue.value) : bool :=
  match v with
  | Some (JSValue.VStr []) => true
  | _ => false
  end.

(** The three statements under [// Handle salary fields]:
    [if (salary && salary.min === '') delete salary.min;]
    [if (salary && salary.max === '') delete salary.max;]
    [if (salary && salary.min === '' && salary.max === '') delete jobData.salary;] *)
Definition handleSalaryFields (salary : option salaryBody)
  : option salaryBody :=
  let s1 := match salary with
            | Some s => if isEmptyStr (body_min s)
                        then Some {| body_min := None; body_max := body_max s;
                                     body_currency := body_currency s;
                                     body_period := body_period s |}
                        else salary
            | None => None
            end in
  let s2 := match s1 with
            | Some s => if isEmptyStr (body_max s)
                        then Some {| body_min := body_min s; body_max := None;
                                     body_currency := body_currency s;
                                     body_period := body_period s |}
                        else s1
            | None => None
            end in
  match s2 with
  | Some s => if isEmptyStr (body_min s) && isEmptyStr (body_max s)
              then None else s2
  | None => None
  end.

(* ================================================================== *)
(** ** Job status and statistics (routes/job.js) *)

(** A stored Job Posting, with the fields that the admin routes use. *)
Record jobEntry := {
  entry_id : ObjectId;
  entry_doc : jobDoc;
  entry_isActive : bool;
  entry_views : N;
  entry_applications : N
}.

Section JobAdmin.

Variable toLowerCase : jsstring -> jsstring.

(** [Job.findById(id)] on a cast identifier. *)
Definition findJob (store : list jobEntry) (b : ObjectId) : option jobEntry :=
  find (fun j => N.eqb (entry_id j) b) store.

(** [job.isActive = !job.isActive; await job.save();]: a document loaded
    from the store has no modified path; [save] runs the slug hook at
    time [now]. *)
Definition toggled (now : Z) (j : jobEntry) : jobEntry :=
  {| entry_id := entry_id j;
     entry_doc := job_pre_save toLowerCase now
                    {| job_title := job_title (entry_doc j);
                       job_slug := job_slug (entry_doc j);
                       job_titleModified := false |};
     entry_isActive := negb (entry_isActive j);
     entry_views := entry_views j;
     entry_applications := entry_applications j |}.

Fixpoint replaceJob (store : list jobEntry) (b : ObjectId) (j' : jobEntry)
  : list jobEntry :=
  match store with
  | [] => []
  | j :: rest =>
      if N.eqb (entry_id j) b then j' :: rest
      else j :: replaceJob rest b j'
  end.

Variable parseObjectId : jsstring -> option ObjectId.

(** The handler of [router.put('/:id/toggle-status')]: an identifier that
    does not cast makes [findById] throw, which the [catch] answers 500. *)
Definition toggleStatusHandler (now : Z) (id : jsstring)
           (store : list jobEntry) : response * list jobEntry :=
  match parseObjectId id with
  | None => (failure 500 "Failed to toggle job status", store)
  | Some b =>
      match findJob store b with
      | None => (failure 404 "Job not found", store)
      | Some j => (success 200 None, replaceJob store b (toggled now j))
      end
  end.

End JobAdmin.

(** The [overview] member of [GET /admin/stats]: the single group of the
    first aggregation, or the zero record when there is no job. *)
Record overview := {
  totalJobs : N;
  activeJobs : N;
  inactiveJobs : N;
  totalViews : N;
  totalApplications : N
}.

Definition sumN (l : list N) : N := fold_right N.add 0%N l.

Definition statsOverview (store : list jobEntry) : overview :=
  match store with
  | [] => {| totalJobs := 0; activeJobs := 0; inactiveJobs := 0;
             totalViews := 0; totalApplications := 0 |}
  | _ =>
      {| totalJobs := sumN (map (fun _ => 1%N) store);
         activeJobs :=
           sumN (map (fun j => if entry_isActive j then 1%N else 0%N) store);
         inactiveJobs :=
           sumN (map (fun j => if entry_isActive j then 0%N else 1%N) store);
         totalViews := sumN (map entry_views store);
         totalApplications := sumN (map entry_applications store) |}
  end.

(* ================================================================== *)
(** ** Likes and new comments (routes/blog.js) *)

(** [likes.indexOf(id)]: [None] stands for -1. *)
Fixpoint indexOf (x : ObjectId) (l : list ObjectId) : option nat :=
  match l with
  | [] => None
  | y :: l' =>
      if N.eqb y x then Some O
      else match indexOf x l' with
           | Some i => Some (S i)
           | None => None
           end
  end.

(** [likes.splice(i, 1)]. *)
Fixpoint removeAt (i : nat) (l : list ObjectId) : list ObjectId :=
  match l, i with
  | [], _ => []
  | _ :: l', O => l'
  | y :: l', S i' => y :: removeAt i' l'
  end.

(** The body of the like route on the [likes] array of the post: the new
    array and the reported [isLiked]. *)
Definition toggleLike (likes : list ObjectId) (uid : ObjectId)
  : list ObjectId * bool :=
  match indexOf uid likes with
  | Some likeIndex => (removeAt likeIndex likes, false)
  | None => (likes ++ [uid], true)
  end.

Record likedPost := {
  liked_id : ObjectId;
  liked_likes : list ObjectId
}.

(** What the like route sends: an error envelope, or the [data] of a
    success. *)
Inductive likeAnswer :=
| LikeError (r : response)
| LikeData (likes : list ObjectId) (likeCount : nat) (isLiked : bool).

Fixpoint setLikes (store : list likedPost) (b : ObjectId)
         (likes : list ObjectId) : list likedPost :=
  match store with
  | [] => []
  | p :: rest =>
      if N.eqb (liked_id p) b
      then {| liked_id := liked_id p; liked_likes := likes |} :: rest
      else p :: setLikes rest b likes
  end.

(** [blog.comments.push({ user, comment }); await blog.save()] on the first
    post with identifier [b]. *)
Fixpoint pushComment (store : list blogPost) (b : ObjectId) (cm : commentDoc)
  : list blogPost :=
  match store with
  | [] => []
  | p :: rest =>
      if N.eqb (post_id p) b then
        {| post_id := post_id p;
           post_author := post_author p;
           post_comments := post_comments p ++ [cm] |} :: rest
      else p :: pushComment rest b cm
  end.

Section BlogInteractions.

Variable parseObjectId : jsstring -> option ObjectId.

(** The handler of [router.post('/:id/like')], after [protect]. *)
Definition toggleLikeHandler (req_user : option user) (id : jsstring)
           (store : list likedPost) : likeAnswer * list likedPost :=
  match parseObjectId id with
  | None => (LikeError (failure 500 "Server error"), store)
  | Some b =>
      match find (fun p => N.eqb (liked_id p) b) store with
      | None => (LikeError (failure 404 "Blog not found"), store)
      | Some blog =>
          match req_user with
          | None => (LikeError (failure 500 "Server error"), store)
          | Some u =>
              let (likes, isLiked) :=
                toggleLike (liked_likes blog) (user_id u) in
              (LikeData likes (List.length likes) isLiked,
               setLikes store b likes)
          end
      end
  end.

(** The handler of [router.post('/:id/comment')], after [protect] and for
    a comment text that has passed validation.  [newId] is the identifier
    that the store gives to the new comment. *)
Definition addCommentHandler (newId : ObjectId) (req_user : option user)
           (id : jsstring) (text : jsstring) (store : list blogPost)
  : response * list blogPost :=
  match parseObjectId id with
  | None => (failure 500 "Server error", store)
  | Some b =>
      match find (fun p => N.eqb (post_id p) b) store with
      | None => (failure 404 "Blog not found", store)
      | Some _ =>
          match req_user with
          | None => (failure 500 "Server error", store)
          | Some u =>
              (success 200 None,
               pushComment store b
                 {| comment_id := newId;
                    comment_user := Some (user_id u);
                    comment_text := text |})
          end
      end
  end.

End BlogInteractions.

(* ================================================================== *)
(** ** Upload intake (middleware/upload.js) *)

(** An error handed to [handleUploadError]: whether it is a
    [multer.MulterError], its [code] and its [message]. *)
Record uploadError := {
  upload_isMulter : bool;
  upload_code : jsstring;
  upload_message : jsstring
}.

Definition notAnImage : jsstring :=
  lit "Not an image! Please upload an image.".

(** [fileFilter]: [None] accepts the file ([cb(null, true)]), otherwise the
    error passed to the callback. *)
Definition fileFilter (mimetype : jsstring) : option uploadError :=
  if startsWith (lit "image/") mimetype then None
  else Some {| upload_isMulter := false; upload_code := [];
               upload_message := notAnImage |}.

(** [exports.handleUploadError]: an answer, or [next(err)]. *)
Definition handleUploadError (err : uploadError) : step uploadError :=
  if upload_isMulter err
     && jsstring_eqb (upload_code err) (lit "LIMIT_FILE_SIZE")
  then Reply (failure 400 "File too large. Maximum size is 5MB.")
  else if upload_isMulter err
          && jsstring_eqb (upload_code err) (lit "LIMIT_FILE_COUNT")
  then Reply (failure 400 "Too many files. Maximum is 5 files.")
  else if jsstring_eqb (upload_message err) notAnImage
  then Reply {| res_code := 400; res_success := false;
                res_message := Some (upload_message err);
                res_keyValue := None |}
  else Go err.

(** The [filename] callback of the disk storage:
    [fieldname + '-' + Date.now() + '-' + Math.round(Math.random() * 1E9)
     + path.extname(originalname)].  [rnd] is the rounded random integer
    and [ext] the extension that [path.extname] returns. *)
Definition uploadFilename (fieldname : jsstring) (now rnd : Z)
           (ext : jsstring) : jsstring :=
  fieldname ++ lit "-"
    ++ (JSNumber.decimalZ now ++ lit "-" ++ JSNumber.decimalZ rnd) ++ ext.

(* ================================================================== *)
(** ** Asset mappings (models/Asset.js and routes/assets.js) *)

Record asset := {
  asset_key : jsstring;
  asset_url : jsstring;
  asset_alt : jsstring
}.

(** The first mapping with the key; the schema setter [trim] applies to
    the key of a filter and of an update alike. *)
Definition findAsset (store : list asset) (key : jsstring) : option asset :=
  find (fun a => jsstring_eqb (asset_key a) (trim key)) store.

(** [Asset.findOneAndUpdate({ key }, { key, url, alt }, { upsert: true })]. *)
Fixpoint upsertAsset (store : list asset) (a : asset) : list asset :=
  match store with
  | [] => [a]
  | x :: rest =>
      if jsstring_eqb (asset_key x) (asset_key a) then a :: rest
      else x :: upsertAsset rest a
  end.

(** [Asset.deleteOne({ key })]. *)
Fixpoint deleteAsset (store : list asset) (key : jsstring) : list asset :=
  match store with
  | [] => []
  | x :: rest =>
      if jsstring_eqb (asset_key x) key then rest
      else x :: deleteAsset rest key
  end.

(** What an asset route sends: an error or message envelope, or a mapping
    as [data]. *)
Inductive assetAnswer :=
| AssetMessage (r : response)
| AssetData (a : asset).

(** [router.get('/:key')]. *)
Definition getAssetHandler (key : jsstring) (store : list asset)
  : assetAnswer :=
  match findAsset store key with
  | Some a => AssetData a
  | None => AssetMessage (failure 404 "Asset not found")
  end.

(** The handler of [router.put('/:key')], after [protect] and
    [authorize('admin')]: [url] and [alt] are the members of the body,
    [None] when missing. *)
Definition putAssetHandler (key : jsstring) (url alt : option jsstring)
           (store : list asset) : assetAnswer * list asset :=
  match url with
  | Some ((_ :: _) as u) =>
      let a := {| asset_key := trim key; asset_url := u;
                  asset_alt := match alt with Some t => t | None => [] end |} in
      (AssetData a, upsertAsset store a)
  | _ => (AssetMessage (failure 400 "url is required"), store)
  end.

(** The handler of [router.delete('/:key')], after [protect] and
    [authorize('admin')]. *)
Definition deleteAssetHandler (key : jsstring) (store : list asset)
  : assetAnswer * list asset :=
  (AssetMessage (success 200 (Some (lit "Asset mapping deleted"))),
   deleteAsset store (trim key)).

(* ================================================================== *)
(** ** Public lookup of a Job Posting, and the media listing *)

(** [Job.findOne({ slug, isActive: true })]. *)
Definition findActiveBySlug (store : list jobEntry) (slug : jsstring)
  : option jobEntry :=
  find (fun j =>
          match job_slug (entry_doc j) with
          | Some s => jsstring_eqb s slug
          | None => false
          end && entry_isActive j) store.

(** [Job.findByIdAndUpdate(id, { $inc: { views: 1 } })]. *)
Fixpoint incViews (store : list jobEntry) (b : ObjectId) : list jobEntry :=
  match store with
  | [] => []
  | j :: rest =>
      if N.eqb (entry_id j) b then
        {| entry_id := entry_id j; entry_doc := entry_doc j;
           entry_isActive := entry_isActive j;
           entry_views := entry_views j + 1;
           entry_applications := entry_applications j |} :: rest
      else j :: incViews rest b
  end.

(** What [GET /api/job/:slug] sends: an error envelope, or the posting as
    it was read. *)
Inductive jobAnswer :=
| JobMessage (r : response)
| JobData (job : jobEntry).

(** The handler of [router.get('/:slug')] of routes/job.js. *)
Definition getJobHandler (slug : jsstring) (store : list jobEntry)
  : jobAnswer * list jobEntry :=
  match findActiveBySlug store slug with
  | None => (JobMessage (failure 404 "Job not found"), store)
  | Some job => (JobData job, incViews store (entry_id job))
  end.

(** [s.endsWith(suffix)]. *)
Definition endsWith (suffix s : jsstring) : bool :=
  startsWith (rev suffix) (rev s).

(** [/\.(png|jpe?g|gif|webp|svg)$/i.test(f)], the filter of the media
    listing: without the [u] flag, [i] folds only ASCII letters onto ASCII
    letters. *)
Definition isListedImage (f : jsstring) : bool :=
  existsb (fun ext => endsWith (lit ext) (map asciiLower f))
          [".png"; ".jpg"; ".jpeg"; ".gif"; ".webp"; ".svg"]%string.

(* ================================================================== *)
(** * Properties *)

(** ** Character classes *)

Ltac bool_to_prop :=
  repeat (rewrite ?orb_true_iff, ?andb_true_iff, ?N.leb_le, ?N.eqb_eq,
            ?N.ltb_lt in * ).

Ltac char_facts :=
  unfold keepChar, slugChar, safeChar, isLower, isUpper, isDigit, isHyphen,
    isWhiteSpace, isAscii, asciiLower, between, hyphen in *;
  bool_to_prop.

Lemma isHyphen_true c : isHyphen c = true <-> c = hyphen.
Proof. unfold isHyphen. apply N.eqb_eq. Qed.

Lemma isHyphen_false c : isHyphen c = false <-> c <> hyphen.
Proof. unfold isHyphen. apply N.eqb_neq. Qed.

Lemma slugChar_keep c : slugChar c = true -> keepChar c = true.
Proof. char_facts. intuition. Qed.

Lemma slugChar_not_space c : slugChar c = true -> isWhiteSpace c = false.
Proof.
  intros H. apply not_true_is_false. intros W. char_facts. lia.
Qed.

Lemma keep_not_space_slugChar c :
  keepChar c = true -> isWhiteSpace c = false -> slugChar c = true.
Proof.
  intros K W. unfold keepChar in K. unfold slugChar.
  rewrite W in K. rewrite orb_false_r in K. exact K.
Qed.

Lemma slugChar_hyphen : slugChar hyphen = true.
Proof. reflexivity. Qed.

Lemma slugChar_lower_fixed c : slugChar c = true -> asciiLower c = c.
Proof.
  intros H. unfold asciiLower.
  assert (U : isUpper c = false).
  { apply not_true_is_false. intros U. char_facts. lia. }
  now rewrite U.
Qed.

Lemma slugChar_ascii c : slugChar c = true -> isAscii c = true.
Proof. char_facts. lia. Qed.

(** ** Hyphen runs *)

Lemma noDoubleHyphen_tail a s : noDoubleHyphen (a :: s) -> noDoubleHyphen s.
Proof. destruct s; simpl; tauto. Qed.

Lemma noDoubleHyphen_app_r l s : noDoubleHyphen (l ++ s) -> noDoubleHyphen s.
Proof.
  induction l as [|a l IH]; simpl; auto.
  intros H. apply IH. exact (noDoubleHyphen_tail a (l ++ s) H).
Qed.

Lemma noDoubleHyphen_app_l s r : noDoubleHyphen (s ++ r) -> noDoubleHyphen s.
Proof.
  induction s as [|a s IH]; intros H; [exact I|].
  destruct s as [|b s]; [exact I|].
  destruct H as [Hab H]. split; [exact Hab|]. apply IH. exact H.
Qed.

Lemma not_starts_cons c s : c <> hyphen -> ~ startsWithHyphen (c :: s).
Proof. intros Hc [t E]. congruence. Qed.

Lemma not_starts_nil : ~ startsWithHyphen [].
Proof. intros [t E]. discriminate. Qed.

Lemma not_ends_nil : ~ endsWithHyphen [].
Proof. intros [t E]. destruct t; discriminate. Qed.

Lemma not_ends_tail c s : ~ endsWithHyphen (c :: s) -> ~ endsWithHyphen s.
Proof. intros H [t E]. apply H. exists (c :: t). now rewrite E. Qed.

(** ** The replacements, one by one *)

Lemma stripOthers_chars s : Forall (fun c => keepChar c = true) (stripOthers s).
Proof.
  unfold stripOthers. apply Forall_forall. intros c Hc.
  apply filter_In in Hc. tauto.
Qed.

Lemma collapse_space_chars s : forall inrun,
  Forall (fun c => keepChar c = true) s ->
  Forall (fun c => slugChar c = true) (collapseFrom isWhiteSpace hyphen inrun s).
Proof.
  induction s as [|c s IH]; intros inrun H; simpl; auto.
  inversion_clear H as [|? ? Hc Hs].
  destruct (isWhiteSpace c) eqn:W.
  - destruct inrun; auto using slugChar_hyphen.
  - auto using keep_not_space_slugChar.
Qed.

Lemma collapse_hyphen_chars s : forall inrun,
  Forall (fun c => slugChar c = true) s ->
  Forall (fun c => slugChar c = true) (collapseFrom isHyphen hyphen inrun s).
Proof.
  induction s as [|c s IH]; intros inrun H; simpl; auto.
  inversion_clear H as [|? ? Hc Hs].
  destruct (isHyphen c); [destruct inrun|]; auto using slugChar_hyphen.
Qed.

Lemma collapse_hyphen_single s : forall inrun,
  noDoubleHyphen (collapseFrom isHyphen hyphen inrun s)
  /\ (inrun = true ->
      ~ startsWithHyphen (collapseFrom isHyphen hyphen inrun s)).
Proof.
  induction s as [|c s IH]; intros inrun; simpl.
  - split; auto using not_starts_nil.
  - destruct (isHyphen c) eqn:Hc.
    + destruct inrun.
      * apply IH.
      * split; [|discriminate].
        destruct (IH true) as [Hn Hs].
        destruct (collapseFrom isHyphen hyphen true s) as [|b t] eqn:E;
          simpl; auto.
        split; auto. intros [_ Hb]. apply Hs; auto. exists t. now rewrite Hb.
    + apply isHyphen_false in Hc. split.
      * destruct (IH false) as [Hn _].
        destruct (collapseFrom isHyphen hyphen false s); simpl; auto.
        split; auto. tauto.
      * intros _. now apply not_starts_cons.
Qed.

Lemma dropWhile_suffix p s : exists l, s = l ++ dropWhile p s.
Proof.
  induction s as [|c s [l IH]]; simpl.
  - now exists [].
  - destruct (p c).
    + exists (c :: l). simpl. now rewrite <- IH.
    + now exists [].
Qed.

Lemma dropWhileEnd_prefix p s : exists r, s = dropWhileEnd p s ++ r.
Proof.
  induction s as [|c s [r IH]]; simpl.
  - now exists [].
  - destruct (dropWhileEnd p s) as [|x t] eqn:E.
    + destruct (p c).
      * now exists (c :: s).
      * exists s. reflexivity.
    + exists r. simpl in *. congruence.
Qed.

Lemma dropWhile_not_starts s : ~ startsWithHyphen (dropWhile isHyphen s).
Proof.
  induction s as [|c s IH]; simpl.
  - apply not_starts_nil.
  - destruct (isHyphen c) eqn:Hc; auto.
    apply not_starts_cons. now apply isHyphen_false.
Qed.

Lemma dropWhileEnd_not_ends s : ~ endsWithHyphen (dropWhileEnd isHyphen s).
Proof.
  induction s as [|c s IH]; simpl.
  - apply not_ends_nil.
  - destruct (dropWhileEnd isHyphen s) as [|x t] eqn:E.
    + destruct (isHyphen c) eqn:Hc.
      * apply not_ends_nil.
      * intros [u Eu]. apply isHyphen_false in Hc.
        destruct u as [|? [|? ?]]; simpl in Eu; try discriminate.
        congruence.
    + intros [u Eu]. apply IH.
      destruct u as [|y u]; simpl in Eu.
      * discriminate.
      * exists u. congruence.
Qed.

Lemma dropWhileEnd_keeps_head p s :
  ~ startsWithHyphen s -> ~ startsWithHyphen (dropWhileEnd p s).
Proof.
  intros H [t E]. apply H.
  destruct (dropWhileEnd_prefix p s) as [r Er].
  rewrite E in Er. exists (t ++ r). exact Er.
Qed.

Lemma trimHyphens_shape s :
  Forall (fun c => slugChar c = true) s -> noDoubleHyphen s ->
  slug_shape (trimHyphens s).
Proof.
  intros Hc Hn. unfold trimHyphens.
  destruct (dropWhile_suffix isHyphen s) as [l El].
  destruct (dropWhileEnd_prefix isHyphen (dropWhile isHyphen s)) as [r Er].
  rewrite El in Hc, Hn. apply Forall_app in Hc as [_ Hc].
  apply noDoubleHyphen_app_r in Hn.
  rewrite Er in Hc, Hn. apply Forall_app in Hc as [Hc _].
  apply noDoubleHyphen_app_l in Hn.
  constructor; auto.
  - apply dropWhileEnd_keeps_head, dropWhile_not_starts.
  - apply dropWhileEnd_not_ends.
Qed.

Lemma normalize_shape toLowerCase title :
  slug_shape (normalize toLowerCase title).
Proof.
  unfold normalize, collapseRuns. apply trimHyphens_shape.
  - apply collapse_hyphen_chars, collapse_space_chars, stripOthers_chars.
  - apply collapse_hyphen_single.
Qed.

Lemma slug_shape_job : slug_shape (lit "job").
Proof.
  constructor.
  - repeat constructor.
  - simpl. repeat split; intros [E _]; discriminate.
  - intros [t E]. discriminate.
  - intros [t E]. do 4 (destruct t as [|? t]; try discriminate).
Qed.

Lemma job_baseSlug_shape toLowerCase title :
  slug_shape (job_baseSlug toLowerCase title).
Proof.
  unfold job_baseSlug.
  pose proof (normalize_shape toLowerCase title) as H.
  destruct (normalize toLowerCase title); auto using slug_shape_job.
Qed.

Lemma job_baseSlug_nonempty toLowerCase title :
  job_baseSlug toLowerCase title <> [].
Proof.
  unfold job_baseSlug.
  destruct (normalize toLowerCase title); discriminate.
Qed.

Example normalize_examples :
  normalize asciiLowerCase (lit "  Hello,  World -- of JS!  ")
  = lit "hello-world-of-js"
  /\ normalize asciiLowerCase (lit "C++ & C#") = lit "c-c"
  /\ normalize asciiLowerCase (lit "?!") = []
  /\ job_baseSlug asciiLowerCase (lit "?!") = lit "job".
Proof. repeat split. Qed.

(** C4.  For every title, the slug produced by the normalization chain of
    both models contains only lower-case letters, digits and hyphens, has
    no two hyphens in a row and no hyphen at either end.  This holds of the
    chain itself, of the base slug of a Job Posting, and of every slug that
    the Blog hook writes. *)
Theorem slug_shape_of_every_title (toLowerCase : jsstring -> jsstring) :
  (forall title, slug_shape (normalize toLowerCase title))
  /\ (forall title, slug_shape (job_baseSlug toLowerCase title))
  /\ (forall d,
         blog_slug (blog_pre_validate toLowerCase d) = blog_slug d
         \/ exists s, blog_slug (blog_pre_validate toLowerCase d) = Some s
                      /\ slug_shape s).
Proof.
  split; [|split].
  - apply normalize_shape.
  - apply job_baseSlug_shape.
  - intros d. unfold blog_pre_validate.
    destruct (blog_title d) as [t|]; auto.
    destruct (truthyStr (Some t)
              && (blog_titleModified d || negb (truthyStr (blog_slug d))));
      auto.
    right. exists (normalize toLowerCase t). split; auto.
    apply normalize_shape.
Qed.

(** ** Slugs are fixed points of the normalization *)

Lemma stripOthers_fixed s :
  Forall (fun c => slugChar c = true) s -> stripOthers s = s.
Proof.
  unfold stripOthers. induction 1 as [|c s Hc Hs IH]; simpl; auto.
  rewrite (slugChar_keep c Hc). now rewrite IH.
Qed.

Lemma collapse_space_fixed s : forall inrun,
  Forall (fun c => slugChar c = true) s ->
  collapseFrom isWhiteSpace hyphen inrun s = s.
Proof.
  induction s as [|c s IH]; intros inrun H; simpl; auto.
  inversion_clear H as [|? ? Hc Hs].
  rewrite (slugChar_not_space c Hc). now rewrite IH.
Qed.

Lemma collapse_hyphen_fixed s : forall inrun,
  noDoubleHyphen s -> (inrun = true -> ~ startsWithHyphen s) ->
  collapseFrom isHyphen hyphen inrun s = s.
Proof.
  induction s as [|c s IH]; intros inrun Hn Hs; simpl; auto.
  pose proof (noDoubleHyphen_tail c s Hn) as Hn'.
  destruct (isHyphen c) eqn:Hc.
  - apply isHyphen_true in Hc. subst c.
    destruct inrun.
    + exfalso. apply Hs; auto. now exists s.
    + f_equal. apply IH; auto.
      intros _ [t E]. subst s. simpl in Hn. tauto.
  - f_equal. apply IH; auto. discriminate.
Qed.

Lemma dropWhile_fixed s : ~ startsWithHyphen s -> dropWhile isHyphen s = s.
Proof.
  destruct s as [|c s]; simpl; auto.
  intros H. destruct (isHyphen c) eqn:Hc; auto.
  exfalso. apply H. apply isHyphen_true in Hc. subst c. now exists s.
Qed.

Lemma dropWhileEnd_fixed s : ~ endsWithHyphen s -> dropWhileEnd isHyphen s = s.
Proof.
  induction s as [|c s IH]; intros H; simpl; auto.
  rewrite (IH (not_ends_tail c s H)).
  destruct s as [|x t]; auto.
  destruct (isHyphen c) eqn:Hc; auto.
  exfalso. apply H. apply isHyphen_true in Hc. subst c. now exists [].
Qed.

Lemma map_asciiLower_fixed s :
  Forall (fun c => slugChar c = true) s -> map asciiLower s = s.
Proof.
  induction 1 as [|c s Hc Hs IH]; simpl; auto.
  rewrite (slugChar_lower_fixed c Hc). now rewrite IH.
Qed.

Section Idempotence.

Variable toLowerCase : jsstring -> jsstring.

(** What the runtime guarantees of [toLowerCase] on ASCII text. *)
Hypothesis toLowerCase_ascii : forall s,
  Forall (fun c => isAscii c = true) s -> toLowerCase s = map asciiLower s.

Lemma toLowerCase_slug_fixed s :
  Forall (fun c => slugChar c = true) s -> toLowerCase s = s.
Proof.
  intros H. rewrite toLowerCase_ascii.
  - now apply map_asciiLower_fixed.
  - eapply Forall_impl; [|exact H]. apply slugChar_ascii.
Qed.

Lemma normalize_fixed s : slug_shape s -> normalize toLowerCase s = s.
Proof.
  intros [Hc Hn Hh Hl]. unfold normalize, collapseRuns, trimHyphens.
  rewrite toLowerCase_slug_fixed by assumption.
  rewrite stripOthers_fixed by assumption.
  rewrite collapse_space_fixed by assumption.
  rewrite collapse_hyphen_fixed by (auto; discriminate).
  rewrite dropWhile_fixed by assumption.
  now apply dropWhileEnd_fixed.
Qed.

End Idempotence.

Lemma blog_pre_validate_twice toLowerCase d :
  blog_pre_validate toLowerCase (blog_pre_validate toLowerCase d)
  = blog_pre_validate toLowerCase d.
Proof.
  destruct d as [[[|c t]|] s m]; try reflexivity.
  unfold blog_pre_validate; simpl.
  destruct m; simpl; [reflexivity|].
  destruct s as [[|x s]|]; simpl; try reflexivity;
    destruct (normalize toLowerCase (c :: t)); reflexivity.
Qed.

(** C5.  Slug normalization is idempotent: normalizing the slug derived
    from any title gives that slug back, every well-formed slug is left
    unchanged, and running the Blog hook a second time on the same document
    changes nothing.  (The function is deterministic by construction: the
    slug depends on the title alone.) *)
Theorem slug_normalization_idempotent (toLowerCase : jsstring -> jsstring)
  (toLowerCase_ascii : forall s,
      Forall (fun c => isAscii c = true) s -> toLowerCase s = map asciiLower s) :
  (forall title,
      normalize toLowerCase (normalize toLowerCase title)
      = normalize toLowerCase title)
  /\ (forall s, slug_shape s -> normalize toLowerCase s = s)
  /\ (forall d,
         blog_pre_validate toLowerCase (blog_pre_validate toLowerCase d)
         = blog_pre_validate toLowerCase d).
Proof.
  split; [|split].
  - intros title. apply normalize_fixed; auto. apply normalize_shape.
  - intros s. now apply normalize_fixed.
  - apply blog_pre_validate_twice.
Qed.

Lemma slug_normalization_idempotent_witness :
  normalize asciiLowerCase
    (normalize asciiLowerCase (lit "  Hello,  World -- of JS!  "))
  = lit "hello-world-of-js".
Proof.
  rewrite (proj1 (slug_normalization_idempotent asciiLowerCase
                    (fun s _ => eq_refl))).
  reflexivity.
Defined.

(** ** Decimal printing is injective *)

Lemma lit_inj a b : lit a = lit b -> a = b.
Proof.
  unfold lit. intros H.
  rewrite <- (string_of_list_ascii_of_string a),
          <- (string_of_list_ascii_of_string b).
  f_equal.
  apply (f_equal (map ascii_of_N)) in H.
  rewrite !map_map in H.
  rewrite !(map_ext _ (fun x => x) ascii_N_embedding), !map_id in H.
  exact H.
Qed.

Lemma string_of_uint_inj d d' :
  NilEmpty.string_of_uint d = NilEmpty.string_of_uint d' -> d = d'.
Proof.
  intros H. apply (f_equal NilEmpty.uint_of_string) in H.
  rewrite !NilEmpty.usu in H. congruence.
Qed.

Lemma decimalN_inj a b : JSNumber.decimalN a = JSNumber.decimalN b -> a = b.
Proof.
  unfold JSNumber.decimalN. intros H.
  apply DecimalN.Unsigned.to_uint_inj, string_of_uint_inj, lit_inj, H.
Qed.

Lemma string_of_uint_digits d :
  Forall (fun c => isDigit c = true) (lit (NilEmpty.string_of_uint d)).
Proof.
  induction d; simpl; constructor; auto.
Qed.

Lemma decimalN_digits n :
  Forall (fun c => isDigit c = true) (JSNumber.decimalN n).
Proof. apply string_of_uint_digits. Qed.

Lemma decimalN_no_sign n t : JSNumber.decimalN n <> hyphen :: t.
Proof.
  intros E. pose proof (decimalN_digits n) as H. rewrite E in H.
  inversion H as [|? ? Hd _]. discriminate Hd.
Qed.

Lemma decimalZ_inj a b : JSNumber.decimalZ a = JSNumber.decimalZ b -> a = b.
Proof.
  destruct a as [|p|p], b as [|q|q]; simpl; intros H;
    try (apply decimalN_inj in H; congruence);
    try (exfalso; eapply decimalN_no_sign; eauto; fail);
    try (exfalso; eapply decimalN_no_sign; symmetry; eauto; fail).
  injection H as H. apply decimalN_inj in H. congruence.
Qed.

(** ** Job slugs *)

Lemma job_slug_at_inj toLowerCase title t1 t2 :
  job_slug_at toLowerCase title t1 = job_slug_at toLowerCase title t2 ->
  t1 = t2.
Proof.
  unfold job_slug_at. intros H.
  apply app_inv_head in H. apply app_inv_head in H.
  now apply decimalZ_inj.
Qed.

Lemma jsstring_eqb_eq a b : jsstring_eqb a b = true <-> a = b.
Proof.
  unfold jsstring_eqb. destruct (list_eq_dec N.eq_dec a b); split;
    congruence.
Qed.

Lemma jsstring_eqb_refl a : jsstring_eqb a a = true.
Proof. now apply jsstring_eqb_eq. Qed.

Lemma slugTaken_app slug l1 l2 :
  slugTaken slug (l1 ++ l2) = slugTaken slug l1 || slugTaken slug l2.
Proof. unfold slugTaken. apply existsb_app. Qed.

Lemma job_create_stored toLowerCase store title now store' :
  job_create toLowerCase store title now = Stored store' ->
  titleValid (trim title) = true
  /\ slugTaken (Some (job_slug_at toLowerCase (trim title) now))
       (map job_slug store) = false
  /\ store' = store ++ [ {| job_title := trim title;
                            job_slug := Some (job_slug_at toLowerCase
                                                (trim title) now);
                            job_titleModified := true |} ].
Proof.
  unfold job_create, job_pre_save. simpl.
  destruct (titleValid (trim title)); simpl; [|discriminate].
  destruct (slugTaken _ _); [discriminate|].
  intros H. injection H as <-. auto.
Qed.

Lemma job_create_free toLowerCase store title now :
  titleValid (trim title) = true ->
  slugTaken (Some (job_slug_at toLowerCase (trim title) now))
    (map job_slug store) = false ->
  job_create toLowerCase store title now
  = Stored (store ++ [ {| job_title := trim title;
                          job_slug := Some (job_slug_at toLowerCase
                                              (trim title) now);
                          job_titleModified := true |} ]).
Proof.
  intros Hv Hf. unfold job_create, job_pre_save. simpl.
  rewrite Hv. simpl. now rewrite Hf.
Qed.

(** C7.  Two Job Postings with the same title, created at distinct
    millisecond timestamps, are both created.  The save hook of a new
    document always writes the base slug (the normalized title, or [job]
    when that is empty), a hyphen and the timestamp in decimal; for a fixed
    title the slug determines the timestamp; and if each creation is
    accepted by the store on its own, the second is still accepted after
    the first, both being answered 201, with different slugs. *)
Theorem job_same_title_both_created (toLowerCase : jsstring -> jsstring)
  (store s1 s2 : list jobDoc) (title : jsstring) (t1 t2 : Z) :
  t1 <> t2 ->
  job_create toLowerCase store title t1 = Stored s1 ->
  job_create toLowerCase store title t2 = Stored s2 ->
  (forall d now, job_titleModified d = true ->
      job_slug (job_pre_save toLowerCase now d)
      = Some (job_baseSlug toLowerCase (job_title d) ++ lit "-"
                ++ JSNumber.decimalZ now))
  /\ job_slug_at toLowerCase (trim title) t1
     <> job_slug_at toLowerCase (trim title) t2
  /\ exists d1 d2,
       post_job toLowerCase store title t1
       = (success 201 None, store ++ [d1])
       /\ post_job toLowerCase (store ++ [d1]) title t2
          = (success 201 None, store ++ [d1; d2])
       /\ job_title d1 = job_title d2
       /\ job_slug d1 = Some (job_slug_at toLowerCase (trim title) t1)
       /\ job_slug d2 = Some (job_slug_at toLowerCase (trim title) t2)
       /\ job_slug d1 <> job_slug d2.
Proof.
  intros Hne H1 H2.
  assert (Hslug : job_slug_at toLowerCase (trim title) t1
                  <> job_slug_at toLowerCase (trim title) t2).
  { intros E. apply Hne. eapply job_slug_at_inj; eauto. }
  split; [|split; [exact Hslug|]].
  - intros d now Hm. unfold job_pre_save. rewrite Hm, orb_true_r. reflexivity.
  - apply job_create_stored in H1 as (Hv & Hf1 & ->).
    apply job_create_stored in H2 as (_ & Hf2 & ->).
    eexists; eexists. split; [|split; [|split; [|split; [|split]]]].
    + unfold post_job. rewrite job_create_free by assumption. reflexivity.
    + unfold post_job. rewrite job_create_free; auto.
      * rewrite <- app_assoc. reflexivity.
      * rewrite map_app, slugTaken_app, Hf2. simpl.
        rewrite orb_false_r. apply not_true_is_false.
        intros E. apply jsstring_eqb_eq in E. auto.
    + reflexivity.
    + reflexivity.
    + reflexivity.
    + simpl. congruence.
Qed.

Lemma job_same_title_both_created_witness :
  exists d1 d2,
    post_job asciiLowerCase [] (lit "Senior Developer") 1730600000000
    = (success 201 None, [d1])
    /\ post_job asciiLowerCase [d1] (lit "Senior Developer") 1730600000001
       = (success 201 None, [d1; d2])
    /\ job_slug d1 = Some (lit "senior-developer-1730600000000")
    /\ job_slug d2 = Some (lit "senior-developer-1730600000001").
Proof.
  destruct (job_same_title_both_created asciiLowerCase [] _ _
              (lit "Senior Developer") 1730600000000 1730600000001
              ltac:(discriminate) eq_refl eq_refl)
    as (_ & _ & d1 & d2 & P1 & P2 & _ & S1 & S2 & _).
  exists d1, d2. repeat split; assumption.
Defined.

(** ** Salary formatting *)

Import JSNumber JSValue Job.

















(** The posting of test-new-job-system.js, and a fractional hourly rate. *)
Example salaryRange_of_test_job :
  salaryRange (Some {| sal_min := VNum (ofZ 800000);
                       sal_max := VNum (ofZ 1500000);
                       sal_currency := lit "INR";
                       sal_period := lit "yearly" |})
  = lit "8.0L - 15.0L INR/yearly"
  /\ salaryRange (Some {| sal_min := VNum (round_q 1505 10);
                          sal_max := VUndefined;
                          sal_currency := lit "USD";
                          sal_period := lit "hourly" |})
     = lit "150.5/hr+ USD/hourly"
  /\ salaryRange None = lit "Not specified".
Proof. repeat split; vm_compute; reflexivity. Qed.

(** A string that denotes a number is cast to that number on assignment
    and formatted as such; with [100k] for the minimum only the maximum is
    shown. *)
Example salaryRange_of_assigned_strings :
  salaryRange (Some (document {| sal_min := VStr (lit " 5e3 ");
                                 sal_max := VUndefined;
                                 sal_currency := lit "INR";
                                 sal_period := lit "monthly" |}))
  = lit "5K+ INR/monthly"
  /\ salaryRange (Some (document {| sal_min := VStr (lit "100k");
                                    sal_max := VNum (ofZ 5000);
                                    sal_currency := lit "INR";
                                    sal_period := lit "monthly" |}))
     = lit "Up to 5K INR/monthly".
Proof. split; vm_compute; reflexivity. Qed.

Lemma positive_truthy m e : (0 < m)%Z -> truthy (VNum (Fin m e)) = true.
Proof.
  intros H. simpl. apply negb_true_iff, Z.eqb_neq. lia.
Qed.

(** C10.  A stored bound equal to 0 counts as absent.  With a minimum of 0
    and a positive maximum the range reads [Up to <max> <currency>/<period>];
    with a positive minimum and a maximum of 0 it reads
    [<min>+ <currency>/<period>]; with both bounds 0 it reads
    [Not specified]. *)
Theorem zero_bound_counts_as_absent (currency period : jsstring)
  (m e e0 e1 : Z) :
  (0 < m)%Z ->
  salaryRange (Some {| sal_min := VNum (Fin 0 e0);
                       sal_max := VNum (Fin m e);
                       sal_currency := currency; sal_period := period |})
  = lit "Up to " ++ formatSalary period (VNum (Fin m e))
      ++ lit " " ++ currency ++ lit "/" ++ period
  /\ salaryRange (Some {| sal_min := VNum (Fin m e);
                          sal_max := VNum (Fin 0 e0);
                          sal_currency := currency; sal_period := period |})
     = formatSalary period (VNum (Fin m e))
         ++ lit "+" ++ lit " " ++ currency ++ lit "/" ++ period
  /\ salaryRange (Some {| sal_min := VNum (Fin 0 e0);
                          sal_max := VNum (Fin 0 e1);
                          sal_currency := currency; sal_period := period |})
     = lit "Not specified".
Proof.
  intros Hm. pose proof (positive_truthy m e Hm) as Ht.
  unfold salaryRange, unitSuffix; cbn [sal_min sal_max sal_currency sal_period].
  rewrite Ht. cbn. auto.
Qed.

Lemma zero_bound_counts_as_absent_witness :
  salaryRange (Some {| sal_min := VNum (Fin 0 0);
                       sal_max := VNum (Fin 46875 5);
                       sal_currency := lit "INR";
                       sal_period := lit "yearly" |})
  = lit "Up to " ++ formatSalary (lit "yearly") (VNum (Fin 46875 5))
      ++ lit " " ++ lit "INR" ++ lit "/" ++ lit "yearly".
Proof.
  apply (zero_bound_counts_as_absent (lit "INR") (lit "yearly") 46875 5 0 0).
  reflexivity.
Defined.

(** ** Open postings *)

(** C6.  A Job Posting is open exactly when its active flag is true and
    either no deadline is set or the current time is at or before the
    deadline; with a deadline in the past it is not open, whatever the
    flag. *)
Theorem isOpen_iff (isActive : bool) (applicationDeadline : option Z)
  (now : Z) :
  (isOpen isActive applicationDeadline now = true
   <-> isActive = true
       /\ (applicationDeadline = None
           \/ exists deadline,
                applicationDeadline = Some deadline /\ (now <= deadline)%Z))
  /\ (forall deadline,
         (deadline < now)%Z -> isOpen isActive (Some deadline) now = false).
Proof.
  split.
  - unfold isOpen. destruct isActive; simpl.
    + destruct applicationDeadline as [d|].
      * destruct (Z.ltb_spec d now); split.
        -- discriminate.
        -- intros [_ [E | [d' [E L]]]]; [discriminate|].
           injection E as ->. lia.
        -- intros _. split; auto. right. exists d. split; auto.
        -- reflexivity.
      * split; auto.
    + split; [discriminate|]. intros [E _]. discriminate.
  - intros d Hd. unfold isOpen. destruct isActive; simpl; auto.
    apply Z.ltb_lt in Hd. now rewrite Hd.
Qed.

Lemma isOpen_iff_witness :
  isOpen true (Some 1730000000000%Z) 1730600000000%Z = false.
Proof.
  apply (proj2 (isOpen_iff true None 1730600000000%Z) 1730000000000%Z).
  reflexivity.
Defined.

(** ** Optional and mandatory authentication *)

Lemma optionalAuth_proceeds (payload : Type)
  (jwt_verify : jsstring -> option payload)
  (findById : payload -> option (option user)) authorization :
  exists req_user, optionalAuth jwt_verify findById authorization = Next req_user.
Proof.
  unfold optionalAuth.
  destruct (bearerToken authorization) as [token|]; eauto.
  destruct (jwt_verify token) as [decoded|]; eauto.
  destruct (findById decoded); eauto.
Qed.

(** C8.  For a bearer credential that is missing (no usable token in the
    [Authorization] header) or invalid (the token does not verify), the
    optional middleware calls [next()] with no identity, while the
    mandatory middleware answers 401; and the optional middleware never
    answers a request itself. *)
Theorem optional_proceeds_where_mandatory_fails (payload : Type)
  (jwt_verify : jsstring -> option payload)
  (findById : payload -> option (option user))
  (authorization : option jsstring) :
  (bearerToken authorization = None
   \/ exists token,
        bearerToken authorization = Some token /\ jwt_verify token = None) ->
  optionalAuth jwt_verify findById authorization = Next None
  /\ protect jwt_verify findById authorization = Answered unauthorized
  /\ res_code unauthorized = 401%Z
  /\ (forall authorization',
         exists req_user,
           optionalAuth jwt_verify findById authorization' = Next req_user).
Proof.
  intros H. unfold optionalAuth, protect.
  repeat split.
  - destruct H as [-> | (token & -> & ->)]; reflexivity.
  - destruct H as [-> | (token & -> & ->)]; reflexivity.
  - intros a. apply optionalAuth_proceeds.
Qed.

Lemma optional_proceeds_where_mandatory_fails_witness :
  optionalAuth (fun _ => @None unit) (fun _ => Some None)
    (Some (lit "Bearer expired.token.value")) = Next None
  /\ protect (fun _ => @None unit) (fun _ => Some None)
       (Some (lit "Bearer expired.token.value")) = Answered unauthorized.
Proof.
  destruct (optional_proceeds_where_mandatory_fails unit (fun _ => None)
              (fun _ => Some None) (Some (lit "Bearer expired.token.value")))
    as (O & P & _).
  - right. exists (lit "expired.token.value"). split; reflexivity.
  - split; assumption.
Defined.

(** A token that verifies for a user who no longer exists passes both
    middlewares with no identity. *)
Example protect_passes_unknown_user :
  protect (fun _ => Some tt) (fun _ => Some None) (Some (lit "Bearer abc"))
  = Next None
  /\ optionalAuth (fun _ => Some tt) (fun _ => Some None)
       (Some (lit "Bearer abc")) = Next None.
Proof. split; reflexivity. Qed.

(** Headers without a usable token. *)
Example bearerToken_missing :
  bearerToken None = None
  /\ bearerToken (Some (lit "Basic dXNlcg==")) = None
  /\ bearerToken (Some (lit "Bearer")) = None
  /\ bearerToken (Some (lit "Bearer ")) = None
  /\ bearerToken (Some (lit "Bearer abc def")) = Some (lit "abc").
Proof. repeat split. Qed.

(** ** Deleting a file by name *)

Lemma startsWith_app prefix rest : startsWith prefix (prefix ++ rest) = true.
Proof.
  induction prefix as [|p prefix IH]; simpl; auto.
  now rewrite N.eqb_refl.
Qed.

Lemma includes_here needle hay :
  startsWith needle hay = true -> includes needle hay = true.
Proof. intros H. destruct hay; simpl; now rewrite H. Qed.

Lemma includes_infix needle before after :
  includes needle (before ++ needle ++ after) = true.
Proof.
  induction before as [|c before IH]; simpl.
  - apply includes_here, startsWith_app.
  - rewrite IH. apply orb_true_r.
Qed.

Lemma includes_member c s : In c s -> includes [c] s = true.
Proof.
  intros H. apply in_split in H as (before & after & ->).
  apply (includes_infix [c]).
Qed.

Lemma safeName_all raw c : In c raw -> safeChar c = false -> safeName raw = false.
Proof.
  intros Hin Hc. unfold safeName. destruct raw as [|x raw]; auto.
  apply not_true_is_false. intros H.
  rewrite forallb_forall in H. rewrite (H c Hin) in Hc. discriminate.
Qed.

(** C9.  The handler that deletes a file by name answers 400 and hands
    nothing to the file system for every name that contains [/] or [\],
    contains [..], or contains a character outside letters, digits,
    underscore, dot, hyphen and space.  On the whole route (behind
    [protect] and [authorize('admin')]) such a name never reaches the file
    system either. *)
Theorem unsafe_filename_rejected (basename : jsstring -> jsstring)
  (unlink : jsstring -> unlinked) (raw : jsstring) :
  (In 47%N raw \/ In 92%N raw
   \/ (exists before after, raw = before ++ lit ".." ++ after)
   \/ (exists c, In c raw /\ safeChar c = false)) ->
  deleteMediaHandler basename unlink raw = (failure 400 "Invalid filename", [])
  /\ res_code (fst (deleteMediaHandler basename unlink raw)) = 400%Z
  /\ (forall (payload : Type) (jwt_verify : jsstring -> option payload)
        (findById : payload -> option (option user)) authorization,
         snd (deleteMediaRoute basename unlink payload jwt_verify findById
                authorization raw) = []).
Proof.
  intros H.
  assert (E : deleteMediaHandler basename unlink raw
              = (failure 400 "Invalid filename", [])).
  { unfold deleteMediaHandler.
    destruct H as [H | [H | [(before & after & ->) | (c & Hc & Hs)]]].
    - assert (Q : includes (lit "/") raw = true)
        by exact (includes_member 47%N raw H).
      now rewrite Q.
    - assert (Q : includes (lit "\") raw = true)
        by exact (includes_member 92%N raw H).
      rewrite Q. now rewrite orb_true_r.
    - rewrite includes_infix. now rewrite !orb_true_r.
    - rewrite (safeName_all _ _ Hc Hs). simpl.
      destruct (_ || _); reflexivity. }
  split; [exact E|]. split; [now rewrite E|].
  intros payload jwt_verify findById authorization.
  unfold deleteMediaRoute.
  destruct (protect jwt_verify findById authorization); auto.
  destruct (authorize [lit "admin"] req_user); auto.
  now rewrite E.
Qed.

Lemma unsafe_filename_rejected_witness :
  deleteMediaHandler (fun s => s) (fun _ => Removed) (lit "..secret.png")
  = (failure 400 "Invalid filename", []).
Proof.
  apply (unsafe_filename_rejected (fun s => s) (fun _ => Removed)
           (lit "..secret.png")).
  right. right. left. exists [], (lit "secret.png"). reflexivity.
Defined.

(** ** Deleting a comment *)

Lemma find_absent {A : Type} (f : A -> bool) (l : list A) :
  (forall x, In x l -> f x = false) -> find f l = None.
Proof.
  induction l as [|a l IH]; intros H; simpl; auto.
  rewrite (H a (or_introl eq_refl)). apply IH. intros x Hx. apply H. now right.
Qed.

(** In a list whose keys are pairwise distinct, a search that only accepts
    the key of [x], and accepts [x], returns [x]. *)
Lemma find_by_key {A : Type} (key : A -> N) (f : A -> bool) (l : list A) x :
  NoDup (map key l) -> In x l -> f x = true ->
  (forall y, f y = true -> key y = key x) ->
  find f l = Some x.
Proof.
  intros Hnd Hin Hx Hkey.
  induction l as [|a l IH]; simpl in *; [contradiction|].
  inversion_clear Hnd as [|? ? Hna Hl].
  destruct Hin as [-> | Hin].
  - now rewrite Hx.
  - destruct (f a) eqn:Fa.
    + exfalso. apply Hna. rewrite (Hkey a Fa). now apply in_map.
    + auto.
Qed.

Lemma hasComment_true c p :
  hasComment c p = true <->
  exists cm, In cm (post_comments p) /\ comment_id cm = c.
Proof.
  unfold hasComment. rewrite existsb_exists.
  split; intros (cm & Hin & H); exists cm; split; auto; now apply N.eqb_eq.
Qed.

Lemma sameId_true a b : sameId a b = true <-> a = Some b.
Proof.
  destruct a as [a|]; simpl.
  - rewrite N.eqb_eq. split; congruence.
  - split; discriminate.
Qed.

Lemma findBlogWithComment_absent store b c :
  (forall p cm, In p store -> post_id p = b ->
                In cm (post_comments p) -> comment_id cm <> c) ->
  findBlogWithComment store b c = None.
Proof.
  intros H. unfold findBlogWithComment.
  rewrite find_absent; auto.
  intros p Hp. apply not_true_is_false. intros T.
  apply andb_true_iff in T as [Tb Tc].
  apply N.eqb_eq in Tb. apply hasComment_true in Tc as (cm & Hin & Hc).
  exact (H p cm Hp Tb Hin Hc).
Qed.

Lemma findBlogWithComment_present store p cm :
  NoDup (map post_id store) -> NoDup (map comment_id (post_comments p)) ->
  In p store -> In cm (post_comments p) ->
  findBlogWithComment store (post_id p) (comment_id cm)
  = Some {| post_id := post_id p; post_author := post_author p;
            post_comments := [cm] |}.
Proof.
  intros Hs Hc Hp Hcm. unfold findBlogWithComment.
  rewrite (find_by_key post_id _ store p Hs Hp).
  - rewrite (find_by_key comment_id _ (post_comments p) cm Hc Hcm); auto.
    + apply N.eqb_refl.
    + intros y Hy. now apply N.eqb_eq.
  - rewrite N.eqb_refl. simpl. apply hasComment_true. eauto.
  - intros y Hy. apply andb_true_iff in Hy as [Hy _]. now apply N.eqb_eq.
Qed.

(** C1.  Comment deletion.  Identifiers are validated first: a malformed
    blog or comment id is answered 400.  Then the target is looked up: when
    no post with that id holds a comment with that id the answer is 404.
    Only then is the caller authorized: a resolved caller may delete the
    comment exactly when they wrote it, or hold the [admin] role, or wrote
    the post; then the answer is 200 and the comment is pulled from the
    store, otherwise it is 403 and the store is unchanged.  Identifiers of
    posts in the store, and of comments in the post, are distinct. *)
Theorem comment_deletion_access
  (parseObjectId : jsstring -> option ObjectId)
  (id commentId : jsstring) (store : list blogPost) :
  (forall req_user,
      parseObjectId id = None \/ parseObjectId commentId = None ->
      deleteCommentHandler parseObjectId req_user id commentId store
      = (failure 400 "Invalid blog or comment id", store))
  /\ (forall req_user b c,
         parseObjectId id = Some b -> parseObjectId commentId = Some c ->
         (forall p cm, In p store -> post_id p = b ->
                       In cm (post_comments p) -> comment_id cm <> c) ->
         deleteCommentHandler parseObjectId req_user id commentId store
         = (failure 404 "Blog or comment not found", store))
  /\ (forall u p cm,
         parseObjectId id = Some (post_id p) ->
         parseObjectId commentId = Some (comment_id cm) ->
         NoDup (map post_id store) ->
         NoDup (map comment_id (post_comments p)) ->
         In p store -> In cm (post_comments p) ->
         let allowed := comment_user cm = Some (user_id u)
                        \/ user_role u = lit "admin"
                        \/ post_author p = Some (user_id u) in
         let answer := deleteCommentHandler parseObjectId (Some u)
                         id commentId store in
         (allowed ->
          answer = (success 200 None,
                    pullComment store (post_id p) (comment_id cm)))
         /\ (~ allowed ->
             answer = (failure 403 "Not authorized to delete this comment",
                       store))
         /\ (allowed <-> res_code (fst answer) = 200%Z)).
Proof.
  split; [|split].
  - intros req_user H. unfold deleteCommentHandler.
    destruct H as [H | H]; rewrite H; [|destruct (parseObjectId id)];
      reflexivity.
  - intros req_user b c Hb Hc H. unfold deleteCommentHandler.
    rewrite Hb, Hc. simpl.
    now rewrite (findBlogWithComment_absent store b c H).
  - intros u p cm Hb Hc Hs Hcs Hp Hcm allowed answer.
    assert (Hdec : forall t : bool,
               t = negb (isOwner cm u) && negb (isAdmin u)
                   && negb (isBlogAuthor p u) ->
               (t = false <-> allowed)).
    { intros t ->. unfold allowed, isOwner, isAdmin, isBlogAuthor.
      rewrite <- !sameId_true, <- jsstring_eqb_eq.
      destruct (sameId (comment_user cm) (user_id u)),
               (jsstring_eqb (user_role u) (lit "admin")),
               (sameId (post_author p) (user_id u)); simpl;
        intuition congruence. }
    assert (E : answer
                = if negb (isOwner cm u) && negb (isAdmin u)
                     && negb (isBlogAuthor p u)
                  then (failure 403 "Not authorized to delete this comment",
                        store)
                  else (success 200 None,
                        pullComment store (post_id p) (comment_id cm))).
    { unfold answer, deleteCommentHandler. rewrite Hb, Hc. simpl.
      rewrite (findBlogWithComment_present store p cm Hs Hcs Hp Hcm). simpl.
      unfold isBlogAuthor. simpl.
      destruct (negb (isOwner cm u) && negb (isAdmin u)
                && negb (sameId (post_author p) (user_id u))); reflexivity. }
    specialize (Hdec _ eq_refl). rewrite E.
    destruct (negb (isOwner cm u) && negb (isAdmin u)
              && negb (isBlogAuthor p u)); simpl.
    + assert (~ allowed) by (intros A; apply Hdec in A; discriminate).
      repeat split; try tauto. discriminate.
    + assert allowed by (now apply Hdec).
      repeat split; tauto.
Qed.

Lemma comment_deletion_access_witness :
  let parse := fun s : jsstring => Some (N.of_nat (List.length s)) in
  let cm := {| comment_id := 2%N; comment_user := Some 8%N;
               comment_text := lit "First!" |} in
  let p := {| post_id := 1%N; post_author := Some 7%N; post_comments := [cm] |} in
  let owner := {| user_id := 7%N; user_role := lit "user" |} in
  deleteCommentHandler parse (Some owner) (lit "a") (lit "ab") [p]
  = (success 200 None,
     [ {| post_id := 1%N; post_author := Some 7%N; post_comments := [] |} ]).
Proof.
  intros parse cm p owner.
  apply (proj2 (proj2 (comment_deletion_access parse (lit "a") (lit "ab") [p]))
           owner p cm eq_refl eq_refl).
  - constructor; [intros []|constructor].
  - constructor; [intros []|constructor].
  - now left.
  - now left.
  - right. right. reflexivity.
Defined.

(** A caller who is neither the author of the comment, nor an
    administrator, nor the author of the post is answered 403. *)
Example comment_deletion_stranger :
  let parse := fun s : jsstring => Some (N.of_nat (List.length s)) in
  let cm := {| comment_id := 2%N; comment_user := Some 8%N;
               comment_text := lit "First!" |} in
  let p := {| post_id := 1%N; post_author := Some 7%N; post_comments := [cm] |} in
  let stranger := {| user_id := 9%N; user_role := lit "user" |} in
  deleteCommentHandler parse (Some stranger) (lit "a") (lit "ab") [p]
  = (failure 403 "Not authorized to delete this comment", [p]).
Proof. reflexivity. Qed.

(** When [protect] lets a request through with [req.user] null (the token
    verifies but its user is gone), the handler still answers 400 and 404
    first, and otherwise fails with 500. *)
Example comment_deletion_without_identity :
  let parse := fun s : jsstring => Some (N.of_nat (List.length s)) in
  let cm := {| comment_id := 2%N; comment_user := Some 8%N;
               comment_text := lit "First!" |} in
  let p := {| post_id := 1%N; post_author := Some 7%N; post_comments := [cm] |} in
  deleteCommentHandler parse None (lit "a") (lit "ab") [p]
  = (failure 500 "Server error", [p]).
Proof. reflexivity. Qed.

(** ** Duplicate keys on creation *)

Lemma blog_duplicate_key_conflict field v :
  blog_create_catch (duplicateKeyError field v)
  = {| res_code := 409; res_success := false;
       res_message := Some (lit
         "A blog with this title already exists. Please use a unique title.");
       res_keyValue := Some (field, v) |}.
Proof. reflexivity. Qed.

(** A second Content Item whose title normalizes to a slug already stored
    is answered 409 with the conflicting field and value. *)
Example blog_second_create_conflicts :
  exists store,
    post_blog asciiLowerCase [] (lit "Hello World") = (success 201 None, store)
    /\ fst (post_blog asciiLowerCase store (lit "hello, world!"))
       = {| res_code := 409; res_success := false;
            res_message := Some (lit
              "A blog with this title already exists. Please use a unique title.");
            res_keyValue := Some (lit "slug", lit "hello-world") |}.
Proof. eexists. split; reflexivity. Qed.

(** C2 (what the code does).  The report of a duplicate key is turned into
    409 with the conflicting field and value by the Blog route, but into
    400 without them by the Job route: a Job Posting created in the same
    millisecond as one with the same title meets the unique index on
    [slug] and is answered 400. *)
Theorem job_duplicate_key_answered_400 :
  let first := {| job_title := lit "Developer";
                  job_slug := Some (lit "developer-1730600000000");
                  job_titleModified := true |} in
  post_job asciiLowerCase [] (lit "Developer") 1730600000000
  = (success 201 None, [first])
  /\ job_create asciiLowerCase [first] (lit "Developer") 1730600000000
     = Threw (duplicateKeyError (lit "slug") (lit "developer-1730600000000"))
  /\ post_job asciiLowerCase [first] (lit "Developer") 1730600000000
     = (failure 400 "A job with this title already exists", [first])
  /\ (forall field v,
         res_code (job_create_catch (duplicateKeyError field v)) = 400%Z
         /\ res_keyValue (job_create_catch (duplicateKeyError field v)) = None)
  /\ (forall field v,
         res_code (blog_create_catch (duplicateKeyError field v)) = 409%Z
         /\ res_keyValue (blog_create_catch (duplicateKeyError field v))
            = Some (field, v)).
Proof.
  repeat split.
Qed.

(* ================================================================== *)
(** * Further properties of the code *)

(** ** The complete slug of a Job Posting *)

Lemma decimalN_nonempty n : decimalN n <> [].
Proof.
  unfold decimalN, lit. intros E.
  apply map_eq_nil in E.
  assert (S : NilEmpty.string_of_uint (N.to_uint n) = EmptyString).
  { destruct (NilEmpty.string_of_uint (N.to_uint n)); [reflexivity|discriminate]. }
  assert (U : N.to_uint n = Decimal.Nil).
  { apply string_of_uint_inj. rewrite S. reflexivity. }
  pose proof (DecimalN.Unsigned.of_to n) as R. rewrite U in R.
  simpl in R. subst n. discriminate U.
Qed.

Lemma digit_slugChar c : isDigit c = true -> slugChar c = true.
Proof. intros H. unfold slugChar. rewrite H. now rewrite orb_true_r. Qed.

Lemma digit_not_hyphen c : isDigit c = true -> c <> hyphen.
Proof. intros H E. subst c. discriminate H. Qed.

Lemma digits_no_hyphen d :
  Forall (fun c => isDigit c = true) d -> ~ In hyphen d.
Proof.
  intros H Hin. rewrite Forall_forall in H.
  exact (digit_not_hyphen hyphen (H hyphen Hin) eq_refl).
Qed.

Lemma digits_noDoubleHyphen d :
  Forall (fun c => isDigit c = true) d -> noDoubleHyphen d.
Proof.
  induction 1 as [|c l Hc Hl IH]; simpl; auto.
  destruct l; auto. split; auto.
  intros [E _]. exact (digit_not_hyphen c Hc E).
Qed.

Lemma noDoubleHyphen_app a b :
  noDoubleHyphen a -> noDoubleHyphen b ->
  ~ (endsWithHyphen a /\ startsWithHyphen b) ->
  noDoubleHyphen (a ++ b).
Proof.
  induction a as [|x a IH]; intros Ha Hb Hj; simpl; auto.
  destruct a as [|y a].
  - simpl. destruct b as [|z b]; simpl; auto.
    split; auto. intros [-> ->]. apply Hj. split.
    + now exists [].
    + now exists b.
  - destruct Ha as [Hxy Ha]. split; auto.
    apply IH; auto.
    intros [[t E] Hs]. apply Hj. split; auto.
    exists (x :: t). simpl. now rewrite E.
Qed.

Lemma job_slug_at_shape toLowerCase title now :
  (0 <= now)%Z -> slug_shape (job_slug_at toLowerCase title now).
Proof.
  intros Hnow. unfold job_slug_at.
  pose proof (job_baseSlug_shape toLowerCase title) as [Bc Bn Bh Bl].
  pose proof (job_baseSlug_nonempty toLowerCase title) as Bne.
  assert (D : decimalZ now = decimalN (Z.to_N now)) by (destruct now; auto; lia).
  rewrite D. clear D.
  pose proof (decimalN_digits (Z.to_N now)) as Dd.
  pose proof (decimalN_nonempty (Z.to_N now)) as Dne.
  set (base := job_baseSlug toLowerCase title) in *.
  set (ds := decimalN (Z.to_N now)) in *.
  change (lit "-") with [hyphen].
  constructor.
  - apply Forall_app. split; auto. apply Forall_app. split.
    + repeat constructor.
    + eapply Forall_impl; [|exact Dd]. apply digit_slugChar.
  - apply noDoubleHyphen_app; auto.
    + pose proof (digits_noDoubleHyphen ds Dd) as Hd.
      destruct ds as [|z ds']; simpl; auto. split; auto.
      intros [_ E]. inversion Dd as [|? ? Hz _].
      exact (digit_not_hyphen z Hz E).
    + tauto.
  - intros [t E]. destruct base as [|b base']; [congruence|].
    apply Bh. exists base'. simpl in E. congruence.
  - intros [t E].
    destruct (exists_last Dne) as (ds' & z & Ez).
    rewrite Ez in E, Dd.
    change (base ++ [hyphen] ++ ds' ++ [z]) with (base ++ ([hyphen] ++ ds') ++ [z]) in E.
    rewrite !app_assoc in E. apply app_inj_tail in E as [_ E].
    apply Forall_app in Dd as [_ Dz]. inversion Dz as [|? ? Hz _].
    exact (digit_not_hyphen z Hz E).
Qed.

(** X1.  The complete slug of a Job Posting, base slug, hyphen and
    timestamp, is itself a well-formed slug whenever the clock reads a time
    at or after the epoch; before the epoch the minus sign of the
    timestamp makes a double hyphen. *)
Theorem job_slug_well_formed (toLowerCase : jsstring -> jsstring)
  (title : jsstring) (now : Z) :
  ((0 <= now)%Z -> slug_shape (job_slug_at toLowerCase title now))
  /\ ((now < 0)%Z -> ~ slug_shape (job_slug_at toLowerCase title now)).
Proof.
  split; [apply job_slug_at_shape|].
  intros Hneg [_ Hn _ _]. unfold job_slug_at in Hn.
  destruct now as [|p|p]; try lia. simpl in Hn.
  apply noDoubleHyphen_app_r in Hn. simpl in Hn. tauto.
Qed.

Lemma job_slug_well_formed_witness :
  slug_shape (job_slug_at asciiLowerCase (lit "QA Lead (Remote)") 1730600000000).
Proof.
  apply (proj1 (job_slug_well_formed asciiLowerCase (lit "QA Lead (Remote)")
                  1730600000000)).
  discriminate.
Defined.

Lemma split_at_last_mark (x : code) a b d1 d2 :
  ~ In x d1 -> ~ In x d2 -> a ++ x :: d1 = b ++ x :: d2 -> a = b /\ d1 = d2.
Proof.
  revert b. induction a as [|y a IH]; intros [|z b] H1 H2 E; simpl in E.
  - injection E as E. auto.
  - injection E as -> E. exfalso. apply H1. rewrite E. apply in_elt.
  - injection E as -> E. exfalso. apply H2. rewrite <- E. apply in_elt.
  - injection E as -> E. destruct (IH b H1 H2 E) as [-> ->]. auto.
Qed.

(** X2.  Whatever their titles, two Job Postings saved at different
    times at or after the epoch get different slugs: a slug determines both
    its base and its timestamp. *)
Theorem job_slug_determines_time (toLowerCase : jsstring -> jsstring)
  (title1 title2 : jsstring) (now1 now2 : Z) :
  (0 <= now1)%Z -> (0 <= now2)%Z ->
  job_slug_at toLowerCase title1 now1 = job_slug_at toLowerCase title2 now2 ->
  now1 = now2
  /\ job_baseSlug toLowerCase title1 = job_baseSlug toLowerCase title2.
Proof.
  intros H1 H2 E. unfold job_slug_at in E.
  change (lit "-") with [hyphen] in E. simpl in E.
  assert (D : forall n, (0 <= n)%Z -> ~ In hyphen (decimalZ n)).
  { intros n Hn. replace (decimalZ n) with (decimalN (Z.to_N n))
      by (destruct n; auto; lia).
    apply digits_no_hyphen, decimalN_digits. }
  apply split_at_last_mark in E as [Eb Ed]; auto.
  split; auto. now apply decimalZ_inj.
Qed.

Lemma job_slug_determines_time_witness :
  12%Z = 12%Z
  /\ job_baseSlug asciiLowerCase (lit "A b")
     = job_baseSlug asciiLowerCase (lit "a  B!").
Proof.
  apply (job_slug_determines_time asciiLowerCase (lit "A b") (lit "a  B!")
           12 12); [discriminate | discriminate | reflexivity].
Defined.

(** X3.  After the save hook every Job Posting has a non-empty slug, and a
    save that leaves the title untouched keeps an existing slug as it
    is. *)
Theorem job_pre_save_slug (toLowerCase : jsstring -> jsstring) (now : Z)
  (d : jobDoc) :
  truthyStr (job_slug (job_pre_save toLowerCase now d)) = true
  /\ (job_titleModified d = false -> truthyStr (job_slug d) = true ->
      job_pre_save toLowerCase now d = d).
Proof.
  unfold job_pre_save. split.
  - destruct (negb (truthyStr (job_slug d)) || job_titleModified d) eqn:C.
    + simpl. unfold job_slug_at.
      pose proof (job_baseSlug_nonempty toLowerCase (job_title d)).
      destruct (job_baseSlug toLowerCase (job_title d)); [congruence|reflexivity].
    + apply orb_false_iff in C as [C _]. now apply negb_false_iff in C.
  - intros -> ->. reflexivity.
Qed.

Lemma job_pre_save_slug_witness :
  let d := {| job_title := lit "Designer";
              job_slug := Some (lit "designer-1700000000000");
              job_titleModified := false |} in
  job_pre_save asciiLowerCase 1730600000000 d = d.
Proof.
  intros d.
  apply (proj2 (job_pre_save_slug asciiLowerCase 1730600000000 d));
    reflexivity.
Defined.

(** ** Creating Content Items and Job Postings *)

Lemma slugTaken_false_iff slug slugs :
  slugTaken (Some slug) slugs = false <-> ~ In (Some slug) slugs.
Proof.
  unfold slugTaken. split.
  - intros H Hin. apply not_true_iff_false in H. apply H.
    apply existsb_exists. exists (Some slug). split; auto.
    apply jsstring_eqb_refl.
  - intros H. apply not_true_is_false. intros E.
    apply existsb_exists in E as ([s'|] & Hin & Hs); [|discriminate].
    apply jsstring_eqb_eq in Hs. subst s'. auto.
Qed.

Lemma slugTaken_true_iff slug slugs :
  slugTaken (Some slug) slugs = true <-> In (Some slug) slugs.
Proof.
  unfold slugTaken. rewrite existsb_exists. split.
  - intros ([s'|] & Hin & Hs); [|discriminate].
    apply jsstring_eqb_eq in Hs. now subst s'.
  - intros Hin. exists (Some slug). split; auto. apply jsstring_eqb_refl.
Qed.

Lemma blog_create_cases toLowerCase store title :
  let slug := normalize toLowerCase (trim title) in
  blog_create toLowerCase store title =
  if negb (titleValid (trim title)) || negb (nonEmpty slug)
  then Threw validationError
  else if slugTaken (Some slug) (map blog_slug store)
  then Threw (duplicateKeyError (lit "slug") slug)
  else Stored (store ++ [ {| blog_title := Some (trim title);
                             blog_slug := Some slug;
                             blog_titleModified := true |} ]).
Proof.
  intros slug. unfold blog_create, blog_pre_validate. simpl.
  destruct (trim title) as [|c t] eqn:Et; simpl; [reflexivity|].
  fold slug. destruct slug; reflexivity.
Qed.

(** X4.  When two titles normalize to the same non-empty slug, the first
    Content Item is created (201) on a store that does not hold that slug,
    and the second one is then refused with 409, the conflict naming the
    field [slug] and the slug, and the store is left as it was. *)
Theorem blog_same_slug_conflicts (toLowerCase : jsstring -> jsstring)
  (store : list blogDoc) (title1 title2 : jsstring) :
  let slug := normalize toLowerCase (trim title1) in
  titleValid (trim title1) = true -> titleValid (trim title2) = true ->
  normalize toLowerCase (trim title2) = slug -> slug <> [] ->
  ~ In (Some slug) (map blog_slug store) ->
  exists store1,
    post_blog toLowerCase store title1 = (success 201 None, store1)
    /\ In (Some slug) (map blog_slug store1)
    /\ post_blog toLowerCase store1 title2
       = ({| res_code := 409; res_success := false;
             res_message := Some (lit
               "A blog with this title already exists. Please use a unique title.");
             res_keyValue := Some (lit "slug", slug) |}, store1).
Proof.
  intros slug V1 V2 E2 Hne Hfree.
  assert (Hs : nonEmpty slug = true) by (destruct slug; [congruence|reflexivity]).
  eexists. split; [|split].
  - unfold post_blog. rewrite blog_create_cases. fold slug.
    rewrite V1, Hs. simpl.
    apply slugTaken_false_iff in Hfree. rewrite Hfree. reflexivity.
  - rewrite map_app. apply in_or_app. right. now left.
  - unfold post_blog. rewrite blog_create_cases. rewrite E2, V2, Hs. simpl.
    assert (T : slugTaken (Some slug)
                  (map blog_slug
                     (store ++ [ {| blog_title := Some (trim title1);
                                    blog_slug := Some slug;
                                    blog_titleModified := true |} ])) = true).
    { apply slugTaken_true_iff. rewrite map_app. apply in_or_app.
      right. now left. }
    rewrite T. reflexivity.
Qed.

Lemma blog_same_slug_conflicts_witness :
  exists store1,
    post_blog asciiLowerCase [] (lit "Hello, World!") = (success 201 None, store1)
    /\ In (Some (lit "hello-world")) (map blog_slug store1)
    /\ post_blog asciiLowerCase store1 (lit "  hello   world ")
       = ({| res_code := 409; res_success := false;
             res_message := Some (lit
               "A blog with this title already exists. Please use a unique title.");
             res_keyValue := Some (lit "slug", lit "hello-world") |}, store1).
Proof.
  apply (blog_same_slug_conflicts asciiLowerCase [] (lit "Hello, World!")
           (lit "  hello   world ")); try reflexivity.
  - discriminate.
  - intros [].
Defined.

(** X5.  Creation never breaks the unique index nor stores an empty slug:
    if the slugs of the stored Content Items are pairwise distinct and
    non-empty they still are after any create request, and a request that
    is not answered 201 leaves the store untouched.  A title without any
    letter or digit is answered 500. *)
Theorem post_blog_keeps_slugs_unique (toLowerCase : jsstring -> jsstring)
  (store : list blogDoc) (title : jsstring) :
  NoDup (map blog_slug store) ->
  Forall (fun d => truthyStr (blog_slug d) = true) store ->
  let result := post_blog toLowerCase store title in
  NoDup (map blog_slug (snd result))
  /\ Forall (fun d => truthyStr (blog_slug d) = true) (snd result)
  /\ (res_code (fst result) <> 201%Z -> snd result = store)
  /\ (normalize toLowerCase (trim title) = [] ->
      result = (failure 500 "Server error", store)).
Proof.
  intros Hnd Hall result. unfold result, post_blog.
  rewrite blog_create_cases.
  set (slug := normalize toLowerCase (trim title)).
  destruct (negb (titleValid (trim title)) || negb (nonEmpty slug)) eqn:V.
  - simpl. repeat split; auto.
  - apply orb_false_iff in V as [_ Vs]. apply negb_false_iff in Vs.
    destruct (slugTaken (Some slug) (map blog_slug store)) eqn:T; simpl.
    + repeat split; auto. intros E. rewrite E in Vs. discriminate.
    + apply slugTaken_false_iff in T. split; [|split; [|split]].
      * rewrite map_app. simpl. apply NoDup_app; auto.
        -- repeat constructor. intros [].
        -- intros x Hx [<- | []]. auto.
      * apply Forall_app. split; auto.
      * intros C. exfalso. apply C. reflexivity.
      * intros E. rewrite E in Vs. discriminate.
Qed.

Lemma post_blog_keeps_slugs_unique_witness :
  let store := [ {| blog_title := Some (lit "Hello World");
                    blog_slug := Some (lit "hello-world");
                    blog_titleModified := false |};
                 {| blog_title := Some (lit "News");
                    blog_slug := Some (lit "news");
                    blog_titleModified := false |} ] in
  (res_code (fst (post_blog asciiLowerCase store (lit "Release Notes")))
   = 201%Z
   /\ NoDup (map blog_slug
               (snd (post_blog asciiLowerCase store (lit "Release Notes"))))
   /\ Forall (fun d => truthyStr (blog_slug d) = true)
         (snd (post_blog asciiLowerCase store (lit "Release Notes"))))
  /\ (res_code (fst (post_blog asciiLowerCase store (lit "Hello, World!")))
      = 409%Z
      /\ snd (post_blog asciiLowerCase store (lit "Hello, World!")) = store).
Proof.
  intros store.
  assert (Hnd : NoDup (map blog_slug store)).
  { constructor; [intros [E | []]; discriminate E|].
    constructor; [intros []|constructor]. }
  assert (Hne : Forall (fun d => truthyStr (blog_slug d) = true) store)
    by (repeat constructor).
  split.
  - destruct (post_blog_keeps_slugs_unique asciiLowerCase store
                (lit "Release Notes") Hnd Hne) as (A & B & _).
    split; [vm_compute; reflexivity|]. split; [exact A | exact B].
  - destruct (post_blog_keeps_slugs_unique asciiLowerCase store
                (lit "Hello, World!") Hnd Hne) as (_ & _ & C & _).
    split; [vm_compute; reflexivity|]. apply C. vm_compute. discriminate.
Defined.

Lemma job_create_cases toLowerCase store title now :
  let slug := job_slug_at toLowerCase (trim title) now in
  job_create toLowerCase store title now =
  if negb (titleValid (trim title)) then Threw validationError
  else if slugTaken (Some slug) (map job_slug store)
  then Threw (duplicateKeyError (lit "slug") slug)
  else Stored (store ++ [ {| job_title := trim title;
                             job_slug := Some slug;
                             job_titleModified := true |} ]).
Proof. reflexivity. Qed.

(** X6.  Creating a Job Posting keeps the slugs of the store pairwise
    distinct, changes the store only when it answers 201, and answers 400
    exactly when the title is valid and the slug for that title and time is
    already stored. *)
Theorem post_job_keeps_slugs_unique (toLowerCase : jsstring -> jsstring)
  (store : list jobDoc) (title : jsstring) (now : Z) :
  NoDup (map job_slug store) ->
  let result := post_job toLowerCase store title now in
  NoDup (map job_slug (snd result))
  /\ (res_code (fst result) <> 201%Z -> snd result = store)
  /\ (res_code (fst result) = 400%Z
      <-> titleValid (trim title) = true
          /\ In (Some (job_slug_at toLowerCase (trim title) now))
                (map job_slug store)).
Proof.
  intros Hnd result. unfold result, post_job.
  rewrite job_create_cases.
  set (slug := job_slug_at toLowerCase (trim title) now).
  destruct (titleValid (trim title)); simpl.
  - destruct (slugTaken (Some slug) (map job_slug store)) eqn:T; simpl.
    + apply slugTaken_true_iff in T. repeat split; auto.
    + apply slugTaken_false_iff in T. split; [|split; [|split]].
      * rewrite map_app. simpl. apply NoDup_app; auto.
        -- repeat constructor. intros [].
        -- intros x Hx [<- | []]. auto.
      * intros C. exfalso. apply C. reflexivity.
      * discriminate.
      * intros [_ Hin]. contradiction.
  - repeat split; auto; try discriminate. intros [C _]. discriminate.
Qed.

Lemma post_job_keeps_slugs_unique_witness :
  let store := [ {| job_title := lit "Designer";
                    job_slug := Some (lit "designer-1730600000000");
                    job_titleModified := false |};
                 {| job_title := lit "Tester";
                    job_slug := Some (lit "tester-1730600000000");
                    job_titleModified := false |} ] in
  (res_code (fst (post_job asciiLowerCase store (lit "Designer")
                    1730600000000)) = 400%Z
   /\ snd (post_job asciiLowerCase store (lit "Designer") 1730600000000)
      = store)
  /\ (res_code (fst (post_job asciiLowerCase store (lit "Designer")
                       1730600000001)) = 201%Z
      /\ NoDup (map job_slug
                  (snd (post_job asciiLowerCase store (lit "Designer")
                          1730600000001)))).
Proof.
  intros store.
  assert (Hnd : NoDup (map job_slug store)).
  { constructor; [intros [E | []]; discriminate E|].
    constructor; [intros []|constructor]. }
  split.
  - destruct (post_job_keeps_slugs_unique asciiLowerCase store
                (lit "Designer") 1730600000000 Hnd) as (_ & B & C).
    assert (E : res_code (fst (post_job asciiLowerCase store (lit "Designer")
                                 1730600000000)) = 400%Z).
    { apply C. split; [vm_compute; reflexivity|]. left. vm_compute.
      reflexivity. }
    split; [exact E|]. apply B. rewrite E. discriminate.
  - destruct (post_job_keeps_slugs_unique asciiLowerCase store
                (lit "Designer") 1730600000001 Hnd) as (A & _ & _).
    split; [vm_compute; reflexivity | exact A].
Defined.

(** ** Bearer tokens and the two middlewares *)

Lemma cutAtSpace_no_space w :
  ~ In 32%N w -> cutAtSpace w = (w, None).
Proof.
  induction w as [|c w IH]; intros H; simpl; auto.
  destruct (N.eqb_spec c 32) as [->|Hc].
  - exfalso. apply H. now left.
  - rewrite IH; auto. intros Hin. apply H. now right.
Qed.

Lemma cutAtSpace_at_space w rest :
  ~ In 32%N w -> cutAtSpace (w ++ 32%N :: rest) = (w, Some rest).
Proof.
  induction w as [|c w IH]; intros H; simpl; auto.
  destruct (N.eqb_spec c 32) as [->|Hc].
  - exfalso. apply H. now left.
  - rewrite IH; auto. intros Hin. apply H. now right.
Qed.

Lemma cutAtSpace_word s : ~ In 32%N (fst (cutAtSpace s)).
Proof.
  induction s as [|c s IH]; simpl; auto.
  destruct (N.eqb_spec c 32) as [->|Hc]; simpl; auto.
  destruct (cutAtSpace s) as [w rest]. simpl in *.
  intros [E | Hin]; auto.
Qed.

Lemma startsWith_prefix prefix s :
  startsWith prefix s = true -> exists rest, s = prefix ++ rest.
Proof.
  revert s. induction prefix as [|p prefix IH]; intros s H; simpl in *.
  - now exists s.
  - destruct s as [|c s]; [discriminate|].
    apply andb_true_iff in H as [Hc H]. apply N.eqb_eq in Hc. subst c.
    destruct (IH s H) as [rest ->]. now exists rest.
Qed.

Lemma startsWith_app_l prefix w rest :
  startsWith prefix w = true -> startsWith prefix (w ++ rest) = true.
Proof.
  intros H. apply startsWith_prefix in H as [r ->].
  rewrite <- app_assoc. apply startsWith_app.
Qed.

Lemma secondField_token (word token : jsstring) :
  ~ In 32%N word -> ~ In 32%N token ->
  secondField (word ++ 32%N :: token) = Some token
  /\ forall more, secondField (word ++ 32%N :: token ++ 32%N :: more)
                  = Some token.
Proof.
  intros Hw Ht. unfold secondField, jsstring, code in *.
  split; [|intros more].
  - rewrite (cutAtSpace_at_space word token Hw). simpl.
    now rewrite (cutAtSpace_no_space token Ht).
  - rewrite (cutAtSpace_at_space word _ Hw). simpl.
    now rewrite (cutAtSpace_at_space token more Ht).
Qed.

Lemma bearerToken_of_field header token :
  startsWith (lit "Bearer") header = true ->
  secondField header = Some token -> token <> [] ->
  bearerToken (Some header) = Some token.
Proof.
  intros Hp Hf Hne. unfold bearerToken. rewrite Hp, Hf.
  destruct token; [congruence|reflexivity].
Qed.

(** X7.  The token read from an [Authorization] header is never empty and
    holds no space, and the header starts with [Bearer].  Conversely a
    header made of a first word that starts with [Bearer], a space and a
    non-empty token without spaces, possibly followed by a space and more
    text, yields that token; only the prefix [Bearer] of the first word is
    checked. *)
Theorem bearerToken_round_trip (word token more : jsstring) :
  startsWith (lit "Bearer") word = true ->
  ~ In 32%N word -> ~ In 32%N token -> token <> [] ->
  bearerToken (Some (word ++ 32%N :: token)) = Some token
  /\ bearerToken (Some (word ++ 32%N :: token ++ 32%N :: more)) = Some token
  /\ (forall header t,
         bearerToken (Some header) = Some t ->
         t <> [] /\ ~ In 32%N t /\ exists rest, header = lit "Bearer" ++ rest).
Proof.
  intros Hp Hw Ht Hne.
  destruct (secondField_token word token Hw Ht) as [F1 F2].
  split; [|split].
  - apply bearerToken_of_field; auto. now apply startsWith_app_l.
  - apply bearerToken_of_field; auto. now apply startsWith_app_l.
  - intros header t H. unfold bearerToken in H.
    destruct (startsWith (lit "Bearer") header) eqn:Hh; [|discriminate].
    unfold secondField in H.
    destruct (snd (cutAtSpace header)) as [rest|]; [|discriminate].
    pose proof (cutAtSpace_word rest) as Hw'.
    destruct (fst (cutAtSpace rest)) as [|c w]; [discriminate|].
    injection H as <-. split; [discriminate|]. split; auto.
    now apply startsWith_prefix.
Qed.

Lemma bearerToken_round_trip_witness :
  bearerToken (Some (lit "Bearer" ++ 32%N :: lit "eyJhbGciOi.payload.sig"))
  = Some (lit "eyJhbGciOi.payload.sig").
Proof.
  refine (proj1 (bearerToken_round_trip (lit "Bearer")
                   (lit "eyJhbGciOi.payload.sig") [] eq_refl _ _ _)).
  - vm_compute. intuition discriminate.
  - vm_compute. intuition discriminate.
  - discriminate.
Defined.

(** X8.  The two middlewares resolve the same identity: whenever [protect]
    lets a request through, [optionalAuth] passes the same [req.user];
    whenever [optionalAuth] resolves an identity, [protect] lets the
    request through with it; and the only answer [protect] ever gives is
    the 401, in which case [optionalAuth] goes on without identity. *)
Theorem protect_agrees_with_optionalAuth (payload : Type)
  (jwt_verify : jsstring -> option payload)
  (findById : payload -> option (option user))
  (authorization : option jsstring) :
  (forall req_user,
      protect jwt_verify findById authorization = Next req_user ->
      optionalAuth jwt_verify findById authorization = Next req_user)
  /\ (forall u,
         optionalAuth jwt_verify findById authorization = Next (Some u) ->
         protect jwt_verify findById authorization = Next (Some u))
  /\ (forall r,
         protect jwt_verify findById authorization = Answered r ->
         r = unauthorized
         /\ optionalAuth jwt_verify findById authorization = Next None).
Proof.
  unfold protect, optionalAuth.
  destruct (bearerToken authorization) as [token|];
    [destruct (jwt_verify token) as [decoded|];
     [destruct (findById decoded) as [found|]|]|];
    repeat split; intros; try discriminate; try congruence.
Qed.

Lemma protect_agrees_with_optionalAuth_witness :
  let admin := {| user_id := 7%N; user_role := lit "admin" |} in
  optionalAuth (fun _ => Some tt) (fun _ => Some (Some admin))
    (Some (lit "Bearer abc")) = Next (Some admin).
Proof.
  intros admin.
  apply (proj1 (protect_agrees_with_optionalAuth unit (fun _ => Some tt)
                  (fun _ => Some (Some admin)) (Some (lit "Bearer abc")))).
  reflexivity.
Defined.

Lemma authorize_passes roles req_user req_user' :
  authorize roles req_user = Next req_user' ->
  req_user' = req_user
  /\ exists u, req_user = Some u /\ In (user_role u) roles.
Proof.
  unfold authorize. destruct req_user as [u|]; [|discriminate].
  destruct (existsb (jsstring_eqb (user_role u)) roles) eqn:E; [|discriminate].
  intros H. injection H as <-. split; auto. exists u. split; auto.
  apply existsb_exists in E as (r & Hin & Hr).
  apply jsstring_eqb_eq in Hr. now rewrite Hr.
Qed.

(** ** Names that reach the file system *)

Lemma includes_found needle hay :
  includes needle hay = true ->
  exists before after, hay = before ++ needle ++ after.
Proof.
  induction hay as [|c hay IH]; simpl; intros H.
  - rewrite orb_false_r in H. apply startsWith_prefix in H as [rest E].
    exists [], rest. exact E.
  - apply orb_true_iff in H as [H | H].
    + apply startsWith_prefix in H as [rest E]. exists [], rest. exact E.
    + destruct (IH H) as (before & after & ->).
      now exists (c :: before), after.
Qed.

Lemma includes_false_iff needle hay :
  includes needle hay = false <->
  ~ exists before after, hay = before ++ needle ++ after.
Proof.
  split.
  - intros H (before & after & ->). rewrite includes_infix in H. discriminate.
  - intros H. apply not_true_is_false. intros T.
    apply H. now apply includes_found.
Qed.

Lemma safeName_true raw :
  safeName raw = true <->
  raw <> [] /\ Forall (fun c => safeChar c = true) raw.
Proof.
  unfold safeName. destruct raw as [|c raw].
  - split; [discriminate|]. intros [H _]. congruence.
  - rewrite forallb_forall, Forall_forall. split.
    + intros H. split; [discriminate|exact H].
    + tauto.
Qed.

Lemma safe_excludes c raw :
  safeChar c = false -> Forall (fun x => safeChar x = true) raw ->
  includes [c] raw = false.
Proof.
  intros Hc Hall. apply includes_false_iff. intros (before & after & ->).
  apply Forall_app in Hall as [_ Hall]. inversion Hall as [|? ? Hx _].
  congruence.
Qed.

Lemma deleteMediaHandler_cases basename unlink raw :
  deleteMediaHandler basename unlink raw =
  if safeName raw && negb (includes (lit "..") raw)
  then match unlink (basename raw) with
       | Removed => (success 200 (Some (lit "File deleted")), [basename raw])
       | ENOENT => (failure 404 "File not found", [basename raw])
       | Failed => (failure 500 "Failed to delete media", [basename raw])
       end
  else (failure 400 "Invalid filename", []).
Proof.
  unfold deleteMediaHandler.
  destruct (safeName raw) eqn:S; simpl.
  - apply safeName_true in S as [_ Hall].
    change (lit "/") with [47%N]. change (lit "\") with [92%N].
    assert (A : includes ([47%N] : jsstring) raw = false)
      by (apply safe_excludes; auto).
    assert (B : includes ([92%N] : jsstring) raw = false)
      by (apply safe_excludes; auto).
    unfold jsstring, code in *. rewrite A, B. simpl.
    destruct (includes (lit "..") raw); reflexivity.
  - destruct (_ || _); reflexivity.
Qed.

(** X9.  The handler that deletes a file by name hands a name to the file
    system exactly when the name is non-empty, made only of letters,
    digits, underscore, dot, hyphen and space, and has no two dots in a
    row; it then makes a single call, for [path.basename] of the name, and
    otherwise answers 400.  The checks for [/] and [\] reject nothing that
    the allow-list would accept. *)
Theorem deleteMedia_reaches_storage_iff (basename : jsstring -> jsstring)
  (unlink : jsstring -> unlinked) (raw : jsstring) :
  let result := deleteMediaHandler basename unlink raw in
  (snd result <> []
   <-> raw <> [] /\ Forall (fun c => safeChar c = true) raw
       /\ ~ exists before after, raw = before ++ lit ".." ++ after)
  /\ (snd result = [] -> result = (failure 400 "Invalid filename", []))
  /\ (snd result <> [] ->
      snd result = [basename raw] /\ res_code (fst result) <> 400%Z).
Proof.
  intros result. unfold result. rewrite deleteMediaHandler_cases.
  destruct (safeName raw) eqn:S; simpl.
  - destruct (includes (lit "..") raw) eqn:D; simpl.
    + apply includes_found in D. split; [|split].
      * split; [intros H; now contradiction H|].
        intros (_ & _ & H). contradiction.
      * reflexivity.
      * intros H. now contradiction H.
    + apply includes_false_iff in D. apply safeName_true in S as [Hne Hall].
      destruct (unlink (basename raw)); simpl; (split; [|split]);
        try (split; [auto | discriminate]);
        try discriminate;
        intros _; split; auto; discriminate.
  - split; [|split].
    + split; [intros H; now contradiction H|].
      intros (Hne & Hall & _).
      assert (safeName raw = true) by (apply safeName_true; auto). congruence.
    + reflexivity.
    + intros H. now contradiction H.
Qed.

(** X10.  On the whole delete route the file system is reached only for a
    caller whose token verifies, whose user exists and holds the [admin]
    role. *)
Theorem deleteMedia_only_for_admin (basename : jsstring -> jsstring)
  (unlink : jsstring -> unlinked) (payload : Type)
  (jwt_verify : jsstring -> option payload)
  (findById : payload -> option (option user))
  (authorization : option jsstring) (raw : jsstring) :
  snd (deleteMediaRoute basename unlink payload jwt_verify findById
         authorization raw) <> [] ->
  exists token decoded u,
    bearerToken authorization = Some token
    /\ jwt_verify token = Some decoded
    /\ findById decoded = Some (Some u)
    /\ user_role u = lit "admin".
Proof.
  unfold deleteMediaRoute, protect.
  destruct (bearerToken authorization) as [token|] eqn:B; simpl; [|congruence].
  destruct (jwt_verify token) as [decoded|] eqn:V; simpl; [|congruence].
  destruct (findById decoded) as [found|] eqn:F; simpl; [|congruence].
  destruct (authorize [lit "admin"] found) as [r|ru] eqn:A; simpl; [congruence|].
  intros _. apply authorize_passes in A as (_ & u & -> & Hin).
  exists token, decoded, u. repeat split; auto.
  destruct Hin as [E | []]. now symmetry.
Qed.

Lemma deleteMedia_only_for_admin_witness :
  exists token decoded u,
    bearerToken (Some (lit "Bearer abc")) = Some token
    /\ (fun _ : jsstring => Some tt) token = Some decoded
    /\ (fun _ : unit => Some (Some {| user_id := 7%N; user_role := lit "admin" |}))
         decoded = Some (Some u)
    /\ user_role u = lit "admin".
Proof.
  apply (deleteMedia_only_for_admin (fun s => s) (fun _ => Removed) unit
           (fun _ => Some tt)
           (fun _ => Some (Some {| user_id := 7%N; user_role := lit "admin" |}))
           (Some (lit "Bearer abc")) (lit "images-1-2.png")).
  discriminate.
Defined.

Lemma deleteMedia_reaches_storage_iff_witness :
  snd (deleteMediaHandler (fun s => s) (fun _ => Removed) (lit "team photo-1.png"))
  = [lit "team photo-1.png"]
  /\ res_code (fst (deleteMediaHandler (fun s => s) (fun _ => Removed)
                      (lit "team photo-1.png"))) <> 400%Z.
Proof.
  apply (proj2 (proj2 (deleteMedia_reaches_storage_iff (fun s => s)
                         (fun _ => Removed) (lit "team photo-1.png")))).
  discriminate.
Defined.

(** ** Upload intake *)

Lemma decimalZ_plain z :
  Forall (fun c => safeChar c = true /\ c <> 46%N) (decimalZ z).
Proof.
  assert (D : forall n, Forall (fun c => safeChar c = true /\ c <> 46%N)
                          (decimalN n)).
  { intros n. eapply Forall_impl; [|apply decimalN_digits].
    intros c Hc. split.
    - unfold safeChar. rewrite Hc. now rewrite !orb_true_r.
    - intros ->. discriminate Hc. }
  destruct z; simpl; auto. constructor; auto. split; [reflexivity|discriminate].
Qed.

Lemma includes_dots_skip (a b : jsstring) :
  ~ In 46%N a -> includes (lit "..") (a ++ b) = includes (lit "..") b.
Proof.
  induction a as [|x a IH]; intros H; auto.
  change ((x :: a) ++ b) with (x :: (a ++ b)).
  change (includes (lit "..") (x :: a ++ b))
    with (startsWith (lit "..") (x :: a ++ b) || includes (lit "..") (a ++ b)).
  rewrite IH by (intros Hin; apply H; now right).
  assert (Hx : N.eqb 46 x = false).
  { apply N.eqb_neq. intros E. apply H. now left. }
  assert (S : startsWith (lit "..") (x :: a ++ b) = false).
  { change (N.eqb 46 x && startsWith [46%N] (a ++ b) = false).
    now rewrite Hx. }
  now rewrite S.
Qed.

Lemma uploadFilename_prefix_plain fieldname now rnd :
  fieldname = lit "image" \/ fieldname = lit "images" ->
  Forall (fun c => safeChar c = true /\ c <> 46%N)
    (fieldname ++ lit "-" ++ (decimalZ now ++ lit "-" ++ decimalZ rnd)).
Proof.
  intros Hf. repeat (apply Forall_app; split); try apply decimalZ_plain.
  - destruct Hf as [-> | ->]; repeat constructor; discriminate.
  - repeat constructor; discriminate.
  - repeat constructor; discriminate.
Qed.

(** X11.  A file stored by the upload middleware can be deleted through
    the delete route exactly when the extension taken from the client's
    file name is made of allow-list characters and has no two dots in a
    row: the generated part of the name (field name, timestamp, random
    number) always passes the checks. *)
Theorem uploaded_name_deletable_iff (basename : jsstring -> jsstring)
  (unlink : jsstring -> unlinked) (fieldname : jsstring) (now rnd : Z)
  (ext : jsstring) :
  fieldname = lit "image" \/ fieldname = lit "images" ->
  let name := uploadFilename fieldname now rnd ext in
  (snd (deleteMediaHandler basename unlink name) = [basename name]
   <-> Forall (fun c => safeChar c = true) ext
       /\ ~ exists before after, ext = before ++ lit ".." ++ after)
  /\ (snd (deleteMediaHandler basename unlink name) <> [basename name] ->
      deleteMediaHandler basename unlink name
      = (failure 400 "Invalid filename", [])).
Proof.
  intros Hf name.
  pose proof (uploadFilename_prefix_plain fieldname now rnd Hf) as Hp.
  set (prefix := fieldname ++ lit "-"
                   ++ (decimalZ now ++ lit "-" ++ decimalZ rnd)) in *.
  assert (En : name = prefix ++ ext).
  { unfold name, uploadFilename, prefix. now rewrite <- !app_assoc. }
  assert (Hne : prefix <> []).
  { unfold prefix. destruct Hf as [-> | ->]; discriminate. }
  assert (Hsafe : safeName name = true
                  <-> Forall (fun c => safeChar c = true) ext).
  { rewrite safeName_true, En. split.
    - intros [_ H]. now apply Forall_app in H.
    - intros H. split.
      + destruct prefix; [congruence|discriminate].
      + apply Forall_app. split; auto.
        eapply Forall_impl; [|exact Hp]. tauto. }
  assert (Hdots : includes (lit "..") name = includes (lit "..") ext).
  { rewrite En. apply includes_dots_skip. intros Hin.
    rewrite Forall_forall in Hp. now destruct (Hp _ Hin). }
  rewrite deleteMediaHandler_cases, Hdots.
  destruct (safeName name) eqn:S; simpl.
  - destruct (includes (lit "..") ext) eqn:D; simpl.
    + apply includes_found in D. split.
      * split; [discriminate|]. intros [_ H]. contradiction.
      * reflexivity.
    + apply includes_false_iff in D.
      assert (Forall (fun c => safeChar c = true) ext) by now apply Hsafe.
      destruct (unlink (basename name)); simpl; split;
        try (split; [auto|reflexivity]); intros H'; now contradiction H'.
  - split; [|reflexivity].
    split; [discriminate|]. intros [H _]. apply Hsafe in H. congruence.
Qed.

Lemma uploaded_name_deletable_iff_witness :
  snd (deleteMediaHandler (fun s => s) (fun _ => Removed)
         (uploadFilename (lit "images") 1730600000000 123456789 (lit ".png")))
  = [lit "images-1730600000000-123456789.png"].
Proof.
  apply (proj1 (uploaded_name_deletable_iff (fun s => s) (fun _ => Removed)
                  (lit "images") 1730600000000 123456789 (lit ".png")
                  (or_intror eq_refl))).
  split.
  - repeat constructor.
  - apply includes_false_iff. reflexivity.
Defined.

(** An upload whose original name ends in an extension outside the
    allow-list is stored under a name that the delete route refuses. *)
Example uploaded_name_not_deletable :
  deleteMediaHandler (fun s => s) (fun _ => Removed)
    (uploadFilename (lit "image") 1730600000000 42 (lit ".p+g"))
  = (failure 400 "Invalid filename", []).
Proof. reflexivity. Qed.

(** X12.  A file that the filter refuses, because its declared type does
    not start with [image/], is answered 400 with the filter's message by
    the error middleware.  Every answer of that middleware is a 400, and
    it passes on exactly the errors that are neither one of the two
    recognised Multer codes nor carry the filter's message. *)
Theorem upload_errors_answered_400 (err : uploadError) :
  (forall mimetype e,
      fileFilter mimetype = Some e ->
      startsWith (lit "image/") mimetype = false
      /\ handleUploadError e
         = Reply {| res_code := 400; res_success := false;
                    res_message := Some notAnImage; res_keyValue := None |})
  /\ (forall r, handleUploadError err = Reply r -> res_code r = 400%Z)
  /\ (forall e', handleUploadError err = Go e' ->
         e' = err
         /\ upload_message err <> notAnImage
         /\ (upload_isMulter err = true ->
             upload_code err <> lit "LIMIT_FILE_SIZE"
             /\ upload_code err <> lit "LIMIT_FILE_COUNT")).
Proof.
  split; [|split].
  - intros mimetype e H. unfold fileFilter in H.
    destruct (startsWith (lit "image/") mimetype); [discriminate|].
    injection H as <-. split; reflexivity.
  - intros r H. unfold handleUploadError in H.
    repeat match type of H with
           | (if ?c then _ else _) = _ => destruct c
           end; try discriminate; injection H as <-; reflexivity.
  - intros e' H. unfold handleUploadError in H.
    destruct (upload_isMulter err) eqn:M; simpl in H.
    + destruct (jsstring_eqb (upload_code err) (lit "LIMIT_FILE_SIZE")) eqn:C1;
        [discriminate|].
      destruct (jsstring_eqb (upload_code err) (lit "LIMIT_FILE_COUNT")) eqn:C2;
        [discriminate|].
      destruct (jsstring_eqb (upload_message err) notAnImage) eqn:C3;
        [discriminate|].
      injection H as <-. repeat split; auto; intros E;
        apply jsstring_eqb_eq in E; congruence.
    + destruct (jsstring_eqb (upload_message err) notAnImage) eqn:C3;
        [discriminate|].
      injection H as <-. repeat split; auto; try discriminate.
      intros E. apply jsstring_eqb_eq in E. congruence.
Qed.

Lemma upload_errors_answered_400_witness :
  handleUploadError {| upload_isMulter := false; upload_code := [];
                       upload_message := notAnImage |}
  = Reply {| res_code := 400; res_success := false;
             res_message := Some notAnImage; res_keyValue := None |}.
Proof.
  apply (proj1 (upload_errors_answered_400
                  {| upload_isMulter := false; upload_code := [];
                     upload_message := notAnImage |})
           (lit "application/pdf")).
  reflexivity.
Defined.

(** ** Comments: adding, deleting, and what stays untouched *)

Lemma post_eta p :
  {| post_id := post_id p; post_author := post_author p;
     post_comments := post_comments p |} = p.
Proof. now destruct p. Qed.

Lemma split_at_post store p :
  NoDup (map post_id store) -> In p store ->
  exists l1 l2,
    store = l1 ++ p :: l2
    /\ Forall (fun q => N.eqb (post_id q) (post_id p) = false) l1.
Proof.
  induction store as [|x store IH]; intros Hnd Hin; [contradiction|].
  inversion_clear Hnd as [|? ? Hx Hs].
  destruct Hin as [-> | Hin].
  - now exists [], store.
  - destruct (IH Hs Hin) as (l1 & l2 & -> & Hl).
    exists (x :: l1), l2. split; auto. constructor; auto.
    apply N.eqb_neq. intros E. apply Hx. rewrite E.
    apply in_map. apply in_elt.
Qed.

Lemma pushComment_at l1 p l2 cm :
  Forall (fun q => N.eqb (post_id q) (post_id p) = false) l1 ->
  pushComment (l1 ++ p :: l2) (post_id p) cm
  = l1 ++ {| post_id := post_id p; post_author := post_author p;
             post_comments := post_comments p ++ [cm] |} :: l2.
Proof.
  induction 1 as [|x l1 Hx Hl IH]; simpl.
  - now rewrite N.eqb_refl.
  - rewrite Hx. now rewrite IH.
Qed.

Lemma pullComment_at l1 p l2 c :
  Forall (fun q => N.eqb (post_id q) (post_id p) = false) l1 ->
  pullComment (l1 ++ p :: l2) (post_id p) c
  = l1 ++ {| post_id := post_id p; post_author := post_author p;
             post_comments :=
               filter (fun cm => negb (N.eqb (comment_id cm) c))
                      (post_comments p) |} :: l2.
Proof.
  induction 1 as [|x l1 Hx Hl IH]; simpl.
  - now rewrite N.eqb_refl.
  - rewrite Hx. now rewrite IH.
Qed.

Lemma find_post_at l1 p l2 :
  Forall (fun q => N.eqb (post_id q) (post_id p) = false) l1 ->
  find (fun q => N.eqb (post_id q) (post_id p)) (l1 ++ p :: l2) = Some p.
Proof.
  induction 1 as [|x l1 Hx Hl IH]; simpl.
  - now rewrite N.eqb_refl.
  - now rewrite Hx.
Qed.

Lemma filter_fresh c cs :
  (forall cm, In cm cs -> comment_id cm <> c) ->
  filter (fun cm => negb (N.eqb (comment_id cm) c)) cs = cs.
Proof.
  induction cs as [|x cs IH]; intros H; simpl; auto.
  assert (Hx : N.eqb (comment_id x) c = false)
    by (apply N.eqb_neq, H; now left).
  rewrite Hx. simpl. rewrite IH; auto. intros cm Hin. apply H. now right.
Qed.

Lemma deleteCommentHandler_present parseObjectId u id commentId store p cm :
  parseObjectId id = Some (post_id p) ->
  parseObjectId commentId = Some (comment_id cm) ->
  NoDup (map post_id store) -> NoDup (map comment_id (post_comments p)) ->
  In p store -> In cm (post_comments p) ->
  deleteCommentHandler parseObjectId (Some u) id commentId store
  = if negb (isOwner cm u) && negb (isAdmin u) && negb (isBlogAuthor p u)
    then (failure 403 "Not authorized to delete this comment", store)
    else (success 200 None, pullComment store (post_id p) (comment_id cm)).
Proof.
  intros Hb Hc Hs Hcs Hp Hcm. unfold deleteCommentHandler.
  rewrite Hb, Hc. simpl.
  rewrite (findBlogWithComment_present store p cm Hs Hcs Hp Hcm). simpl.
  unfold isBlogAuthor. simpl.
  destruct (negb (isOwner cm u) && negb (isAdmin u)
            && negb (sameId (post_author p) (user_id u))); reflexivity.
Qed.

(** X13.  A caller can always take back a comment they have just added:
    adding a comment to an existing post is answered 200, and deleting the
    new comment with the same identity is answered 200 and gives back the
    store as it was before the comment.  The new identifier is fresh among
    the comments of the post. *)
Theorem comment_added_then_deleted
  (parseObjectId : jsstring -> option ObjectId) (newId : ObjectId)
  (u : user) (id commentId text : jsstring) (store : list blogPost)
  (p : blogPost) :
  parseObjectId id = Some (post_id p) ->
  parseObjectId commentId = Some newId ->
  NoDup (map post_id store) -> In p store ->
  NoDup (map comment_id (post_comments p)) ->
  (forall cm, In cm (post_comments p) -> comment_id cm <> newId) ->
  exists store1,
    addCommentHandler parseObjectId newId (Some u) id text store
    = (success 200 None, store1)
    /\ store1 <> store
    /\ deleteCommentHandler parseObjectId (Some u) id commentId store1
       = (success 200 None, store).
Proof.
  intros Hb Hc Hs Hp Hcs Hfresh.
  destruct (split_at_post store p Hs Hp) as (l1 & l2 & -> & Hl1).
  set (new := {| comment_id := newId; comment_user := Some (user_id u);
                 comment_text := text |}).
  set (p1 := {| post_id := post_id p; post_author := post_author p;
                post_comments := post_comments p ++ [new] |}).
  exists (l1 ++ p1 :: l2). split; [|split].
  - unfold addCommentHandler. rewrite Hb, (find_post_at l1 p l2 Hl1).
    now rewrite pushComment_at.
  - intros E. apply app_inv_head in E. injection E as E.
    apply (f_equal (fun q => List.length (post_comments q))) in E.
    unfold p1 in E. simpl in E. rewrite length_app in E. simpl in E. lia.
  - assert (P : pullComment (l1 ++ p1 :: l2) (post_id p1) (comment_id new)
                = l1 ++ p :: l2).
    { rewrite (pullComment_at l1 p1 l2 (comment_id new) Hl1).
      unfold p1, new. simpl. rewrite filter_app. simpl.
      rewrite N.eqb_refl. simpl. rewrite app_nil_r.
      rewrite filter_fresh by exact Hfresh.
      now rewrite post_eta. }
    assert (O : isOwner new u = true).
    { unfold isOwner, new. simpl. apply N.eqb_refl. }
    rewrite (deleteCommentHandler_present parseObjectId u id commentId
               (l1 ++ p1 :: l2) p1 new); auto.
    + rewrite O. cbn [negb andb]. now rewrite P.
    + rewrite map_app in *. simpl in *. exact Hs.
    + unfold p1. simpl. rewrite map_app. simpl.
      apply NoDup_app; auto.
      * repeat constructor. intros [].
      * intros x Hx [<- | []]. apply in_map_iff in Hx as (cm & E & Hin).
        exact (Hfresh cm Hin E).
    + apply in_elt.
    + unfold p1. simpl. apply in_or_app. right. now left.
Qed.

Lemma comment_added_then_deleted_witness :
  let parse := fun s : jsstring => Some (N.of_nat (List.length s)) in
  let reader := {| user_id := 9%N; user_role := lit "user" |} in
  let p := {| post_id := 1%N; post_author := Some 7%N; post_comments := [] |} in
  exists store1,
    addCommentHandler parse 2%N (Some reader) (lit "a") (lit "Nice post") [p]
    = (success 200 None, store1)
    /\ store1 <> [p]
    /\ deleteCommentHandler parse (Some reader) (lit "a") (lit "ab") store1
       = (success 200 None, [p]).
Proof.
  intros parse reader p.
  apply (comment_added_then_deleted parse 2%N reader (lit "a") (lit "ab")
           (lit "Nice post") [p] p eq_refl eq_refl).
  - constructor; [intros []|constructor].
  - now left.
  - constructor.
  - intros cm [].
Defined.

Lemma deleteCommentHandler_200 parseObjectId req_user id commentId store :
  res_code (fst (deleteCommentHandler parseObjectId req_user id commentId
                   store)) = 200%Z ->
  exists b c,
    parseObjectId id = Some b /\ parseObjectId commentId = Some c
    /\ deleteCommentHandler parseObjectId req_user id commentId store
       = (success 200 None, pullComment store b c).
Proof.
  unfold deleteCommentHandler.
  destruct (parseObjectId id) as [b|]; [|discriminate].
  destruct (parseObjectId commentId) as [c|]; [|discriminate]. simpl.
  destruct (findBlogWithComment store b c) as [bw|]; [|discriminate]. simpl.
  destruct (hd_error (post_comments bw)) as [cm|]; [|discriminate]. simpl.
  destruct req_user as [u|]; [|discriminate]. simpl.
  destruct (negb (isOwner cm u) && negb (isAdmin u)
            && negb (isBlogAuthor bw u)); [discriminate|]. simpl.
  intros _. now exists b, c.
Qed.

Lemma deleteCommentHandler_not_200 parseObjectId req_user id commentId store :
  res_code (fst (deleteCommentHandler parseObjectId req_user id commentId
                   store)) <> 200%Z ->
  snd (deleteCommentHandler parseObjectId req_user id commentId store) = store.
Proof.
  unfold deleteCommentHandler.
  destruct (parseObjectId id) as [b|]; [|reflexivity].
  destruct (parseObjectId commentId) as [c|]; [|reflexivity]. simpl.
  destruct (findBlogWithComment store b c) as [bw|]; [|reflexivity]. simpl.
  destruct (hd_error (post_comments bw)) as [cm|]; [|reflexivity]. simpl.
  destruct req_user as [u|]; [|reflexivity]. simpl.
  destruct (negb (isOwner cm u) && negb (isAdmin u)
            && negb (isBlogAuthor bw u)); [reflexivity|]. simpl.
  intros H. now contradiction H.
Qed.

Lemma pullComment_gone store b c :
  NoDup (map post_id store) ->
  forall p cm, In p (pullComment store b c) -> post_id p = b ->
               In cm (post_comments p) -> comment_id cm <> c.
Proof.
  induction store as [|x store IH]; intros Hnd p cm Hp Hb Hcm; simpl in Hp;
    [contradiction|].
  inversion_clear Hnd as [|? ? Hx Hs].
  destruct (N.eqb_spec (post_id x) b) as [E|E].
  - destruct Hp as [<- | Hp].
    + simpl in Hcm. apply filter_In in Hcm as [_ Hcm].
      apply negb_true_iff, N.eqb_neq in Hcm. exact Hcm.
    + exfalso. apply Hx. rewrite E, <- Hb. now apply in_map.
  - destruct Hp as [<- | Hp]; [contradiction|]. eauto.
Qed.

Lemma pullComment_ids store b c :
  map post_id (pullComment store b c) = map post_id store.
Proof.
  induction store as [|x store IH]; simpl; auto.
  destruct (N.eqb (post_id x) b); simpl; congruence.
Qed.

(** X14.  A comment can be deleted once: after a deletion answered 200,
    the same request, from any caller, is answered 404 and changes
    nothing. *)
Theorem comment_deleted_once
  (parseObjectId : jsstring -> option ObjectId)
  (req_user req_user' : option user) (id commentId : jsstring)
  (store : list blogPost) :
  NoDup (map post_id store) ->
  let first := deleteCommentHandler parseObjectId req_user id commentId store in
  res_code (fst first) = 200%Z ->
  deleteCommentHandler parseObjectId req_user' id commentId (snd first)
  = (failure 404 "Blog or comment not found", snd first).
Proof.
  intros Hnd first H200. unfold first in *.
  apply deleteCommentHandler_200 in H200 as (b & c & Hb & Hc & ->). simpl.
  unfold deleteCommentHandler. rewrite Hb, Hc. simpl.
  rewrite findBlogWithComment_absent; [reflexivity|].
  intros p cm Hp Hpb Hcm. exact (pullComment_gone store b c Hnd p cm Hp Hpb Hcm).
Qed.

Lemma comment_deleted_once_witness :
  let parse := fun s : jsstring => Some (N.of_nat (List.length s)) in
  let admin := {| user_id := 3%N; user_role := lit "admin" |} in
  let cm := {| comment_id := 2%N; comment_user := Some 8%N;
               comment_text := lit "First!" |} in
  let p := {| post_id := 1%N; post_author := Some 7%N; post_comments := [cm] |} in
  deleteCommentHandler parse (Some admin) (lit "a") (lit "ab")
    (snd (deleteCommentHandler parse (Some admin) (lit "a") (lit "ab") [p]))
  = (failure 404 "Blog or comment not found",
     snd (deleteCommentHandler parse (Some admin) (lit "a") (lit "ab") [p])).
Proof.
  intros parse admin cm p.
  apply (comment_deleted_once parse (Some admin) (Some admin) (lit "a")
           (lit "ab") [p]).
  - constructor; [intros []|constructor].
  - reflexivity.
Defined.

Lemma Forall2_same {A : Type} (R : A -> A -> Prop) (l : list A) :
  (forall x, R x x) -> Forall2 R l l.
Proof. intros H. induction l; constructor; auto. Qed.

(** X15.  Deleting a comment never adds, removes or reorders posts, never
    changes an author and never invents a comment; a comment disappears
    only from a post whose identifier is the requested one and only if its
    own identifier is the requested one; and unless the answer is 200 the
    store is exactly what it was. *)
Theorem comment_deletion_touches_nothing_else
  (parseObjectId : jsstring -> option ObjectId) (req_user : option user)
  (id commentId : jsstring) (store : list blogPost) :
  let result := deleteCommentHandler parseObjectId req_user id commentId
                  store in
  map post_id (snd result) = map post_id store
  /\ map post_author (snd result) = map post_author store
  /\ (res_code (fst result) <> 200%Z -> snd result = store)
  /\ Forall2
       (fun p p' =>
          (forall cm, In cm (post_comments p') -> In cm (post_comments p))
          /\ (forall cm, In cm (post_comments p) ->
                         ~ In cm (post_comments p') ->
                         parseObjectId id = Some (post_id p)
                         /\ parseObjectId commentId = Some (comment_id cm)))
       store (snd result).
Proof.
  intros result.
  destruct (Z.eq_dec (res_code (fst result)) 200) as [H200 | Hn].
  - unfold result in *.
    destruct (deleteCommentHandler_200 _ _ _ _ _ H200)
      as (b & c & Hb & Hc & E).
    rewrite E. simpl. split; [apply pullComment_ids|]. split; [|split].
    + clear. induction store as [|x store IH]; simpl; auto.
      destruct (N.eqb (post_id x) b); simpl; congruence.
    + intros C. now contradiction C.
    + clear E H200. induction store as [|x store IH]; simpl; [constructor|].
      destruct (N.eqb_spec (post_id x) b) as [Ex|Ex].
      * constructor.
        -- simpl. split.
           ++ intros cm Hin. now apply filter_In in Hin.
           ++ intros cm Hin Hout. split; [congruence|].
              destruct (N.eqb_spec (comment_id cm) c) as [Ec|Ec]; [congruence|].
              exfalso. apply Hout. apply filter_In. split; auto.
              apply negb_true_iff. now apply N.eqb_neq.
        -- apply Forall2_same. intros p. split; auto. intros cm Hi Ho.
           contradiction.
      * constructor; auto. split; auto. intros cm Hi Ho. contradiction.
  - pose proof (deleteCommentHandler_not_200 _ _ _ _ _ Hn) as E.
    fold result in E. rewrite E. repeat split; auto.
    apply Forall2_same. intros p. split; auto. intros cm Hi Ho. contradiction.
Qed.

Lemma comment_deletion_touches_nothing_else_witness :
  let parse := fun s : jsstring => Some (N.of_nat (List.length s)) in
  let stranger := {| user_id := 9%N; user_role := lit "user" |} in
  let cm := {| comment_id := 2%N; comment_user := Some 8%N;
               comment_text := lit "First!" |} in
  let p := {| post_id := 1%N; post_author := Some 7%N; post_comments := [cm] |} in
  snd (deleteCommentHandler parse (Some stranger) (lit "a") (lit "ab") [p]) = [p].
Proof.
  intros parse stranger cm p.
  apply (proj1 (proj2 (proj2 (comment_deletion_touches_nothing_else parse
                                (Some stranger) (lit "a") (lit "ab") [p])))).
  discriminate.
Defined.

(** ** Likes *)

Lemma indexOf_none x l : indexOf x l = None <-> ~ In x l.
Proof.
  induction l as [|y l IH]; simpl.
  - split; auto.
  - destruct (N.eqb_spec y x) as [->|Hy].
    + split; [discriminate|]. intros H. exfalso. apply H. now left.
    + destruct (indexOf x l).
      * split; [discriminate|]. intros H. exfalso.
        assert (~ In x l) by tauto. apply IH in H0. discriminate.
      * split; auto. intros _ [E | Hin]; [congruence|]. now apply IH.
Qed.

Lemma indexOf_some x l i :
  indexOf x l = Some i ->
  exists l1 l2, l = l1 ++ x :: l2 /\ ~ In x l1 /\ removeAt i l = l1 ++ l2.
Proof.
  revert i. induction l as [|y l IH]; intros i H; simpl in H; [discriminate|].
  destruct (N.eqb_spec y x) as [->|Hy].
  - injection H as <-. now exists [], l.
  - destruct (indexOf x l) as [j|]; [|discriminate].
    injection H as <-. destruct (IH j eq_refl) as (l1 & l2 & -> & Hn & Hr).
    exists (y :: l1), l2. simpl. rewrite Hr. repeat split; auto.
    intros [E | Hin]; auto.
Qed.

Lemma toggleLike_cases likes uid :
  (~ In uid likes /\ toggleLike likes uid = (likes ++ [uid], true))
  \/ (exists l1 l2, likes = l1 ++ uid :: l2 /\ ~ In uid l1
                    /\ toggleLike likes uid = (l1 ++ l2, false)).
Proof.
  unfold toggleLike. destruct (indexOf uid likes) as [i|] eqn:E.
  - right. destruct (indexOf_some uid likes i E) as (l1 & l2 & H1 & H2 & H3).
    exists l1, l2. now rewrite H3.
  - left. split; auto. now apply indexOf_none.
Qed.

(** X16.  Toggling a like keeps every identity at most once in the list of
    likes, flips the membership of the caller and of nobody else, changes
    the count by exactly one, and reports [isLiked] as the membership of
    the caller after the toggle. *)
Theorem like_toggle_flips_membership (likes : list ObjectId) (uid : ObjectId) :
  NoDup likes ->
  let likes' := fst (toggleLike likes uid) in
  let isLiked := snd (toggleLike likes uid) in
  NoDup likes'
  /\ (In uid likes' <-> ~ In uid likes)
  /\ (isLiked = true <-> In uid likes')
  /\ (forall v, v <> uid -> (In v likes' <-> In v likes))
  /\ (if isLiked then List.length likes' = S (List.length likes)
      else S (List.length likes') = List.length likes).
Proof.
  intros Hnd likes' isLiked. unfold likes', isLiked.
  destruct (toggleLike_cases likes uid)
    as [[Hout E] | (l1 & l2 & -> & H1 & E)]; rewrite E; simpl.
  - split; [|split; [|split; [|split]]].
    + apply NoDup_app; auto.
      * repeat constructor. intros [].
      * intros x Hx [<- | []]. contradiction.
    + split; auto. intros _. apply in_or_app. right. now left.
    + split; auto. intros _. apply in_or_app. right. now left.
    + intros v Hv. rewrite in_app_iff. simpl. intuition congruence.
    + rewrite length_app. simpl. lia.
  - pose proof (NoDup_remove_1 _ _ _ Hnd) as Hnd'.
    pose proof (NoDup_remove_2 _ _ _ Hnd) as Hgone.
    split; [|split; [|split; [|split]]]; auto.
    + split; [contradiction|]. intros H. exfalso. apply H. apply in_elt.
    + split; [discriminate|contradiction].
    + intros v Hv. rewrite !in_app_iff. simpl. intuition congruence.
    + rewrite !length_app. simpl. lia.
Qed.

Lemma like_toggle_flips_membership_witness :
  NoDup (fst (toggleLike [3%N; 5%N; 8%N] 5%N)).
Proof.
  apply (like_toggle_flips_membership [3%N; 5%N; 8%N] 5%N).
  repeat constructor; simpl; intuition discriminate.
Defined.

Lemma split_at_first_mark (x : ObjectId) a b r1 r2 :
  ~ In x a -> ~ In x b -> a ++ x :: r1 = b ++ x :: r2 -> a = b /\ r1 = r2.
Proof.
  revert b. induction a as [|y a IH]; intros [|z b] H1 H2 E; simpl in E.
  - injection E as E. auto.
  - injection E as -> E. exfalso. apply H2. now left.
  - injection E as -> E. exfalso. apply H1. now left.
  - injection E as -> E.
    destruct (IH b) as [-> ->]; auto.
    + intros Hin. apply H1. now right.
    + intros Hin. apply H2. now right.
Qed.

(** X17.  Toggling a like twice gives back the same likes: the same
    members, each still at most once, and the same count; when the caller
    had not liked the post the list is exactly the original one, otherwise
    the caller has moved to the end. *)
Theorem like_toggled_twice (likes : list ObjectId) (uid : ObjectId) :
  NoDup likes ->
  let twice := fst (toggleLike (fst (toggleLike likes uid)) uid) in
  NoDup twice
  /\ (forall v, In v twice <-> In v likes)
  /\ List.length twice = List.length likes
  /\ (~ In uid likes -> twice = likes)
  /\ (In uid likes -> exists l1 l2, likes = l1 ++ uid :: l2
                                    /\ twice = l1 ++ l2 ++ [uid]).
Proof.
  intros Hnd twice. unfold twice.
  destruct (toggleLike_cases likes uid)
    as [[Hout E] | (l1 & l2 & -> & H1 & E)]; rewrite E; simpl.
  - destruct (toggleLike_cases (likes ++ [uid]) uid)
      as [[Hout' _] | (a & b & Ea & Ha & E')].
    + exfalso. apply Hout'. apply in_or_app. right. now left.
    + rewrite E'. simpl.
      apply split_at_first_mark in Ea as [<- <-]; auto.
      rewrite app_nil_r. repeat split; auto; tauto.
  - pose proof (NoDup_remove_1 _ _ _ Hnd) as Hnd'.
    pose proof (NoDup_remove_2 _ _ _ Hnd) as Hgone.
    destruct (toggleLike_cases (l1 ++ l2) uid)
      as [[_ E'] | (a & b & Ea & _ & _)].
    + rewrite E'. simpl. split; [|split; [|split; [|split]]].
      * apply NoDup_app; auto.
        -- repeat constructor. intros [].
        -- intros x Hx [<- | []]. contradiction.
      * intros v. rewrite !in_app_iff. simpl. tauto.
      * rewrite !length_app. simpl. lia.
      * intros H. exfalso. apply H. apply in_elt.
      * intros _. exists l1, l2. split; auto. now rewrite app_assoc.
    + exfalso. apply Hgone. rewrite Ea. apply in_elt.
Qed.

Lemma like_toggled_twice_witness :
  fst (toggleLike (fst (toggleLike [3%N; 8%N] 5%N)) 5%N) = [3%N; 8%N].
Proof.
  apply (like_toggled_twice [3%N; 8%N] 5%N).
  - repeat constructor; simpl; intuition discriminate.
  - simpl. intuition discriminate.
Defined.

Lemma setLikes_found store b likes p :
  find (fun q => N.eqb (liked_id q) b) store = Some p ->
  find (fun q => N.eqb (liked_id q) b) (setLikes store b likes)
  = Some {| liked_id := liked_id p; liked_likes := likes |}.
Proof.
  induction store as [|x store IH]; simpl; [discriminate|].
  destruct (N.eqb (liked_id x) b) eqn:E; simpl.
  - intros H. injection H as <-. now rewrite E.
  - rewrite E. exact IH.
Qed.

Lemma setLikes_other store b likes b' :
  b' <> b ->
  find (fun q => N.eqb (liked_id q) b') (setLikes store b likes)
  = find (fun q => N.eqb (liked_id q) b') store.
Proof.
  intros Hb. induction store as [|x store IH]; simpl; auto.
  destruct (N.eqb_spec (liked_id x) b) as [E|E]; simpl.
  - destruct (N.eqb_spec (liked_id x) b') as [E'|E']; [congruence|reflexivity].
  - now rewrite IH.
Qed.

(** X18.  The like route reports what it stores: for a resolved caller and
    an existing post the answer carries the new likes, their number and the
    caller's membership, a later lookup of the post finds exactly those
    likes, and the likes of every other post are unchanged.  A post that
    is not found is answered 404 with the store untouched. *)
Theorem like_route_reports_stored_state
  (parseObjectId : jsstring -> option ObjectId) (u : user) (id : jsstring)
  (store : list likedPost) (b : ObjectId) :
  parseObjectId id = Some b ->
  let result := toggleLikeHandler parseObjectId (Some u) id store in
  (forall p,
      find (fun q => N.eqb (liked_id q) b) store = Some p ->
      let likes := fst (toggleLike (liked_likes p) (user_id u)) in
      fst result
      = LikeData likes (List.length likes)
          (negb (existsb (N.eqb (user_id u)) (liked_likes p)))
      /\ find (fun q => N.eqb (liked_id q) b) (snd result)
         = Some {| liked_id := liked_id p; liked_likes := likes |}
      /\ (forall b', b' <> b ->
             find (fun q => N.eqb (liked_id q) b') (snd result)
             = find (fun q => N.eqb (liked_id q) b') store))
  /\ (find (fun q => N.eqb (liked_id q) b) store = None ->
      result = (LikeError (failure 404 "Blog not found"), store)).
Proof.
  intros Hb result. unfold result, toggleLikeHandler. rewrite Hb. split.
  - intros p Hp. cbv zeta. rewrite Hp.
    destruct (toggleLike (liked_likes p) (user_id u)) as [l isLiked] eqn:E.
    simpl. split; [|split].
    + f_equal. destruct (toggleLike_cases (liked_likes p) (user_id u))
        as [[Hout E'] | (l1 & l2 & El & H1 & E')];
        rewrite E' in E; injection E as <- <-.
      * symmetry. apply negb_true_iff. apply not_true_is_false. intros T.
        apply existsb_exists in T as (x & Hin & Hx).
        apply N.eqb_eq in Hx. subst x. contradiction.
      * symmetry. apply negb_false_iff. apply existsb_exists.
        exists (user_id u). split; [|apply N.eqb_refl]. rewrite El. apply in_elt.
    + now apply setLikes_found.
    + intros b' Hb'. now apply setLikes_other.
  - intros Hn. now rewrite Hn.
Qed.

Lemma like_route_reports_stored_state_witness :
  let parse := fun s : jsstring => Some (N.of_nat (List.length s)) in
  let reader := {| user_id := 9%N; user_role := lit "user" |} in
  let store := [ {| liked_id := 1%N; liked_likes := [] |};
                 {| liked_id := 3%N; liked_likes := [9%N; 5%N] |} ] in
  (fst (toggleLikeHandler parse (Some reader) (lit "abc") store)
   = LikeData [5%N] 1 false
   /\ find (fun q => N.eqb (liked_id q) 3)
        (snd (toggleLikeHandler parse (Some reader) (lit "abc") store))
      = Some {| liked_id := 3%N; liked_likes := [5%N] |}
   /\ find (fun q => N.eqb (liked_id q) 1)
        (snd (toggleLikeHandler parse (Some reader) (lit "abc") store))
      = Some {| liked_id := 1%N; liked_likes := [] |})
  /\ toggleLikeHandler parse (Some reader) (lit "abcd") store
     = (LikeError (failure 404 "Blog not found"), store).
Proof.
  intros parse reader store. split.
  - destruct (proj1 (like_route_reports_stored_state parse reader (lit "abc")
                       store 3%N eq_refl)
                {| liked_id := 3%N; liked_likes := [9%N; 5%N] |} eq_refl)
      as (A & B & C).
    split; [exact A|]. split; [exact B|].
    apply (C 1%N). discriminate.
  - apply (proj2 (like_route_reports_stored_state parse reader (lit "abcd")
                    store 4%N eq_refl)).
    reflexivity.
Defined.

(** ** More on the derived fields of a Job Posting *)

(** X19.  With the stored fields unchanged, a posting that is not open at
    some time is not open at any later time, and an inactive posting is
    never open. *)
Theorem isOpen_never_reopens (isActive : bool)
  (applicationDeadline : option Z) (now later : Z) :
  (now <= later)%Z ->
  (isOpen isActive applicationDeadline now = false ->
   isOpen isActive applicationDeadline later = false)
  /\ isOpen false applicationDeadline now = false.
Proof.
  intros Hle. split; [|reflexivity].
  unfold isOpen. destruct isActive; simpl; auto.
  destruct applicationDeadline as [d|]; auto.
  destruct (Z.ltb_spec d now); [|discriminate].
  intros _. destruct (Z.ltb_spec d later); auto. lia.
Qed.

Lemma isOpen_never_reopens_witness :
  isOpen true (Some 1730000000000%Z) 1730600000001%Z = false.
Proof.
  apply (proj1 (isOpen_never_reopens true (Some 1730000000000%Z)
                  1730600000000%Z 1730600000001%Z ltac:(discriminate))).
  reflexivity.
Defined.

Lemma slash_in_unitSuffix s body : In 47%N (body ++ unitSuffix s).
Proof.
  unfold unitSuffix. apply in_or_app. right.
  apply in_or_app. right. apply in_or_app. right.
  apply in_or_app. left. now left.
Qed.

Lemma no_slash_in_unspecified : ~ In 47%N (lit "Not specified").
Proof. vm_compute. intuition discriminate. Qed.

(** X20.  The salary range reads [Not specified] exactly when there is no
    salary record or neither bound is truthy; in every other case it ends
    with a space, the currency, a slash and the period. *)
Theorem salaryRange_unspecified_iff (salary : option salaryRec) :
  (salaryRange salary = lit "Not specified"
   <-> salary = None
       \/ exists s, salary = Some s /\ truthy (sal_min s) = false
                    /\ truthy (sal_max s) = false)
  /\ (forall s, salary = Some s ->
         truthy (sal_min s) = true \/ truthy (sal_max s) = true ->
         exists body, salaryRange salary = body ++ unitSuffix s).
Proof.
  assert (F : forall s, truthy (sal_min s) = true \/ truthy (sal_max s) = true ->
                        exists body, salaryRange (Some s) = body ++ unitSuffix s).
  { intros s H. unfold salaryRange.
    destruct (truthy (sal_min s)) eqn:A, (truthy (sal_max s)) eqn:B;
      cbn [negb andb].
    - exists (formatSalary (sal_period s) (sal_min s) ++ lit " - "
                ++ formatSalary (sal_period s) (sal_max s)).
      now rewrite <- !app_assoc.
    - exists (formatSalary (sal_period s) (sal_min s) ++ lit "+").
      now rewrite <- !app_assoc.
    - exists (lit "Up to " ++ formatSalary (sal_period s) (sal_max s)).
      now rewrite <- !app_assoc.
    - destruct H; discriminate. }
  split.
  - split.
    + intros H. destruct salary as [s|]; auto. right. exists s. split; auto.
      destruct (truthy (sal_min s)) eqn:A.
      * exfalso. destruct (F s (or_introl A)) as [body E].
        rewrite H in E. apply no_slash_in_unspecified. rewrite E.
        apply slash_in_unitSuffix.
      * split; auto. destruct (truthy (sal_max s)) eqn:B; auto.
        exfalso. destruct (F s (or_intror B)) as [body E].
        rewrite H in E. apply no_slash_in_unspecified. rewrite E.
        apply slash_in_unitSuffix.
    + intros [-> | (s & -> & A & B)]; auto.
      unfold salaryRange. now rewrite A, B.
  - intros s -> H. now apply F.
Qed.

Lemma salaryRange_unspecified_iff_witness :
  exists body,
    salaryRange (Some {| sal_min := VNum (Fin 1 0); sal_max := VUndefined;
                         sal_currency := lit "EUR";
                         sal_period := lit "hourly" |})
    = body ++ lit " " ++ lit "EUR" ++ lit "/" ++ lit "hourly".
Proof.
  apply (proj2 (salaryRange_unspecified_iff
                  (Some {| sal_min := VNum (Fin 1 0); sal_max := VUndefined;
                           sal_currency := lit "EUR";
                           sal_period := lit "hourly" |}))
           _ eq_refl).
  left. reflexivity.
Defined.

(** ** Request-body clean-up *)

(** X21.  The clean-up of the salary fields removes a bound that is the
    empty string and leaves every other bound, the currency and the period
    as they are; it never removes the salary object, even when both bounds
    were empty strings: its third statement can never fire. *)
Theorem handleSalaryFields_keeps_salary (s : salaryBody) :
  handleSalaryFields (Some s)
  = Some {| body_min := if isEmptyStr (body_min s) then None else body_min s;
            body_max := if isEmptyStr (body_max s) then None else body_max s;
            body_currency := body_currency s;
            body_period := body_period s |}
  /\ handleSalaryFields (Some {| body_min := Some (VStr []);
                                 body_max := Some (VStr []);
                                 body_currency := body_currency s;
                                 body_period := body_period s |})
     = Some {| body_min := None; body_max := None;
               body_currency := body_currency s;
               body_period := body_period s |}.
Proof.
  split; [|reflexivity].
  destruct s as [mn mx cur per]. unfold handleSalaryFields. simpl.
  destruct (isEmptyStr mn) eqn:A; simpl;
    destruct (isEmptyStr mx) eqn:B; simpl; rewrite ?A, ?B; simpl;
    reflexivity.
Qed.

Lemma dropWhile_id p s :
  match s with c :: _ => p c = false | [] => True end -> dropWhile p s = s.
Proof. destruct s as [|c s]; simpl; auto. now intros ->. Qed.

Lemma dropWhile_head p s :
  match dropWhile p s with c :: _ => p c = false | [] => True end.
Proof.
  induction s as [|c s IH]; simpl; auto.
  destruct (p c) eqn:E; auto.
Qed.

Lemma dropWhileEnd_id p s :
  (forall t c, s = t ++ [c] -> p c = false) -> dropWhileEnd p s = s.
Proof.
  induction s as [|c s IH]; intros H; simpl; auto.
  rewrite IH.
  - destruct s as [|x t]; auto. now rewrite (H [] c eq_refl).
  - intros t x ->. apply (H (c :: t) x). reflexivity.
Qed.

Lemma dropWhileEnd_last p s :
  forall t c, dropWhileEnd p s = t ++ [c] -> p c = false.
Proof.
  induction s as [|x s IH]; simpl; intros t c E.
  - destruct t; discriminate.
  - destruct (dropWhileEnd p s) as [|y r] eqn:D.
    + destruct (p x) eqn:Px.
      * destruct t; discriminate.
      * destruct t as [|? [|? ?]]; simpl in E; try discriminate.
        congruence.
    + destruct t as [|z t]; simpl in E; [discriminate|].
      injection E as -> E. exact (IH t c E).
Qed.

Lemma dropWhileEnd_head p s c t :
  dropWhileEnd p s = c :: t -> exists t', s = c :: t'.
Proof.
  intros E. destruct (dropWhileEnd_prefix p s) as [r Er].
  rewrite E in Er. simpl in Er. eauto.
Qed.

Lemma trim_trimmed s : trim (trim s) = trim s.
Proof.
  unfold trim at 1.
  assert (H : dropWhile isWhiteSpace (trim s) = trim s).
  { apply dropWhile_id. unfold trim.
    destruct (dropWhileEnd isWhiteSpace (dropWhile isWhiteSpace s))
      as [|c t] eqn:E; auto.
    apply dropWhileEnd_head in E as [t' E].
    pose proof (dropWhile_head isWhiteSpace s) as Hh. now rewrite E in Hh. }
  rewrite H. apply dropWhileEnd_id. unfold trim. apply dropWhileEnd_last.
Qed.

Lemma trim_keeps_only s c : In c (trim s) -> In c s.
Proof.
  unfold trim. intros H.
  destruct (dropWhile_suffix isWhiteSpace s) as [l El].
  destruct (dropWhileEnd_prefix isWhiteSpace (dropWhile isWhiteSpace s))
    as [r Er].
  rewrite El, Er. apply in_or_app. right. apply in_or_app. now left.
Qed.

Lemma splitOn_nonnil sep s : splitOn sep s <> [].
Proof.
  destruct s as [|c s]; simpl; [discriminate|].
  destruct (N.eqb c sep); [discriminate|].
  destruct (splitOn sep s); discriminate.
Qed.

Lemma splitOn_pieces sep s : Forall (fun w => ~ In sep w) (splitOn sep s).
Proof.
  induction s as [|c s IH]; simpl.
  - constructor; auto.
  - destruct (N.eqb_spec c sep) as [->|Hc].
    + constructor; auto.
    + destruct (splitOn sep s) as [|w ws]; [repeat constructor; simpl; tauto|].
      inversion_clear IH as [|? ? Hw Hws]. constructor; auto.
      intros [E | Hin]; auto.
Qed.

Lemma splitOn_piece sep (a : jsstring) :
  ~ In sep a -> splitOn sep a = [a].
Proof.
  induction a as [|c a IH]; intros H; simpl; auto.
  destruct (N.eqb_spec c sep) as [->|Hc].
  - exfalso. apply H. now left.
  - rewrite IH; auto. intros Hin. apply H. now right.
Qed.

Lemma splitOn_app sep (a rest : jsstring) :
  ~ In sep a -> splitOn sep (a ++ sep :: rest) = a :: splitOn sep rest.
Proof.
  induction a as [|c a IH]; intros H; simpl.
  - now rewrite N.eqb_refl.
  - destruct (N.eqb_spec c sep) as [->|Hc].
    + exfalso. apply H. now left.
    + rewrite IH; auto. intros Hin. apply H. now right.
Qed.

Lemma splitOn_joinComma l :
  l <> [] -> Forall (fun x => ~ In 44%N x) l ->
  splitOn 44%N (joinComma l) = l.
Proof.
  induction l as [|a l IH]; intros Hne H; [congruence|].
  inversion_clear H as [|? ? Ha Hl].
  destruct l as [|b l].
  - simpl. now apply splitOn_piece.
  - change (joinComma (a :: b :: l)) with (a ++ 44%N :: joinComma (b :: l)).
    rewrite splitOn_app by assumption. f_equal. apply IH; auto. discriminate.
Qed.

(** X22.  Every item that the comma-separated conversion returns is
    non-empty, has no white space at either end and holds no comma; and a
    list of such items, packed with commas into one string, is recovered
    exactly by the conversion. *)
Theorem commaList_round_trip (s : jsstring) :
  Forall (fun x => x <> [] /\ trim x = x /\ ~ In 44%N x) (commaList s)
  /\ (forall l,
         Forall (fun x => x <> [] /\ trim x = x /\ ~ In 44%N x) l ->
         commaList (joinComma l) = l)
  /\ commaList (joinComma (commaList s)) = commaList s.
Proof.
  assert (A : forall s', Forall (fun x => x <> [] /\ trim x = x /\ ~ In 44%N x)
                           (commaList s')).
  { intros s'. unfold commaList. apply Forall_forall. intros x Hx.
    apply filter_In in Hx as [Hx Hne].
    apply in_map_iff in Hx as (w & <- & Hw).
    split; [|split].
    - intros E. rewrite E in Hne. discriminate.
    - apply trim_trimmed.
    - intros Hin. apply trim_keeps_only in Hin.
      pose proof (splitOn_pieces 44%N s') as P. rewrite Forall_forall in P.
      exact (P w Hw Hin). }
  assert (B : forall l,
             Forall (fun x => x <> [] /\ trim x = x /\ ~ In 44%N x) l ->
             commaList (joinComma l) = l).
  { intros l H. unfold commaList.
    assert (C : filter nonEmpty (map trim l) = l).
    { induction H as [|x r (Hne & Ht & _) Hr IH]; simpl; auto.
      rewrite Ht. destruct x; [congruence|]. simpl. now rewrite IH. }
    destruct l as [|a l]; [reflexivity|].
    rewrite splitOn_joinComma; [exact C|discriminate|].
    eapply Forall_impl; [|exact H]. intros x (_ & _ & Hx). exact Hx. }
  split; [apply A|]. split; [exact B|]. apply B, A.
Qed.

Lemma commaList_round_trip_witness :
  commaList (joinComma [lit "React"; lit "Type Script"; lit "CSS3"])
  = [lit "React"; lit "Type Script"; lit "CSS3"].
Proof.
  apply (proj1 (proj2 (commaList_round_trip []))).
  repeat constructor; try discriminate; vm_compute; intuition discriminate.
Defined.

Example commaList_example :
  commaList (lit " React , ,TypeScript,, 5+ years ,")
  = [lit "React"; lit "TypeScript"; lit "5+ years"].
Proof. reflexivity. Qed.

(** ** Job status and statistics *)

Lemma replaceJob_found store b j j' :
  findJob store b = Some j -> entry_id j' = b ->
  findJob (replaceJob store b j') b = Some j'.
Proof.
  unfold findJob. intros H Hid.
  induction store as [|x store IH]; simpl in *; [discriminate|].
  destruct (N.eqb (entry_id x) b) eqn:E; simpl.
  - rewrite Hid, N.eqb_refl. reflexivity.
  - rewrite E. auto.
Qed.

Lemma replaceJob_ids store b j' :
  entry_id j' = b -> map entry_id (replaceJob store b j') = map entry_id store.
Proof.
  intros Hid. induction store as [|x store IH]; simpl; auto.
  destruct (N.eqb_spec (entry_id x) b) as [E|E]; simpl; congruence.
Qed.

Lemma findJob_id store b j : findJob store b = Some j -> entry_id j = b.
Proof.
  unfold findJob. intros H. apply find_some in H as [_ H].
  now apply N.eqb_eq.
Qed.

(** X23.  Toggling the status of a Job Posting that has a slug flips its
    active flag and touches neither its slug nor its title, although the
    save hook runs; the posting is then not open if it was active; and a
    second toggle restores the flag.  Both requests are answered 200 and
    the store keeps the same postings in the same order. *)
Theorem job_status_toggled_twice (toLowerCase : jsstring -> jsstring)
  (parseObjectId : jsstring -> option ObjectId) (now1 now2 : Z)
  (id : jsstring) (store : list jobEntry) (b : ObjectId) (j : jobEntry) :
  parseObjectId id = Some b -> findJob store b = Some j ->
  truthyStr (job_slug (entry_doc j)) = true ->
  let first := toggleStatusHandler toLowerCase parseObjectId now1 id store in
  let second := toggleStatusHandler toLowerCase parseObjectId now2 id
                  (snd first) in
  fst first = success 200 None /\ fst second = success 200 None
  /\ map entry_id (snd second) = map entry_id store
  /\ exists j1 j2,
       findJob (snd first) b = Some j1 /\ findJob (snd second) b = Some j2
       /\ entry_isActive j1 = negb (entry_isActive j)
       /\ entry_isActive j2 = entry_isActive j
       /\ job_slug (entry_doc j1) = job_slug (entry_doc j)
       /\ job_slug (entry_doc j2) = job_slug (entry_doc j)
       /\ job_title (entry_doc j2) = job_title (entry_doc j)
       /\ (entry_isActive j = true ->
           forall deadline now, isOpen (entry_isActive j1) deadline now = false).
Proof.
  intros Hb Hj Hslug first second.
  pose proof (findJob_id store b j Hj) as Hid.
  assert (S1 : forall now x, truthyStr (job_slug (entry_doc x)) = true ->
                 job_slug (entry_doc (toggled toLowerCase now x))
                 = job_slug (entry_doc x)
                 /\ job_title (entry_doc (toggled toLowerCase now x))
                    = job_title (entry_doc x)).
  { intros now x Hx. unfold toggled, job_pre_save. simpl. rewrite Hx. simpl.
    auto. }
  assert (E1 : first = (success 200 None,
                        replaceJob store b (toggled toLowerCase now1 j))).
  { unfold first, toggleStatusHandler. now rewrite Hb, Hj. }
  assert (F1 : findJob (snd first) b = Some (toggled toLowerCase now1 j)).
  { rewrite E1. simpl. now apply (replaceJob_found store b j). }
  assert (E2 : second
               = (success 200 None,
                  replaceJob (snd first) b
                    (toggled toLowerCase now2 (toggled toLowerCase now1 j)))).
  { unfold second, toggleStatusHandler. now rewrite Hb, F1. }
  destruct (S1 now1 j Hslug) as [Sl1 Ti1].
  assert (Hslug1 : truthyStr (job_slug (entry_doc (toggled toLowerCase now1 j)))
                   = true) by now rewrite Sl1.
  destruct (S1 now2 _ Hslug1) as [Sl2 Ti2].
  split; [now rewrite E1|]. split; [now rewrite E2|]. split.
  - rewrite E2. simpl. rewrite replaceJob_ids by exact Hid.
    rewrite E1. simpl. now apply replaceJob_ids.
  - exists (toggled toLowerCase now1 j),
           (toggled toLowerCase now2 (toggled toLowerCase now1 j)).
    split; [exact F1|]. split.
    { rewrite E2. simpl.
      now apply (replaceJob_found _ b (toggled toLowerCase now1 j)). }
    split; [reflexivity|]. split; [simpl; apply negb_involutive|].
    split; [exact Sl1|]. split; [congruence|]. split; [congruence|].
    intros Ha deadline now. simpl. now rewrite Ha.
Qed.

Lemma job_status_toggled_twice_witness :
  let parse := fun s : jsstring => Some (N.of_nat (List.length s)) in
  let j := {| entry_id := 1%N;
              entry_doc := {| job_title := lit "Designer";
                              job_slug := Some (lit "designer-1700000000000");
                              job_titleModified := false |};
              entry_isActive := true; entry_views := 4%N;
              entry_applications := 0%N |} in
  map entry_id
    (snd (toggleStatusHandler asciiLowerCase parse 1730600000001 (lit "a")
            (snd (toggleStatusHandler asciiLowerCase parse 1730600000000
                    (lit "a") [j]))))
  = [1%N].
Proof.
  intros parse j.
  apply (job_status_toggled_twice asciiLowerCase parse 1730600000000
           1730600000001 (lit "a") [j] 1%N j eq_refl eq_refl eq_refl).
Defined.

Lemma sumN_ones {A : Type} (l : list A) :
  sumN (map (fun _ => 1%N) l) = N.of_nat (List.length l).
Proof.
  induction l as [|x l IH]; [reflexivity|].
  change (sumN (map (fun _ => 1%N) (x :: l)))
    with (1 + sumN (map (fun _ : A => 1%N) l))%N.
  rewrite IH. simpl List.length. rewrite Nat2N.inj_succ. lia.
Qed.

(** X24.  In the statistics overview the active and the inactive postings
    add up to the total, which is the number of stored postings, and the
    active count is the number of postings whose flag is set; with no
    posting every figure is zero. *)
Theorem stats_overview_adds_up (store : list jobEntry) :
  let o := statsOverview store in
  totalJobs o = N.of_nat (List.length store)
  /\ (activeJobs o + inactiveJobs o = totalJobs o)%N
  /\ activeJobs o = N.of_nat (List.length (filter entry_isActive store))
  /\ totalViews o = sumN (map entry_views store)
  /\ statsOverview []
     = {| totalJobs := 0; activeJobs := 0; inactiveJobs := 0;
          totalViews := 0; totalApplications := 0 |}.
Proof.
  intros o.
  assert (G : forall l : list jobEntry,
             (sumN (map (fun j => if entry_isActive j then 1 else 0) l)
              + sumN (map (fun j => if entry_isActive j then 0 else 1) l)
              = N.of_nat (List.length l))%N
             /\ sumN (map (fun j => if entry_isActive j then 1%N else 0%N) l)
                = N.of_nat (List.length (filter entry_isActive l))).
  { induction l as [|x l [IH1 IH2]]; [split; reflexivity|].
    change (sumN (map (fun j => if entry_isActive j then 1%N else 0%N) (x :: l)))
      with ((if entry_isActive x then 1 else 0)
            + sumN (map (fun j => if entry_isActive j then 1%N else 0%N) l))%N.
    change (sumN (map (fun j => if entry_isActive j then 0%N else 1%N) (x :: l)))
      with ((if entry_isActive x then 0 else 1)
            + sumN (map (fun j => if entry_isActive j then 0%N else 1%N) l))%N.
    simpl List.length. simpl filter. rewrite Nat2N.inj_succ.
    destruct (entry_isActive x); simpl List.length;
      rewrite ?Nat2N.inj_succ; lia. }
  destruct store as [|x store]; [repeat split|].
  unfold o, statsOverview.
  cbn [totalJobs activeJobs inactiveJobs totalViews].
  rewrite sumN_ones. destruct (G (x :: store)) as [G1 G2].
  repeat split; auto.
Qed.

(** ** Asset mappings *)

Lemma find_upsert_same store a :
  find (fun x => jsstring_eqb (asset_key x) (asset_key a)) (upsertAsset store a)
  = Some a.
Proof.
  induction store as [|x store IH]; simpl.
  - now rewrite jsstring_eqb_refl.
  - destruct (jsstring_eqb (asset_key x) (asset_key a)) eqn:E; simpl.
    + now rewrite jsstring_eqb_refl.
    + now rewrite E.
Qed.

Lemma find_upsert_other store a k :
  k <> asset_key a ->
  find (fun x => jsstring_eqb (asset_key x) k) (upsertAsset store a)
  = find (fun x => jsstring_eqb (asset_key x) k) store.
Proof.
  intros Hk.
  assert (Ha : jsstring_eqb (asset_key a) k = false).
  { apply not_true_is_false. intros E. apply jsstring_eqb_eq in E. congruence. }
  induction store as [|x store IH]; simpl.
  - now rewrite Ha.
  - destruct (jsstring_eqb (asset_key x) (asset_key a)) eqn:E; simpl.
    + rewrite Ha. apply jsstring_eqb_eq in E.
      rewrite E. now rewrite Ha.
    + now rewrite IH.
Qed.

Lemma upsert_keys store a :
  map asset_key (upsertAsset store a) = map asset_key store
  \/ (~ In (asset_key a) (map asset_key store)
      /\ map asset_key (upsertAsset store a)
         = map asset_key store ++ [asset_key a]).
Proof.
  induction store as [|x store IH]; simpl.
  - right. auto.
  - destruct (jsstring_eqb (asset_key x) (asset_key a)) eqn:E; simpl.
    + left. apply jsstring_eqb_eq in E. now rewrite E.
    + destruct IH as [IH | [Hn IH]].
      * left. now rewrite IH.
      * right. split; [|now rewrite IH].
        intros [Ex | Hin]; auto.
        rewrite Ex, jsstring_eqb_refl in E. discriminate.
Qed.

(** X25.  After a mapping is put under a key, a lookup of that key, or of
    any key that differs from it only by surrounding white space, returns
    the mapping just put, whether the key existed or not; lookups of other
    keys are unaffected; keys stay pairwise distinct; and a request without
    a [url] is answered 400 and stores nothing. *)
Theorem asset_put_then_get (key : jsstring) (url : jsstring)
  (alt : option jsstring) (store : list asset) :
  url <> [] ->
  let put := {| asset_key := trim key; asset_url := url;
                asset_alt := match alt with Some t => t | None => [] end |} in
  let result := putAssetHandler key (Some url) alt store in
  fst result = AssetData put
  /\ (forall key', trim key' = trim key ->
         getAssetHandler key' (snd result) = AssetData put)
  /\ (forall key', trim key' <> trim key ->
         getAssetHandler key' (snd result) = getAssetHandler key' store)
  /\ (NoDup (map asset_key store) -> NoDup (map asset_key (snd result)))
  /\ putAssetHandler key None alt store
     = (AssetMessage (failure 400 "url is required"), store)
  /\ putAssetHandler key (Some []) alt store
     = (AssetMessage (failure 400 "url is required"), store).
Proof.
  intros Hu put result.
  assert (E : result = (AssetData put, upsertAsset store put)).
  { unfold result, putAssetHandler. destruct url; [congruence|reflexivity]. }
  rewrite E. simpl. split; [reflexivity|].
  split; [|split; [|split; [|split]]]; try reflexivity.
  - intros key' Hk. unfold getAssetHandler, findAsset. rewrite Hk.
    change (trim key) with (asset_key put).
    now rewrite (find_upsert_same store put).
  - intros key' Hk. unfold getAssetHandler, findAsset.
    now rewrite (find_upsert_other store put (trim key') Hk).
  - intros Hnd. destruct (upsert_keys store put) as [K | [Hn K]]; rewrite K; auto.
    apply NoDup_app; auto.
    + repeat constructor. intros [].
    + intros x Hx [<- | []]. contradiction.
Qed.

Lemma asset_put_then_get_witness :
  getAssetHandler (lit "hero ")
    (snd (putAssetHandler (lit " hero") (Some (lit "/uploads/hero.png")) None
            [ {| asset_key := lit "hero"; asset_url := lit "/old.png";
                 asset_alt := lit "old" |} ]))
  = AssetData {| asset_key := lit "hero"; asset_url := lit "/uploads/hero.png";
                 asset_alt := [] |}.
Proof.
  apply (proj1 (proj2 (asset_put_then_get (lit " hero")
                         (lit "/uploads/hero.png") None
                         [ {| asset_key := lit "hero"; asset_url := lit "/old.png";
                              asset_alt := lit "old" |} ]
                         ltac:(discriminate)))).
  reflexivity.
Defined.

Lemma find_delete_same store k :
  NoDup (map asset_key store) ->
  find (fun x => jsstring_eqb (asset_key x) k) (deleteAsset store k) = None.
Proof.
  induction store as [|x store IH]; intros Hnd; simpl; auto.
  inversion_clear Hnd as [|? ? Hx Hs].
  destruct (jsstring_eqb (asset_key x) k) eqn:E; simpl.
  - apply jsstring_eqb_eq in E. subst k. apply find_absent.
    intros y Hy. apply not_true_is_false. intros T.
    apply jsstring_eqb_eq in T. apply Hx. rewrite <- T. now apply in_map.
  - rewrite E. auto.
Qed.

Lemma find_delete_other store k k' :
  k' <> k ->
  find (fun x => jsstring_eqb (asset_key x) k') (deleteAsset store k)
  = find (fun x => jsstring_eqb (asset_key x) k') store.
Proof.
  intros Hk. induction store as [|x store IH]; simpl; auto.
  destruct (jsstring_eqb (asset_key x) k) eqn:E; simpl.
  - apply jsstring_eqb_eq in E.
    assert (F : jsstring_eqb (asset_key x) k' = false).
    { apply not_true_is_false. intros T. apply jsstring_eqb_eq in T.
      congruence. }
    now rewrite F.
  - now rewrite IH.
Qed.

Lemma deleteAsset_absent store k :
  ~ In k (map asset_key store) -> deleteAsset store k = store.
Proof.
  induction store as [|x store IH]; intros H; simpl; auto.
  destruct (jsstring_eqb (asset_key x) k) eqn:E.
  - apply jsstring_eqb_eq in E. exfalso. apply H. now left.
  - rewrite IH; auto. intros Hin. apply H. now right.
Qed.

(** X26.  Deleting a mapping is always answered 200, also when the key is
    not stored, in which case nothing changes; with pairwise distinct keys
    a later lookup of the key is answered 404, and lookups of other keys
    are unaffected. *)
Theorem asset_delete_then_get (key : jsstring) (store : list asset) :
  NoDup (map asset_key store) ->
  let result := deleteAssetHandler key store in
  fst result = AssetMessage (success 200 (Some (lit "Asset mapping deleted")))
  /\ getAssetHandler key (snd result)
     = AssetMessage (failure 404 "Asset not found")
  /\ (forall key', trim key' <> trim key ->
         getAssetHandler key' (snd result) = getAssetHandler key' store)
  /\ (~ In (trim key) (map asset_key store) -> snd result = store).
Proof.
  intros Hnd result. unfold result, deleteAssetHandler. simpl.
  split; [reflexivity|]. split; [|split].
  - unfold getAssetHandler, findAsset.
    now rewrite (find_delete_same store (trim key) Hnd).
  - intros key' Hk. unfold getAssetHandler, findAsset.
    now rewrite (find_delete_other store (trim key) (trim key') Hk).
  - apply deleteAsset_absent.
Qed.

Lemma asset_delete_then_get_witness :
  getAssetHandler (lit "hero")
    (snd (deleteAssetHandler (lit "hero")
            [ {| asset_key := lit "hero"; asset_url := lit "/old.png";
                 asset_alt := lit "old" |} ]))
  = AssetMessage (failure 404 "Asset not found").
Proof.
  apply (asset_delete_then_get (lit "hero")
           [ {| asset_key := lit "hero"; asset_url := lit "/old.png";
                asset_alt := lit "old" |} ]).
  constructor; [intros []|constructor].
Defined.

(** ** Public lookup of a Job Posting *)

Lemma incViews_fields store b :
  map entry_id (incViews store b) = map entry_id store
  /\ map entry_doc (incViews store b) = map entry_doc store
  /\ map entry_isActive (incViews store b) = map entry_isActive store
  /\ map entry_applications (incViews store b) = map entry_applications store.
Proof.
  induction store as [|x store (I1 & I2 & I3 & I4)]; simpl; auto.
  destruct (N.eqb (entry_id x) b); simpl; repeat split; congruence.
Qed.

Lemma incViews_total store b :
  In b (map entry_id store) ->
  sumN (map entry_views (incViews store b))
  = (sumN (map entry_views store) + 1)%N.
Proof.
  induction store as [|x store IH]; intros Hin; [contradiction|].
  simpl incViews. destruct (N.eqb_spec (entry_id x) b) as [E|E].
  - unfold sumN. simpl. lia.
  - destruct Hin as [Hx | Hin]; [contradiction|].
    unfold sumN in *. simpl. rewrite IH by assumption. lia.
Qed.

Lemma getJobHandler_hidden (slug : jsstring) (store : list jobEntry) :
  (forall j, In j store -> job_slug (entry_doc j) = Some slug ->
             entry_isActive j = false) ->
  getJobHandler slug store = (JobMessage (failure 404 "Job not found"), store).
Proof.
  intros H. unfold getJobHandler.
  destruct (findActiveBySlug store slug) as [job|] eqn:F; auto.
  unfold findActiveBySlug in F. apply find_some in F as [Hin Hb].
  apply andb_true_iff in Hb as [Hs Ha].
  destruct (job_slug (entry_doc job)) as [s|] eqn:Es; [|discriminate].
  apply jsstring_eqb_eq in Hs. subst s.
  rewrite (H job Hin Es) in Ha. discriminate.
Qed.

(** X27.  The public lookup of a Job Posting by slug only ever returns an
    active posting with that slug; it then adds exactly one to the stored
    view count of a posting (so the total of views in the statistics grows
    by one) and changes no identifier, slug, title, flag or application
    count, while the answer carries the posting as read before the
    increment.  When every posting with that slug is inactive the answer is
    404 and the store is unchanged. *)
Theorem job_public_lookup (slug : jsstring) (store : list jobEntry) :
  let result := getJobHandler slug store in
  (forall job, fst result = JobData job ->
      In job store /\ entry_isActive job = true
      /\ job_slug (entry_doc job) = Some slug
      /\ totalViews (statsOverview (snd result))
         = (totalViews (statsOverview store) + 1)%N
      /\ map entry_id (snd result) = map entry_id store
      /\ map entry_doc (snd result) = map entry_doc store
      /\ map entry_isActive (snd result) = map entry_isActive store
      /\ map entry_applications (snd result) = map entry_applications store)
  /\ ((forall j, In j store -> job_slug (entry_doc j) = Some slug ->
                 entry_isActive j = false) ->
      result = (JobMessage (failure 404 "Job not found"), store)).
Proof.
  intros result. unfold result, getJobHandler, findActiveBySlug. split.
  - intros job H.
    destruct (find _ store) as [j|] eqn:F; [|discriminate].
    injection H as <-. apply find_some in F as [Hin Hj].
    apply andb_true_iff in Hj as [Hs Ha].
    destruct (job_slug (entry_doc j)) as [s|] eqn:Es; [|discriminate].
    apply jsstring_eqb_eq in Hs. subst s.
    simpl snd. destruct (incViews_fields store (entry_id j)) as (I1 & I2 & I3 & I4).
    repeat split; auto.
    assert (T : sumN (map entry_views (incViews store (entry_id j)))
                = (sumN (map entry_views store) + 1)%N)
      by (apply incViews_total; now apply in_map).
    destruct store as [|x store]; [contradiction|].
    destruct (incViews (x :: store) (entry_id j)) as [|y rest] eqn:E.
    + simpl in E. destruct (N.eqb (entry_id x) (entry_id j)); discriminate.
    + exact T.
  - intros H. rewrite find_absent; [reflexivity|].
    intros j Hj. destruct (job_slug (entry_doc j)) as [s|] eqn:Es; auto.
    destruct (jsstring_eqb s slug) eqn:Ej; auto. simpl.
    apply jsstring_eqb_eq in Ej. subst s. exact (H j Hj Es).
Qed.

Lemma job_public_lookup_witness :
  let old := {| entry_id := 1%N;
                entry_doc := {| job_title := lit "Tester";
                                job_slug := Some (lit "tester-1690000000000");
                                job_titleModified := false |};
                entry_isActive := false; entry_views := 7%N;
                entry_applications := 2%N |} in
  let j := {| entry_id := 2%N;
              entry_doc := {| job_title := lit "Designer";
                              job_slug := Some (lit "designer-1700000000000");
                              job_titleModified := false |};
              entry_isActive := true; entry_views := 4%N;
              entry_applications := 0%N |} in
  (fst (getJobHandler (lit "designer-1700000000000") [old; j]) = JobData j
   /\ totalViews (statsOverview
                    (snd (getJobHandler (lit "designer-1700000000000")
                            [old; j]))) = 12%N
   /\ map entry_isActive
        (snd (getJobHandler (lit "designer-1700000000000") [old; j]))
      = [false; true])
  /\ getJobHandler (lit "tester-1690000000000") [old; j]
     = (JobMessage (failure 404 "Job not found"), [old; j]).
Proof.
  intros old j. split.
  - destruct (proj1 (job_public_lookup (lit "designer-1700000000000")
                       [old; j]) j eq_refl)
      as (_ & _ & _ & T & _ & _ & A & _).
    split; [reflexivity|]. split; [exact T | exact A].
  - apply (proj2 (job_public_lookup (lit "tester-1690000000000") [old; j])).
    intros x [<- | [<- | []]] E; [reflexivity | discriminate E].
Defined.

Lemma replaceJob_members store b j j' :
  NoDup (map entry_id store) -> findJob store b = Some j ->
  forall x, In x (replaceJob store b j') ->
            x = j' \/ (In x store /\ entry_id x <> b).
Proof.
  unfold findJob. induction store as [|y store IH]; intros Hnd Hf x Hx;
    simpl in *; [contradiction|].
  inversion_clear Hnd as [|? ? Hy Hs].
  destruct (N.eqb_spec (entry_id y) b) as [E|E].
  - destruct Hx as [<- | Hx]; auto.
    right. split; auto. intros Ex. apply Hy. rewrite E, <- Ex.
    now apply in_map.
  - destruct Hx as [<- | Hx]; auto.
    destruct (IH Hs Hf x Hx) as [-> | [Hin Hne]]; auto.
Qed.

Lemma toggled_keeps_slug toLowerCase now x slug :
  job_slug (entry_doc x) = Some slug -> slug <> [] ->
  job_slug (entry_doc (toggled toLowerCase now x)) = Some slug.
Proof.
  intros Hs Hne. unfold toggled, job_pre_save. simpl. rewrite Hs.
  destruct slug; [congruence|]. reflexivity.
Qed.

(** X28.  A Job Posting that is switched off disappears from the public
    lookup: after the status of an active posting is toggled, the lookup of
    its slug is answered 404, and after a second toggle the lookup returns
    a posting with that slug again.  Identifiers and slugs of the store are
    distinct. *)
Theorem toggled_off_job_is_hidden (toLowerCase : jsstring -> jsstring)
  (parseObjectId : jsstring -> option ObjectId) (now1 now2 : Z)
  (id slug : jsstring) (store : list jobEntry) (b : ObjectId) (j : jobEntry) :
  parseObjectId id = Some b -> findJob store b = Some j ->
  NoDup (map entry_id store) ->
  (forall x, In x store -> job_slug (entry_doc x) = Some slug -> x = j) ->
  job_slug (entry_doc j) = Some slug -> slug <> [] ->
  entry_isActive j = true ->
  let off := snd (toggleStatusHandler toLowerCase parseObjectId now1 id store) in
  let on := snd (toggleStatusHandler toLowerCase parseObjectId now2 id off) in
  getJobHandler slug off = (JobMessage (failure 404 "Job not found"), off)
  /\ exists job, fst (getJobHandler slug on) = JobData job
                 /\ entry_id job = b
                 /\ job_slug (entry_doc job) = Some slug.
Proof.
  intros Hb Hj Hnd Huniq Hslug Hne Hact off on.
  pose proof (findJob_id store b j Hj) as Hid.
  assert (Ht : truthyStr (job_slug (entry_doc j)) = true).
  { rewrite Hslug. destruct slug; [congruence|reflexivity]. }
  set (j1 := toggled toLowerCase now1 j).
  assert (Eoff : off = replaceJob store b j1).
  { unfold off, toggleStatusHandler. now rewrite Hb, Hj. }
  assert (S1 : job_slug (entry_doc j1) = Some slug)
    by now apply toggled_keeps_slug.
  assert (F1 : findJob off b = Some j1).
  { rewrite Eoff. now apply (replaceJob_found store b j). }
  set (j2 := toggled toLowerCase now2 j1).
  assert (Eon : on = replaceJob off b j2).
  { unfold on, toggleStatusHandler. now rewrite Hb, F1. }
  assert (S2 : job_slug (entry_doc j2) = Some slug)
    by now apply toggled_keeps_slug.
  assert (Hidoff : map entry_id off = map entry_id store).
  { rewrite Eoff. now apply replaceJob_ids. }
  split.
  - apply getJobHandler_hidden.
    intros x Hx Hxs. rewrite Eoff in Hx.
    destruct (replaceJob_members store b j j1 Hnd Hj x Hx) as [-> | [Hin Hxb]].
    + unfold j1, toggled. simpl. now rewrite Hact.
    + exfalso. apply Hxb. rewrite (Huniq x Hin Hxs). exact Hid.
  - assert (Hfound : exists job, findActiveBySlug on slug = Some job).
    { destruct (findActiveBySlug on slug) as [job|] eqn:F; eauto.
      exfalso. unfold findActiveBySlug in F.
      pose proof (find_none _ _ F j2) as N.
      assert (Hin : In j2 on).
      { rewrite Eon.
        assert (Q : findJob (replaceJob off b j2) b = Some j2)
          by now apply (replaceJob_found off b j1).
        unfold findJob in Q. now apply find_some in Q. }
      assert (A2 : entry_isActive j2 = true).
      { unfold j2, j1, toggled. simpl. now rewrite Hact. }
      specialize (N Hin). cbv beta in N.
      rewrite S2, jsstring_eqb_refl, A2 in N. discriminate. }
    destruct Hfound as [job F]. exists job.
    unfold getJobHandler. rewrite F. simpl. split; auto.
    unfold findActiveBySlug in F. apply find_some in F as [Hin Hp].
    apply andb_true_iff in Hp as [Hs _].
    destruct (job_slug (entry_doc job)) as [s|] eqn:Es; [|discriminate].
    apply jsstring_eqb_eq in Hs. subst s. split; auto.
    rewrite Eon in Hin.
    assert (Hndoff : NoDup (map entry_id off)) by now rewrite Hidoff.
    destruct (replaceJob_members off b j1 j2 Hndoff F1 job Hin)
      as [-> | [Hin' Hne']].
    + exact Hid.
    + exfalso. rewrite Eoff in Hin'.
      destruct (replaceJob_members store b j j1 Hnd Hj job Hin')
        as [-> | [Hin'' _]].
      * apply Hne'. exact Hid.
      * apply Hne'. rewrite (Huniq job Hin'' Es). exact Hid.
Qed.

Lemma toggled_off_job_is_hidden_witness :
  let parse := fun s : jsstring => Some (N.of_nat (List.length s)) in
  let j := {| entry_id := 1%N;
              entry_doc := {| job_title := lit "Designer";
                              job_slug := Some (lit "designer-1700000000000");
                              job_titleModified := false |};
              entry_isActive := true; entry_views := 4%N;
              entry_applications := 0%N |} in
  let off := snd (toggleStatusHandler asciiLowerCase parse 1730600000000
                    (lit "a") [j]) in
  getJobHandler (lit "designer-1700000000000") off
  = (JobMessage (failure 404 "Job not found"), off).
Proof.
  intros parse j off.
  refine (proj1 (toggled_off_job_is_hidden asciiLowerCase parse 1730600000000
                   1730600000001 (lit "a") (lit "designer-1700000000000")
                   [j] 1%N j eq_refl eq_refl _ _ eq_refl _ eq_refl)).
  - constructor; [intros []|constructor].
  - intros x [<- | []] _. reflexivity.
  - discriminate.
Defined.

(** ** The guards of an admin route *)

(** X29.  On a route guarded by [protect] and [authorize('admin')] the two
    refusals are told apart: the answer is 401 exactly when [protect]
    refuses the credential, and 403 exactly when the credential is
    accepted but no user was found or the user's role is not [admin]. *)
Theorem admin_guard_outcomes (basename : jsstring -> jsstring)
  (unlink : jsstring -> unlinked) (payload : Type)
  (jwt_verify : jsstring -> option payload)
  (findById : payload -> option (option user))
  (authorization : option jsstring) (raw : jsstring) :
  let code := res_code (fst (deleteMediaRoute basename unlink payload
                               jwt_verify findById authorization raw)) in
  (code = 401%Z
   <-> protect jwt_verify findById authorization = Answered unauthorized)
  /\ (code = 403%Z
      <-> exists req_user,
            protect jwt_verify findById authorization = Next req_user
            /\ (req_user = None
                \/ exists u, req_user = Some u /\ user_role u <> lit "admin")).
Proof.
  intros code. unfold code, deleteMediaRoute.
  assert (P : forall r, protect jwt_verify findById authorization = Answered r ->
                        r = unauthorized).
  { intros r. unfold protect.
    destruct (bearerToken authorization) as [t|]; [|congruence].
    destruct (jwt_verify t) as [d|]; [|congruence].
    destruct (findById d); congruence. }
  destruct (protect jwt_verify findById authorization) as [r|ru] eqn:Pr.
  - rewrite (P r eq_refl). simpl. split; split; auto; try discriminate.
    intros (x & Hx & _). discriminate.
  - assert (H : forall c, res_code (fst (deleteMediaHandler basename unlink raw))
                          = c -> c <> 401%Z /\ c <> 403%Z).
    { intros c <-. rewrite deleteMediaHandler_cases.
      destruct (safeName raw && negb (includes (lit "..") raw));
        [destruct (unlink (basename raw))|]; simpl; split; discriminate. }
    unfold authorize. destruct ru as [u|]; simpl.
    + destruct (jsstring_eqb (user_role u) (lit "admin")) eqn:E; simpl.
      * apply jsstring_eqb_eq in E. destruct (H _ eq_refl) as [H1 H3].
        split; split.
        { intros C. exfalso. apply H1. exact C. }
        { discriminate. }
        { intros C. exfalso. apply H3. exact C. }
        { intros (x & Hx & [Hn | (u' & Hu & Hr)]); injection Hx as <-.
          - discriminate.
          - injection Hu as <-. contradiction. }
      * split; split; try discriminate; [|reflexivity].
        intros _. exists (Some u).
        split; auto. right. exists u. split; auto. intros Er.
        rewrite Er, jsstring_eqb_refl in E. discriminate.
    + split; split; try discriminate; [|reflexivity].
      intros _. exists None. auto.
Qed.

Lemma admin_guard_outcomes_witness :
  res_code (fst (deleteMediaRoute (fun s => s) (fun _ => Removed) unit
                   (fun _ => Some tt)
                   (fun _ => Some (Some {| user_id := 9%N;
                                           user_role := lit "user" |}))
                   (Some (lit "Bearer abc")) (lit "a.png"))) = 403%Z.
Proof.
  apply (proj2 (admin_guard_outcomes (fun s => s) (fun _ => Removed) unit
                  (fun _ => Some tt)
                  (fun _ => Some (Some {| user_id := 9%N;
                                          user_role := lit "user" |}))
                  (Some (lit "Bearer abc")) (lit "a.png"))).
  eexists. split; [reflexivity|]. right. eexists. split; [reflexivity|].
  discriminate.
Defined.

(** ** Which uploads the media listing shows *)

Lemma asciiLower_dot c : asciiLower c = 46%N -> c = 46%N.
Proof.
  unfold asciiLower. destruct (isUpper c) eqn:U; auto.
  intros E. char_facts. lia.
Qed.

Lemma map_asciiLower_no_dot e : ~ In 46%N e -> ~ In 46%N (map asciiLower e).
Proof.
  intros H Hin. apply in_map_iff in Hin as (c & Ec & Hc).
  apply asciiLower_dot in Ec. subst c. contradiction.
Qed.

Lemma endsWith_extension (x stem e : jsstring) :
  ~ In 46%N x -> ~ In 46%N e ->
  (endsWith (46%N :: x) (stem ++ 46%N :: e) = true <-> x = e).
Proof.
  intros Hx He. unfold endsWith. unfold jsstring, code in *.
  assert (R1 : rev (46%N :: x) = rev x ++ [46%N]) by reflexivity.
  assert (R2 : rev (stem ++ 46%N :: e) = rev e ++ 46%N :: rev stem).
  { rewrite rev_app_distr. simpl. now rewrite <- app_assoc. }
  rewrite R1, R2. split.
  - intros H. apply startsWith_prefix in H as [rest E].
    rewrite <- app_assoc in E. simpl in E.
    apply split_at_first_mark in E as [E _].
    + apply (f_equal (@rev N)) in E. rewrite !rev_involutive in E. congruence.
    + intros Hin. apply He. now apply in_rev.
    + intros Hin. apply Hx. now apply in_rev.
  - intros ->.
    replace (rev e ++ 46%N :: rev stem) with ((rev e ++ [46%N]) ++ rev stem)
      by now rewrite <- app_assoc.
    apply startsWith_app.
Qed.

Lemma endsWith_members (suffix s : jsstring) (c : code) :
  endsWith suffix s = true -> In c suffix -> In c s.
Proof.
  unfold endsWith. intros H Hc.
  apply startsWith_prefix in H as [rest E]. unfold jsstring, code in *.
  apply (proj2 (in_rev s c)). rewrite E.
  apply in_or_app. left. now apply (proj1 (in_rev suffix c)).
Qed.

(** X30.  A stored upload is shown by the media listing exactly when the
    extension of the original file name is, up to ASCII case, one of
    [png], [jpg], [jpeg], [gif], [webp] or [svg]; an upload without
    extension is never shown.  The upload filter accepts any declared type
    that starts with [image/], so an image with another extension is stored
    but not listed. *)
Theorem uploaded_name_listed_iff (fieldname : jsstring) (now rnd : Z)
  (e : jsstring) :
  fieldname = lit "image" \/ fieldname = lit "images" ->
  ~ In 46%N e ->
  (isListedImage (uploadFilename fieldname now rnd (46%N :: e)) = true
   <-> In (map asciiLower e)
          [lit "png"; lit "jpg"; lit "jpeg"; lit "gif"; lit "webp"; lit "svg"])
  /\ isListedImage (uploadFilename fieldname now rnd []) = false.
Proof.
  intros Hf He.
  pose proof (uploadFilename_prefix_plain fieldname now rnd Hf) as Hp.
  set (prefix := fieldname ++ lit "-"
                   ++ (decimalZ now ++ lit "-" ++ decimalZ rnd)) in *.
  assert (E1 : forall ext, uploadFilename fieldname now rnd ext = prefix ++ ext).
  { intros ext. unfold uploadFilename, prefix. now rewrite <- !app_assoc. }
  pose proof (map_asciiLower_no_dot e He) as He'.
  assert (K : forall x, ~ In 46%N x ->
      (endsWith (46%N :: x)
         (map asciiLower (uploadFilename fieldname now rnd (46%N :: e))) = true
       <-> x = map asciiLower e)).
  { intros x Hx. rewrite E1, map_app. simpl map.
    change (asciiLower 46%N) with 46%N. now apply endsWith_extension. }
  split.
  - unfold isListedImage. rewrite existsb_exists. split.
    + intros (ext & Hin & Hend). simpl in Hin.
      destruct Hin as [<- | [<- | [<- | [<- | [<- | [<- | []]]]]]];
        apply K in Hend; try (vm_compute; intuition discriminate);
        rewrite <- Hend; simpl; auto 10.
    + intros Hin. simpl in Hin.
      destruct Hin as [H | [H | [H | [H | [H | [H | []]]]]]].
      * exists ".png"%string. split; [simpl; auto 10|]. apply K; auto.
        vm_compute; intuition discriminate.
      * exists ".jpg"%string. split; [simpl; auto 10|]. apply K; auto.
        vm_compute; intuition discriminate.
      * exists ".jpeg"%string. split; [simpl; auto 10|]. apply K; auto.
        vm_compute; intuition discriminate.
      * exists ".gif"%string. split; [simpl; auto 10|]. apply K; auto.
        vm_compute; intuition discriminate.
      * exists ".webp"%string. split; [simpl; auto 10|]. apply K; auto.
        vm_compute; intuition discriminate.
      * exists ".svg"%string. split; [simpl; auto 10|]. apply K; auto.
        vm_compute; intuition discriminate.
  - rewrite E1, app_nil_r. unfold isListedImage.
    assert (Nd : ~ In 46%N (map asciiLower prefix)).
    { apply map_asciiLower_no_dot. intros Hin.
      rewrite Forall_forall in Hp. now destruct (Hp _ Hin). }
    apply not_true_is_false. intros H.
    apply existsb_exists in H as (ext & Hin & Hend).
    apply Nd. apply (endsWith_members _ _ _ Hend).
    simpl in Hin.
    destruct Hin as [<- | [<- | [<- | [<- | [<- | [<- | []]]]]]]; now left.
Qed.

Lemma uploaded_name_listed_iff_witness :
  isListedImage (uploadFilename (lit "images") 1730600000000 7 (lit ".JPG"))
  = true.
Proof.
  apply (proj1 (uploaded_name_listed_iff (lit "images") 1730600000000 7
                  (lit "JPG") (or_intror eq_refl)
                  ltac:(vm_compute; intuition discriminate))).
  vm_compute. auto.
Defined.

(** A bitmap declared as [image/bmp] passes the filter and is stored, but
    the listing leaves it out. *)
Example bitmap_stored_but_not_listed :
  fileFilter (lit "image/bmp") = None
  /\ isListedImage
       (uploadFilename (lit "images") 1730600000000 7 (lit ".bmp")) = false.
Proof. split; reflexivity. Qed.
